(** * genjutsu-db: repository, relations and migration runner

    A shallow embedding of [src/client.ts], [src/relations.ts] and
    [src/migrations.ts], over a small model of the spreadsheet the
    transport talks to, and the properties of the CRUD protocol, the
    foreign-key check, eager loading and the migration runner; then of
    [defineModel] of [src/model.ts], and of [extractSpreadsheetId] and
    the error handling of requests of [src/transport.ts].

    Conventions of the embedding.
    - A JavaScript scalar is a [value]; numbers are integers ([Z]), so
      [NaN] does not occur and [===] on scalars is equality.
    - A record (a parsed row, [Record<string, unknown>]) is a finite map
      from column names to scalars; a missing property reads as
      [undefined].
    - An [async] function is a state-and-exception computation [Async]:
      it takes the spreadsheet, and resolves with a value or rejects with
      the thrown value, leaving the spreadsheet it produced.
    - The spreadsheet is a list of tabs; every transport call is recorded
      in a trace.  Transport faults (network, HTTP status) are outside the
      model of the repository: every call is answered.  The handling of
      one request, its retry and its failures are modelled apart, in
      [Http].
    - White space is the white space of ASCII.
    - A range string [`${sheet}!A${row}:${lastCol}`] is kept as its sheet
      name and first row. *)

From Stdlib Require Import Ascii.
From stdpp Require Import gmap strings list fin_maps sorting pretty.

Set Warnings "-register-all".

Open Scope Z_scope.
Open Scope string_scope.
Open Scope list_scope.

(** ** JavaScript scalars *)

Inductive value : Type :=
  | VUndefined
  | VNull
  | VStr (s : string)
  | VNum (n : Z)
  | VBool (b : bool).

#[global] Instance value_eq_dec : EqDecision value.
Proof. solve_decision. Defined.

#[global] Instance value_inhabited : Inhabited value := populate VUndefined.

(** [a === b] *)
Definition strict_eq (a b : value) : bool := bool_decide (a = b).

(** [v === null || v === undefined] *)
Definition nullish (v : value) : bool :=
  match v with
  | VUndefined | VNull => true
  | _ => false
  end.

(** [String(v)] *)
Definition js_String (v : value) : string :=
  match v with
  | VUndefined => "undefined"
  | VNull => "null"
  | VStr s => s
  | VNum n => pretty n
  | VBool true => "true"
  | VBool false => "false"
  end.

Definition is_space (c : Ascii.ascii) : bool :=
  let n := Ascii.nat_of_ascii c in
  bool_decide (n = 32%nat) || (bool_decide (9 ≤ n)%nat && bool_decide (n ≤ 13)%nat).

Fixpoint trim_start (s : string) : string :=
  match s with
  | String c s' => if is_space c then trim_start s' else s
  | EmptyString => EmptyString
  end.

Definition digit_of (c : Ascii.ascii) : option Z :=
  let n := Ascii.nat_of_ascii c in
  if bool_decide (48 ≤ n)%nat && bool_decide (n ≤ 57)%nat
  then Some (Z.of_nat (n - 48)) else None.

(** Digits, then optional trailing white space; [acc] is the number read
    so far and [seen] tells whether a digit was read. *)
Fixpoint read_digits (acc : Z) (seen : bool) (s : string) : option Z :=
  match s with
  | EmptyString => if seen then Some acc else None
  | String c s' =>
      match digit_of c with
      | Some d => read_digits (10 * acc + d) true s'
      | None => if seen && bool_decide (trim_start s = EmptyString)
                then Some acc else None
      end
  end.

(** [Number(v)], [None] standing for [NaN].  Strings are read as decimal
    integer numerals (with sign and surrounding white space); the empty
    and the blank string are [0], as in JavaScript. *)
Definition js_Number (v : value) : option Z :=
  match v with
  | VUndefined => None
  | VNull => Some 0
  | VBool b => Some (if b then 1 else 0)
  | VNum n => Some n
  | VStr s =>
      match trim_start s with
      | EmptyString => Some 0
      | String "-"%char s' => Z.opp <$> read_digits 0 false s'
      | String "+"%char s' => read_digits 0 false s'
      | s' => read_digits 0 false s'
      end
  end.

(** A record, [Record<string, unknown>], is an object whose properties are
    scalars; [prop r k] is [r[k]]. *)
Abbreviation obj := (gmap string value).

Definition prop (r : obj) (k : string) : value :=
  default VUndefined (r !! k).

(** ** Errors ([src/errors.ts]) *)

Inductive GenjutsuErrorKind : Type :=
  | AUTH_ERROR
  | PERMISSION_ERROR
  | RATE_LIMIT
  | NETWORK_ERROR
  | VALIDATION_ERROR
  | SCHEMA_ERROR
  | MIGRATION_ERROR
  | API_ERROR.

#[global] Instance kind_eq_dec : EqDecision GenjutsuErrorKind.
Proof. solve_decision. Defined.

Record ValidationIssue : Type := mkIssue {
  issue_field : string;
  issue_message : string;
  issue_value : value;
}.

#[global] Instance issue_eq_dec : EqDecision ValidationIssue.
Proof. solve_decision. Defined.

(** What a [throw] carries: a [GenjutsuError] with its optional fields, a
    plain [Error] with a message, or any other value. *)
Inductive thrown : Type :=
  | GenjutsuError (kind : GenjutsuErrorKind) (message : string)
      (cause : option thrown)
      (validationIssues : option (list ValidationIssue))
      (migrationVersion : option Z)
      (migrationName : option string)
  | PlainError (message : string)
  | ThrownValue (v : value).

Definition permissionError (message : string) : thrown :=
  GenjutsuError PERMISSION_ERROR message None None None None.

Definition validationError (message : string) (issues : list ValidationIssue) : thrown :=
  GenjutsuError VALIDATION_ERROR message None (Some issues) None None.

Definition schemaError (message : string) : thrown :=
  GenjutsuError SCHEMA_ERROR message None None None None.

Definition migrationError (message : string) (version : Z) (name : string)
    (cause : thrown) : thrown :=
  GenjutsuError MIGRATION_ERROR message (Some cause) None (Some version) (Some name).

Definition error_kind (e : thrown) : option GenjutsuErrorKind :=
  match e with
  | GenjutsuError k _ _ _ _ _ => Some k
  | _ => None
  end.

Definition error_issues (e : thrown) : list ValidationIssue :=
  match e with
  | GenjutsuError _ _ _ (Some l) _ _ => l
  | _ => []
  end.

(** [err instanceof Error ? err.message : String(err)] *)
Definition error_text (e : thrown) : string :=
  match e with
  | GenjutsuError _ m _ _ _ _ => m
  | PlainError m => m
  | ThrownValue v => js_String v
  end.

(** ** The spreadsheet and the trace of calls *)

Abbreviation row := (list value).

Record Range : Type := mkRange {
  range_sheet : string;
  range_row : nat;
}.

#[global] Instance range_eq_dec : EqDecision Range.
Proof. solve_decision. Defined.

Inductive RenderOption : Type := FORMATTED_VALUE | UNFORMATTED_VALUE.

(** The structural requests the library sends to [:batchUpdate]. *)
Inductive Request : Type :=
  | AddSheet (title : string)
  | InsertDimension (sheetId : Z) (startIndex endIndex : nat)
  | UpdateCells (sheetId : Z) (rowIndex columnIndex : nat) (stringValue : string)
  | DeleteDimension (sheetId : Z) (startIndex endIndex : nat)
  | UpdateSheetProperties (sheetId : Z) (title : string).

Inductive Call : Type :=
  | GetValues (range : Range) (render : RenderOption)
  | BatchGet (ranges : list Range) (render : RenderOption)
  | UpdateValues (range : Range) (values : list row) (append : bool)
  | ClearValues (range : Range)
  | GetMetadata
  | StructuralBatch (requests : list Request).

(** A trace entry is a transport call or, for the migration runner, the
    invocation of the procedure of a migration. *)
Inductive Event : Type :=
  | Net (c : Call)
  | Invoked (version : Z).

Record Tab : Type := mkTab {
  tab_id : Z;
  tab_title : string;
  tab_cells : list row;
}.

Record Spreadsheet : Type := mkSpreadsheet {
  tabs : list Tab;
  clock : string;
  trace : list Event;
}.

Definition record_event (e : Event) (w : Spreadsheet) : Spreadsheet :=
  mkSpreadsheet (tabs w) (clock w) (trace w ++ [e]).

Definition with_tabs (ts : list Tab) (w : Spreadsheet) : Spreadsheet :=
  mkSpreadsheet ts (clock w) (trace w).

(** ** Promises *)

Inductive outcome (A : Type) : Type :=
  | Resolved (a : A)
  | Rejected (e : thrown).
Arguments Resolved {A} a.
Arguments Rejected {A} e.

Definition Async (A : Type) : Type := Spreadsheet → outcome A * Spreadsheet.

Definition resolve {A} (a : A) : Async A := λ w, (Resolved a, w).
Definition throw {A} (e : thrown) : Async A := λ w, (Rejected e, w).

Definition andThen {A B} (m : Async A) (k : A → Async B) : Async B :=
  λ w, match m w with
       | (Resolved a, w') => k a w'
       | (Rejected e, w') => (Rejected e, w')
       end.

Notation "'let!' x ':=' m 'in' k" := (andThen m (λ x, k))
  (at level 10, x name, m at level 100, k at level 200).
Notation "'do!' m 'in' k" := (andThen m (λ _, k))
  (at level 10, m at level 100, k at level 200).

(** [try { await m } catch (err) { throw h(err) }] *)
Definition rethrow {A} (m : Async A) (h : thrown → thrown) : Async A :=
  λ w, match m w with
       | (Resolved a, w') => (Resolved a, w')
       | (Rejected e, w') => (Rejected (h e), w')
       end.

(** ** Transport ([src/transport.ts]) over the spreadsheet model *)

Record TransportContext : Type := mkCtx {
  ctx_auth : option string;
  ctx_apiKey : option string;
  ctx_spreadsheetId : string;
}.

Definition titled (t : string) (tab : Tab) : bool :=
  bool_decide (tab_title tab = t).

(** The cells of the first tab with that title; no rows when there is
    none. *)
Definition tab_rows (t : string) (ts : list Tab) : list row :=
  from_option tab_cells [] (find (titled t) ts).

(** Change the cells of the first tab with that title. *)
Fixpoint alter_rows (t : string) (f : list row → list row) (ts : list Tab) : list Tab :=
  match ts with
  | [] => []
  | tab :: rest =>
      if titled t tab
      then mkTab (tab_id tab) (tab_title tab) (f (tab_cells tab)) :: rest
      else tab :: alter_rows t f rest
  end.

(** Rows [range_row], [range_row + 1], ... of the tab. *)
Definition read_range (ts : list Tab) (r : Range) : list row :=
  drop (range_row r - 1) (tab_rows (range_sheet r) ts).

(** Overwrite, from row index [i] on, as many rows as are given. *)
Definition put_rows (i : nat) (vs : list row) (g : list row) : list row :=
  take i (g ++ replicate (i - length g) []) ++ vs ++ drop (i + length vs) g.

(** [values.append]: the rows go below the last row of data, and not above
    the first row of the range. *)
Definition append_rows (r : Range) (vs : list row) (g : list row) : list row :=
  put_rows (max (length g) (range_row r - 1)) vs g.

Definition clear_rows (r : Range) (g : list row) : list row :=
  take (range_row r - 1) g.

Module Transport.

Definition getSheetValues (ctx : TransportContext) (range : Range)
    (valueRenderOption : RenderOption) : Async (list row) :=
  λ w, (Resolved (read_range (tabs w) range),
        record_event (Net (GetValues range valueRenderOption)) w).

(** A [Map<string, unknown[][]>] keyed by range, in insertion order. *)
Abbreviation RangeMap := (list (Range * list row)).

Fixpoint map_set (k : Range) (v : list row) (m : RangeMap) : RangeMap :=
  match m with
  | [] => [(k, v)]
  | (k', v') :: m' =>
      if bool_decide (k' = k) then (k, v) :: m' else (k', v') :: map_set k v m'
  end.

Fixpoint map_get (k : Range) (m : RangeMap) : option (list row) :=
  match m with
  | [] => None
  | (k', v') :: m' => if bool_decide (k' = k) then Some v' else map_get k m'
  end.

(** The response lists one value range per requested range, under the
    range that was asked for. *)
Definition batchGetValues (ctx : TransportContext) (ranges : list Range)
    (valueRenderOption : RenderOption) : Async RangeMap :=
  λ w,
    match ranges with
    | [] => (Resolved [], w)
    | _ =>
        (Resolved (foldl (λ result r, map_set r (read_range (tabs w) r) result) [] ranges),
         record_event (Net (BatchGet ranges valueRenderOption)) w)
    end.

Definition updateSheet (ctx : TransportContext) (range : Range)
    (values : list row) (append : bool) : Async unit :=
  λ w,
    let f := if append then append_rows range values
             else put_rows (range_row range - 1) values in
    (Resolved tt,
     record_event (Net (UpdateValues range values append))
       (with_tabs (alter_rows (range_sheet range) f (tabs w)) w)).

Definition clearRange (ctx : TransportContext) (range : Range) : Async unit :=
  λ w,
    (Resolved tt,
     record_event (Net (ClearValues range))
       (with_tabs (alter_rows (range_sheet range) (clear_rows range) (tabs w)) w)).

Record SheetProperties : Type := mkProps {
  prop_sheetId : Z;
  prop_title : string;
}.

Definition getSpreadsheetMetadata (ctx : TransportContext) : Async (list SheetProperties) :=
  λ w, (Resolved (map (λ tab, mkProps (tab_id tab) (tab_title tab)) (tabs w)),
        record_event (Net GetMetadata) w).

(** An id no tab has yet. *)
Definition fresh_id (ts : list Tab) : Z :=
  1 + foldr (λ tab m, Z.max (tab_id tab) m) 0 ts.

Definition alter_tab (id : Z) (f : Tab → Tab) (ts : list Tab) : list Tab :=
  map (λ tab, if bool_decide (tab_id tab = id) then f tab else tab) ts.

Definition insert_cells (i n : nat) (r : row) : row :=
  if bool_decide (i ≤ length r)%nat
  then take i r ++ replicate n VNull ++ drop i r else r.

Definition delete_cells (i n : nat) (r : row) : row :=
  take i r ++ drop (i + n) r.

Definition set_cell (i j : nat) (v : value) (g : list row) : list row :=
  let g' := g ++ replicate (S i - length g) [] in
  let r := default [] (g' !! i) in
  <[i := <[j := v]> (r ++ replicate (S j - length r) VNull)]> g'.

Definition with_cells (f : list row → list row) (tab : Tab) : Tab :=
  mkTab (tab_id tab) (tab_title tab) (f (tab_cells tab)).

Definition apply_request (ts : list Tab) (rq : Request) : list Tab :=
  match rq with
  | AddSheet t => ts ++ [mkTab (fresh_id ts) t []]
  | InsertDimension id i j => alter_tab id (with_cells (map (insert_cells i (j - i)))) ts
  | UpdateCells id i j s => alter_tab id (with_cells (set_cell i j (VStr s))) ts
  | DeleteDimension id i j => alter_tab id (with_cells (map (delete_cells i (j - i)))) ts
  | UpdateSheetProperties id t =>
      alter_tab id (λ tab, mkTab (tab_id tab) t (tab_cells tab)) ts
  end.

Definition structuralBatchUpdate (ctx : TransportContext) (requests : list Request)
    : Async unit :=
  λ w, (Resolved tt,
        record_event (Net (StructuralBatch requests))
          (with_tabs (foldl apply_request (tabs w) requests) w)).

End Transport.

Import Transport.

(** ** Schemas ([src/types.ts]) *)

Record FieldDefinition : Type := mkField {
  fd_name : string;
  fd_isPrimaryKey : bool;
  fd_isOptional : bool;
  fd_defaultValue : value;
}.

Record RelationDefinition : Type := mkRelation {
  sourceField : string;
  targetModel : string;
  targetField : string;
}.

(** [SheetSchema<T>] with [T] a record.  [parseRow] answers [None] for
    [null]; [validate], when present, answers the value it throws. *)
Record SheetSchema : Type := mkSchema {
  sheetName : string;
  headers : list string;
  readRange : Range;
  writeRange : Range;
  clearRange : Range;
  parseRow : row → nat → option obj;
  toRow : obj → row;
  validate : option (obj → option thrown);
  primaryKey : option string;
  fields : option (list FieldDefinition);
  relations : option (list RelationDefinition);
}.

Record WriteOptions : Type := mkWriteOptions {
  skipFkValidation : bool;
}.

(** [options?.skipFkValidation] *)
Definition skips_fk (options : option WriteOptions) : bool :=
  from_option skipFkValidation false options.

(** A [Record<string, SheetSchema>]: the entries in insertion order. *)
Abbreviation Schemas := (list (string * SheetSchema)).

(** [allSchemas[key]] *)
Definition schema_at (allSchemas : Schemas) (key : string) : option SheetSchema :=
  snd <$> find (λ e, bool_decide (fst e = key)) allSchemas.

(** A property that is read in a condition: the empty string is falsy. *)
Definition truthy (k : option string) : option string :=
  match k with
  | Some s => if bool_decide (s = EmptyString) then None else Some s
  | None => None
  end.

(** [array.indexOf(x)], [None] for [-1] *)
Fixpoint indexOf (l : list string) (x : string) : option nat :=
  match l with
  | [] => None
  | y :: l' => if bool_decide (y = x) then Some 0%nat else S <$> indexOf l' x
  end.

(** [array.findIndex(f)], [None] for [-1] *)
Fixpoint findIndex {A} (f : A → bool) (l : list A) : option nat :=
  match l with
  | [] => None
  | y :: l' => if f y then Some 0%nat else S <$> findIndex f l'
  end.

(** The loop of [readAllRaw] and of [loadRelated]: parse every row with
    its index and keep the entities that are not [null]. *)
Fixpoint parse_rows (schema : SheetSchema) (i : nat) (rows : list row) : list obj :=
  match rows with
  | [] => []
  | r :: rows' =>
      match parseRow schema r i with
      | Some entity => entity :: parse_rows schema (S i) rows'
      | None => parse_rows schema (S i) rows'
      end
  end.

Definition header_row (schema : SheetSchema) : row := VStr <$> headers schema.

(** ** Relations ([src/relations.ts]) *)

(** The double-quote character, as a string. *)
Definition dq : string := String (Ascii.ascii_of_nat 34) EmptyString.

Definition fk_message (relation : RelationDefinition) (fkValue : value) : string :=
  "Foreign key validation failed: " +:+ sourceField relation +:+ " references "
  +:+ targetModel relation +:+ "." +:+ targetField relation +:+ " but value "
  +:+ dq +:+ js_String fkValue +:+ dq +:+ " not found".

Definition fk_issue (relation : RelationDefinition) (fkValue : value) : ValidationIssue :=
  mkIssue (sourceField relation)
    ("Referenced " +:+ targetModel relation +:+ "." +:+ targetField relation +:+ " "
     +:+ dq +:+ js_String fkValue +:+ dq +:+ " not found")
    fkValue.

(** The predicate of [rows.some(...)]. *)
Definition references_row (pkIndex : nat) (fkValue : value) (r : row) : bool :=
  let cellValue := default VUndefined (r !! pkIndex) in
  negb (nullish cellValue) && bool_decide (js_String cellValue = js_String fkValue).

(** The body of the loop of [validateForeignKeys], over the relations that
    are left; [continue] is the recursive call. *)
Fixpoint validate_relations (record : obj) (allSchemas : Schemas)
    (ctx : TransportContext) (changedFields : option (gset string))
    (rels : list RelationDefinition) : Async unit :=
  match rels with
  | [] => resolve tt
  | relation :: rest =>
      let continue := validate_relations record allSchemas ctx changedFields rest in
      if from_option (λ cf, bool_decide (sourceField relation ∉ cf)) false changedFields
      then continue
      else
        let fkValue := prop record (sourceField relation) in
        if nullish fkValue then continue
        else
          match schema_at allSchemas (targetModel relation) with
          | None => continue
          | Some targetSchema =>
              let! rows := getSheetValues ctx (readRange targetSchema) UNFORMATTED_VALUE in
              let targetPk := default (targetField relation) (primaryKey targetSchema) in
              match indexOf (headers targetSchema) targetPk with
              | None => continue
              | Some pkIndex =>
                  if existsb (references_row pkIndex fkValue) rows
                  then continue
                  else throw (validationError (fk_message relation fkValue)
                                [fk_issue relation fkValue])
              end
          end
  end.

Definition validateForeignKeys (record : obj) (schema : SheetSchema)
    (allSchemas : Schemas) (ctx : TransportContext)
    (changedFields : option (gset string)) : Async unit :=
  match relations schema with
  | None | Some [] => resolve tt
  | Some rels => validate_relations record allSchemas ctx changedFields rels
  end.

(** A property of a record returned with [include]: a scalar, or the array
    of related records attached under the key of a related schema. *)
Inductive jsval : Type :=
  | Scalar (v : value)
  | Records (rs : list obj).

Abbreviation loaded := (gmap string jsval).

(** [String(x)]; an array prints its elements separated by commas, and an
    object prints as [[object Object]]. *)
Definition jsval_String (x : jsval) : string :=
  match x with
  | Scalar v => js_String v
  | Records rs => String.concat "," (map (λ _, "[object Object]") rs)
  end.

(** [{ ...r }] *)
Definition spread (r : obj) : loaded := Scalar <$> r.

Definition findRelationToModel (relatedSchema : SheetSchema) (allSchemas : Schemas)
    (targetSchema : SheetSchema) : option RelationDefinition :=
  match relations relatedSchema with
  | None => None
  | Some rels =>
      match truthy (fst <$> find (λ e, bool_decide (sheetName (snd e) = sheetName targetSchema))
                              allSchemas) with
      | None => None
      | Some targetKey => find (λ r, bool_decide (targetModel r = targetKey)) rels
      end
  end.

(** The include keys that name a registered schema, each with its schema:
    the parallel arrays [relatedSchemaKeys] and [relatedRanges]. *)
Definition related_schemas (includeKeys : list string) (allSchemas : Schemas)
    : list (string * SheetSchema) :=
  omap (λ k, (λ s, (k, s)) <$> schema_at allSchemas k) includeKeys.

(** The body of the inner loop of [loadRelated]: the array attached to
    one parent for one related schema. *)
Definition attach_to_parent (pk : string) (relatedKey : string)
    (relation : option RelationDefinition) (relatedRecords : list obj)
    (parent : loaded) : loaded :=
  let parentPk := default (Scalar VUndefined) (parent !! pk) in
  match relation with
  | Some relation =>
      <[relatedKey :=
          Records (filter (λ child, js_String (prop child (sourceField relation))
                                    = jsval_String parentPk) relatedRecords)]> parent
  | None => <[relatedKey := Records []]> parent
  end.

(** One round of the outer loop of [loadRelated]. *)
Definition attach_related (schema : SheetSchema) (allSchemas : Schemas) (pk : string)
    (batchResult : RangeMap) (enhancedRecords : list loaded)
    (related : string * SheetSchema) : list loaded :=
  let relatedKey := fst related in
  let relatedSchema := snd related in
  let relation := findRelationToModel relatedSchema allSchemas schema in
  let rows := default [] (map_get (readRange relatedSchema) batchResult) in
  let relatedRecords := parse_rows relatedSchema 0 rows in
  attach_to_parent pk relatedKey relation relatedRecords <$> enhancedRecords.

(** [includeMap] is given by its keys, [Object.keys(includeMap)]. *)
Definition loadRelated (records : list obj) (schema : SheetSchema)
    (includeMap : list string) (allSchemas : Schemas) (ctx : TransportContext)
    : Async (list loaded) :=
  match includeMap with
  | [] => resolve (spread <$> records)
  | _ =>
      let related := related_schemas includeMap allSchemas in
      let relatedRanges := (readRange ∘ snd) <$> related in
      match relatedRanges with
      | [] => resolve (spread <$> records)
      | _ =>
          let! batchResult := batchGetValues ctx relatedRanges UNFORMATTED_VALUE in
          match truthy (primaryKey schema) with
          | None => resolve (spread <$> records)
          | Some pk =>
              resolve (foldl (attach_related schema allSchemas pk batchResult)
                             (spread <$> records) related)
          end
      end
  end.

(** ** The client and its repositories ([src/client.ts]) *)

Record ClientConfig : Type := mkConfig {
  spreadsheetId : string;
  auth : option string;
  apiKey : option string;
  schemas : Schemas;
}.

Record FindOptions : Type := mkFindOptions {
  include : option (list string);
}.

Module Repository.
Section Client.

Variable config : ClientConfig.

Definition ctx : TransportContext :=
  mkCtx (auth config) (apiKey config) (spreadsheetId config).

(** [!config.auth] *)
Definition isReadOnly : bool :=
  match truthy (auth config) with
  | Some _ => false
  | None => true
  end.

Definition assertWritable : Async unit :=
  if isReadOnly
  then throw (permissionError
    "Write operations require auth. This client was created with apiKey only (read-only).")
  else resolve tt.

(** The write mutex chains an operation after the one before it; run
    one at a time, an operation simply runs. *)
Definition withWriteLock {A} (fn : Async A) : Async A := fn.

Definition readAllRaw (schema : SheetSchema) : Async (list obj) :=
  let! rows := getSheetValues ctx (readRange schema) UNFORMATTED_VALUE in
  resolve (parse_rows schema 0 rows).

Definition applyDefaults (schema : SheetSchema) (record : obj) : obj :=
  match fields schema with
  | None => record
  | Some fs =>
      foldl (λ result field,
               if strict_eq (prop result (fd_name field)) VUndefined
                  && negb (strict_eq (fd_defaultValue field) VUndefined)
               then <[fd_name field := fd_defaultValue field]> result
               else result)
            record fs
  end.

(** [if (schema.validate) schema.validate(entity)] *)
Definition run_validate (schema : SheetSchema) (entity : obj) : Async unit :=
  match validate schema with
  | Some check =>
      match check entity with
      | Some err => throw err
      | None => resolve tt
      end
  | None => resolve tt
  end.

Definition duplicate_issue (pk : string) (pkValue : value) : thrown :=
  validationError ("Duplicate primary key: " +:+ js_String pkValue)
    [mkIssue pk "Duplicate primary key" pkValue].

Definition create (schema : SheetSchema) (record : obj)
    (options : option WriteOptions) : Async obj :=
  do! assertWritable in
  withWriteLock (
    let entity := applyDefaults schema record in
    do! run_validate schema entity in
    do! match truthy (primaryKey schema) with
        | Some pk =>
            let! existing := readAllRaw schema in
            let pkValue := prop entity pk in
            match find (λ e, strict_eq (prop e pk) pkValue) existing with
            | Some _ => throw (duplicate_issue pk pkValue)
            | None => resolve tt
            end
        | None => resolve tt
        end in
    do! (if skips_fk options then resolve tt
         else validateForeignKeys entity schema (schemas config) ctx None) in
    let! rawRows := getSheetValues ctx (writeRange schema) FORMATTED_VALUE in
    do! (if bool_decide (length rawRows = 0%nat)
         then updateSheet ctx (writeRange schema) [header_row schema] false
         else resolve tt) in
    do! updateSheet ctx (writeRange schema) [toRow schema entity] true in
    resolve entity).

Definition findById (schema : SheetSchema) (id : value) : Async (option obj) :=
  match truthy (primaryKey schema) with
  | None => resolve None
  | Some pk =>
      let! records := readAllRaw schema in
      resolve (find (λ r, strict_eq (prop r pk) id) records)
  end.

Definition findMany (schema : SheetSchema) (predicate : option (obj → bool))
    (options : option FindOptions) : Async (list loaded) :=
  let! records := readAllRaw schema in
  let records := match predicate with
                 | Some f => filter (λ r, f r) records
                 | None => records
                 end in
  match options ≫= include with
  | Some includeMap => loadRelated records schema includeMap (schemas config) ctx
  | None => resolve (spread <$> records)
  end.

Definition not_found_issue (pk : string) (id : value) : thrown :=
  validationError ("Record not found: " +:+ js_String id)
    [mkIssue pk "Record not found" id].

Definition update (schema : SheetSchema) (id : value) (changes : obj)
    (options : option WriteOptions) : Async obj :=
  do! assertWritable in
  withWriteLock (
    let! records := readAllRaw schema in
    match truthy (primaryKey schema) with
    | None => throw (validationError "Cannot update without a primary key" [])
    | Some pk =>
        match findIndex (λ r, strict_eq (prop r pk) id) records with
        | None => throw (not_found_issue pk id)
        | Some index =>
            let merged := changes ∪ default ∅ (records !! index) in
            do! run_validate schema merged in
            do! (if skips_fk options then resolve tt
                 else validateForeignKeys merged schema (schemas config) ctx
                        (Some (dom changes))) in
            let records := <[index := merged]> records in
            let values := header_row schema :: (toRow schema <$> records) in
            do! Transport.clearRange ctx (clearRange schema) in
            do! updateSheet ctx (writeRange schema) values false in
            resolve merged
        end
    end).

Definition delete (schema : SheetSchema) (id : value) : Async unit :=
  do! assertWritable in
  withWriteLock (
    match truthy (primaryKey schema) with
    | None => resolve tt
    | Some pk =>
        let! records := readAllRaw schema in
        let filtered := filter (λ r, prop r pk ≠ id) records in
        let values := header_row schema :: (toRow schema <$> filtered) in
        do! Transport.clearRange ctx (clearRange schema) in
        updateSheet ctx (writeRange schema) values false
    end).

Definition readAll (schema : SheetSchema) (options : option FindOptions)
    : Async (list loaded) :=
  let! records := readAllRaw schema in
  match options ≫= include with
  | Some includeMap => loadRelated records schema includeMap (schemas config) ctx
  | None => resolve (spread <$> records)
  end.

End Client.
End Repository.

(** ** The migration runner ([src/migrations.ts]) *)

Module Migrations.

Definition MIGRATIONS_SHEET : string := "_genjutsu_migrations".

(** [`${MIGRATIONS_SHEET}!A2:C`] *)
Definition MIGRATIONS_RANGE : Range := mkRange MIGRATIONS_SHEET 2.

(** [`${MIGRATIONS_SHEET}!A1:C`], the range the ledger rows are appended to *)
Definition LEDGER_APPEND_RANGE : Range := mkRange MIGRATIONS_SHEET 1.

Record MigrationContext : Type := mkMigrationContext {
  createSheet : string → Async unit;
  addColumn : string → string → option nat → Async unit;
  removeColumn : string → nat → Async unit;
  renameColumn : string → nat → string → Async unit;
  renameSheet : string → string → Async unit;
}.

(** A call of one of the five operations of the context. *)
Inductive Operation : Type :=
  | CreateSheet (name : string)
  | AddColumn (sheet column : string) (afterIndex : option nat)
  | RemoveColumn (sheet : string) (columnIndex : nat)
  | RenameColumn (sheet : string) (columnIndex : nat) (newName : string)
  | RenameSheet (oldName newName : string).

(** The procedure [up] of a migration, as what it does with the context it
    is given: it returns, throws, or awaits an operation and goes on; with
    [Try] it goes on with [handler] when the operation fails. *)
Inductive Procedure : Type :=
  | Return
  | Raise (e : thrown)
  | Await (op : Operation) (next : Procedure)
  | Try (op : Operation) (next handler : Procedure).

Record Migration : Type := mkMigration {
  version : Z;
  name : string;
  up : Procedure;
}.

Definition perform (mCtx : MigrationContext) (op : Operation) : Async unit :=
  match op with
  | CreateSheet n => createSheet mCtx n
  | AddColumn s c i => addColumn mCtx s c i
  | RemoveColumn s i => removeColumn mCtx s i
  | RenameColumn s i n => renameColumn mCtx s i n
  | RenameSheet o n => renameSheet mCtx o n
  end.

(** [await m.up(mCtx)] *)
Fixpoint invoke (p : Procedure) (mCtx : MigrationContext) : Async unit :=
  match p with
  | Return => resolve tt
  | Raise e => throw e
  | Await op next => do! perform mCtx op in invoke next mCtx
  | Try op next handler =>
      λ w, match perform mCtx op w with
           | (Resolved _, w') => invoke next mCtx w'
           | (Rejected _, w') => invoke handler mCtx w'
           end
  end.

(** [new Date().toISOString()] *)
Definition toISOString_now : Async string := λ w, (Resolved (clock w), w).

(** The entry of the trace that marks the call of a procedure. *)
Definition mark (e : Event) : Async unit := λ w, (Resolved tt, record_event e w).

Definition resolveSheetId (sheetIdMap : gmap string Z) (sheetName : string) : Async Z :=
  match sheetIdMap !! sheetName with
  | None => throw (schemaError ("Sheet " +:+ dq +:+ sheetName +:+ dq
                                 +:+ " not found in spreadsheet"))
  | Some id => resolve id
  end.

Definition createMigrationContext (ctx : TransportContext) (sheetIdMap : gmap string Z)
    : MigrationContext :=
  {| createSheet name := structuralBatchUpdate ctx [AddSheet name];
     addColumn sheet column afterIndex :=
       let! sheetId := resolveSheetId sheetIdMap sheet in
       let colIndex := default 0%nat afterIndex in
       structuralBatchUpdate ctx
         [InsertDimension sheetId colIndex (colIndex + 1);
          UpdateCells sheetId 0 colIndex column];
     removeColumn sheet columnIndex :=
       let! sheetId := resolveSheetId sheetIdMap sheet in
       structuralBatchUpdate ctx [DeleteDimension sheetId columnIndex (columnIndex + 1)];
     renameColumn sheet columnIndex newName :=
       let! sheetId := resolveSheetId sheetIdMap sheet in
       structuralBatchUpdate ctx [UpdateCells sheetId 0 columnIndex newName];
     renameSheet oldName newName :=
       let! sheetId := resolveSheetId sheetIdMap oldName in
       structuralBatchUpdate ctx [UpdateSheetProperties sheetId newName] |}.

(** The first loop of [runMigrations]: the value thrown for the first
    version that was seen before. *)
Fixpoint duplicate_version (versions : gset Z) (migrations : list Migration)
    : option thrown :=
  match migrations with
  | [] => None
  | m :: rest =>
      if bool_decide (version m ∈ versions)
      then Some (schemaError ("Migrations have duplicate version number: "
                              +:+ pretty (version m)))
      else duplicate_version ({[version m]} ∪ versions) rest
  end.

(** [(a, b) => a.version - b.version] as an order *)
Definition by_version (a b : Migration) : Prop := (version a ≤ version b)%Z.

#[global] Instance by_version_dec : RelDecision by_version.
Proof. intros a b. unfold by_version. apply _. Defined.

(** [for (const s of sheets) sheetIdMap.set(s.title, s.sheetId)] *)
Definition set_sheet_ids (sheetIdMap : gmap string Z) (sheets : list SheetProperties)
    : gmap string Z :=
  foldl (λ m s, <[prop_title s := prop_sheetId s]> m) sheetIdMap sheets.

Definition appliedVersions (rows : list row) : gset Z :=
  foldl (λ applied r,
           match js_Number (default VUndefined (r !! 0%nat)) with
           | Some ver => {[ver]} ∪ applied
           | None => applied
           end)
        ∅ rows.

Definition failure_message (m : Migration) (err : thrown) : string :=
  "Migration " +:+ pretty (version m) +:+ " (" +:+ name m +:+ ") failed: "
  +:+ error_text err.

(** The loop over the pending migrations. *)
Fixpoint run_pending (ctx : TransportContext) (mCtx : MigrationContext)
    (pending : list Migration) : Async unit :=
  match pending with
  | [] => resolve tt
  | m :: rest =>
      do! mark (Invoked (version m)) in
      do! rethrow (invoke (up m) mCtx)
            (λ err, migrationError (failure_message m err) (version m) (name m) err) in
      let! timestamp := toISOString_now in
      do! updateSheet ctx LEDGER_APPEND_RANGE
            [[VNum (version m); VStr (name m); VStr timestamp]] true in
      run_pending ctx mCtx rest
  end.

(** The metadata map after the ledger tab has been ensured. *)
Definition ensure_ledger (ctx : TransportContext) : Async (gmap string Z) :=
  let! metadata := getSpreadsheetMetadata ctx in
  let sheetIdMap := set_sheet_ids ∅ metadata in
  if bool_decide (is_Some (sheetIdMap !! MIGRATIONS_SHEET))
  then resolve sheetIdMap
  else
    do! structuralBatchUpdate ctx [AddSheet MIGRATIONS_SHEET] in
    let! refreshed := getSpreadsheetMetadata ctx in
    resolve (set_sheet_ids sheetIdMap refreshed).

Definition pending_of (applied : gset Z) (sorted : list Migration) : list Migration :=
  filter (λ m, version m ∉ applied) sorted.

Definition runMigrations (ctx : TransportContext) (migrations : list Migration)
    : Async unit :=
  match duplicate_version ∅ migrations with
  | Some err => throw err
  | None =>
      let sorted := merge_sort by_version migrations in
      let! sheetIdMap := ensure_ledger ctx in
      let! rows := getSheetValues ctx MIGRATIONS_RANGE UNFORMATTED_VALUE in
      let pending := pending_of (appliedVersions rows) sorted in
      match pending with
      | [] => resolve tt
      | _ =>
          let mCtx := createMigrationContext ctx sheetIdMap in
          run_pending ctx mCtx pending
      end
  end.

End Migrations.

(** ** Fixtures

    The schema [defineModel] builds ([src/model.ts]) when every field is a
    required text column without default: [parseRow] skips a row whose
    first cell is empty or blank and reads every cell with [String], an
    empty cell as the empty string; [toRow] lists the properties in header
    order; [validate] reports the columns that are [null] or [undefined]. *)

Definition is_empty_cell (v : value) : bool :=
  nullish v || strict_eq v (VStr EmptyString).

Definition parse_text_cell (v : value) : value :=
  if is_empty_cell v then VStr EmptyString else VStr (js_String v).

Definition required_issue (r : obj) (column : string) : option ValidationIssue :=
  if nullish (prop r column)
  then Some (mkIssue column
               ("Required field " +:+ dq +:+ column +:+ dq +:+ " is missing or null")
               (prop r column))
  else None.

Definition textModel (sheet : string) (columns : list string) (pk : string)
    (rels : list RelationDefinition) : SheetSchema :=
  {| sheetName := sheet;
     headers := columns;
     readRange := mkRange sheet 2;
     writeRange := mkRange sheet 1;
     clearRange := mkRange sheet 2;
     parseRow r _ :=
       let firstCell := default VUndefined (r !! 0%nat) in
       if nullish firstCell || bool_decide (trim_start (js_String firstCell) = EmptyString)
       then None
       else Some (list_to_map
                    (imap (λ i column,
                             (column, parse_text_cell (default VUndefined (r !! i))))
                          columns));
     toRow entity := prop entity <$> columns;
     validate := Some (λ entity,
       match omap (required_issue entity) columns with
       | [] => None
       | issues =>
           Some (validationError
                   ("Validation failed: "
                    +:+ String.concat ", " (issue_message <$> issues))
                   issues)
       end);
     primaryKey := Some pk;
     fields := Some ((λ column, mkField column (bool_decide (column = pk)) false VUndefined)
                       <$> columns);
     relations := match rels with [] => None | _ => Some rels end |}.

(** [Orders{id PK, customer}] and [Items{id PK, orderId -> Orders.id, name}] *)
Definition Orders : SheetSchema := textModel "Orders" ["id"; "customer"] "id" [].

Definition Items : SheetSchema :=
  textModel "Items" ["id"; "orderId"; "name"] "id" [mkRelation "orderId" "orders" "id"].

Definition shop : ClientConfig :=
  mkConfig "sheet-1" (Some "token") None [("orders", Orders); ("items", Items)].

(** The same client with a read-only key instead of a token. *)
Definition shop_readonly : ClientConfig :=
  mkConfig "sheet-1" None (Some "key") [("orders", Orders); ("items", Items)].

Definition blank (ts : list Tab) : Spreadsheet := mkSpreadsheet ts "2026-01-01T00:00:00.000Z" [].

Definition order (id customer : string) : obj :=
  {[ "id" := VStr id; "customer" := VStr customer ]}.

Definition item (id orderId name : string) : obj :=
  {[ "id" := VStr id; "orderId" := VStr orderId; "name" := VStr name ]}.

Definition shop_tabs : list Tab :=
  [ mkTab 0 "Orders" [[VStr "id"; VStr "customer"];
                      [VStr "o1"; VStr "Alice"];
                      [VStr "o2"; VStr "Bob"]];
    mkTab 1 "Items" [[VStr "id"; VStr "orderId"; VStr "name"];
                     [VStr "i1"; VStr "o1"; VStr "Widget"];
                     [VStr "i2"; VStr "o1"; VStr "Gadget"]] ].

(** A raw schema without a primary key: a log of lines. *)
Definition Log : SheetSchema :=
  {| sheetName := "Log";
     headers := ["line"];
     readRange := mkRange "Log" 2;
     writeRange := mkRange "Log" 1;
     clearRange := mkRange "Log" 2;
     parseRow r _ := (λ c, {[ "line" := c ]}) <$> r !! 0%nat;
     toRow entity := [prop entity "line"];
     validate := None;
     primaryKey := None;
     fields := None;
     relations := None |}.

Definition journal : ClientConfig :=
  mkConfig "sheet-2" (Some "token") None [("log", Log)].

(** The records of a table, as [readAllRaw] reads them. *)
Definition table_records (schema : SheetSchema) (w : Spreadsheet) : list obj :=
  parse_rows schema 0 (read_range (tabs w) (readRange schema)).

(** The ranges [defineModel] derives: the data is read and cleared from
    row 2 of the tab of the schema, and written from row 1, the header. *)
Definition standard_ranges (schema : SheetSchema) : Prop :=
  readRange schema = mkRange (sheetName schema) 2
  ∧ writeRange schema = mkRange (sheetName schema) 1
  ∧ clearRange schema = mkRange (sheetName schema) 2.

(** The record is parsed back from the row it is written as, at any row
    index. *)
Definition parses_back (schema : SheetSchema) (r : obj) : Prop :=
  ∀ j, parseRow schema (toRow schema r) j = Some r.

(** What [delete] writes back: the header and the records that are left. *)
Definition kept (schema : SheetSchema) (pk : string) (id : value) (w : Spreadsheet)
    : list obj :=
  filter (λ r, prop r pk ≠ id) (table_records schema w).

(** ** The foreign-key check, in the words of the specification *)

(** The relation is not checked: on update its source column is not among
    the changed fields, or the record holds no value under it. *)
Definition fk_skipped (changedFields : option (gset string)) (record : obj)
    (relation : RelationDefinition) : bool :=
  from_option (λ cf, bool_decide (sourceField relation ∉ cf)) false changedFields
  || nullish (prop record (sourceField relation)).

(** The target schema of the relation and the index, among its headers, of
    the resolved target column: the primary key of the target, else the
    target field of the relation. *)
Definition fk_target (allSchemas : Schemas) (relation : RelationDefinition)
    : option (SheetSchema * nat) :=
  target ← schema_at allSchemas (targetModel relation);
  pkIndex ← indexOf (headers target) (default (targetField relation) (primaryKey target));
  Some (target, pkIndex).

(** The relation is checked and no row of the target table holds, in the
    resolved target column, a value string-equal to the source value. *)
Definition fk_violated (allSchemas : Schemas) (ts : list Tab)
    (changedFields : option (gset string)) (record : obj)
    (relation : RelationDefinition) : bool :=
  negb (fk_skipped changedFields record relation)
  && match fk_target allSchemas relation with
     | Some (target, pkIndex) =>
         negb (existsb (references_row pkIndex (prop record (sourceField relation)))
                 (read_range ts (readRange target)))
     | None => false
     end.

(** The first relation of the schema, in declaration order, that is
    violated. *)
Definition fk_first_violation (allSchemas : Schemas) (ts : list Tab)
    (changedFields : option (gset string)) (record : obj) (schema : SheetSchema)
    : option RelationDefinition :=
  find (fk_violated allSchemas ts changedFields record) (default [] (relations schema)).

Definition fk_error (relation : RelationDefinition) (record : obj) : thrown :=
  validationError (fk_message relation (prop record (sourceField relation)))
    [fk_issue relation (prop record (sourceField relation))].

Definition is_read (e : Event) : bool :=
  match e with
  | Net (GetValues _ _) | Net (BatchGet _ _) | Net GetMetadata => true
  | _ => false
  end.

(** The schema without its relations. *)
Definition without_relations (schema : SheetSchema) : SheetSchema :=
  mkSchema (sheetName schema) (headers schema) (readRange schema) (writeRange schema)
    (clearRange schema) (parseRow schema) (toRow schema) (validate schema)
    (primaryKey schema) (fields schema) None.

(** A raw schema whose headers are the labels of the columns, not the
    names of the properties: the primary key [id] is under [Customer ID]. *)
Definition Customers : SheetSchema :=
  {| sheetName := "Customers";
     headers := ["Customer ID"; "Name"];
     readRange := mkRange "Customers" 2;
     writeRange := mkRange "Customers" 1;
     clearRange := mkRange "Customers" 2;
     parseRow r _ :=
       match r !! 0%nat with
       | Some c => if is_empty_cell c then None
                   else Some {[ "id" := VStr (js_String c);
                                "name" := VStr (js_String (default (VStr EmptyString)
                                                             (r !! 1%nat))) ]}
       | None => None
       end;
     toRow entity := [prop entity "id"; prop entity "name"];
     validate := None;
     primaryKey := Some "id";
     fields := None;
     relations := None |}.

Definition Invoices : SheetSchema :=
  textModel "Invoices" ["id"; "customerId"] "id" [mkRelation "customerId" "customers" "id"].

Definition billing : ClientConfig :=
  mkConfig "sheet-3" (Some "token") None [("customers", Customers); ("invoices", Invoices)].

Definition billing_tabs : list Tab :=
  [ mkTab 0 "Customers" [[VStr "Customer ID"; VStr "Name"]; [VStr "c1"; VStr "Alice"]];
    mkTab 1 "Invoices" [[VStr "id"; VStr "customerId"]] ].

Definition invoice (id customerId : string) : obj :=
  {[ "id" := VStr id; "customerId" := VStr customerId ]}.

(** ** Eager loading, in the words of the specification *)

(** The records of the related table whose relation-source column is
    string-equal to the primary-key value of the parent, in the order of
    the table; none when the related schema declares no relation back. *)
Definition related_children (schema : SheetSchema) (allSchemas : Schemas)
    (w : Spreadsheet) (relatedSchema : SheetSchema) (parentPk : value) : list obj :=
  match findRelationToModel relatedSchema allSchemas schema with
  | Some relation =>
      filter (λ child, js_String (prop child (sourceField relation)) = js_String parentPk)
        (table_records relatedSchema w)
  | None => []
  end.

(** ** What a migration run leaves in the trace and in the ledger *)

(** The versions of the procedures that were called, in order. *)
Definition invoked_versions (t : list Event) : list Z :=
  omap (λ e, match e with Invoked v => Some v | _ => None end) t.

(** The version of the ledger row an event appends, if it appends one. *)
Definition ledger_append (e : Event) : option Z :=
  match e with
  | Net (UpdateValues r [VNum v :: _] true) =>
      if bool_decide (r = Migrations.LEDGER_APPEND_RANGE) then Some v else None
  | _ => None
  end.

(** The versions of the ledger rows that were appended, in order. *)
Definition recorded_versions (t : list Event) : list Z := omap ledger_append t.

Definition is_structural (e : Event) : bool :=
  match e with
  | Net (StructuralBatch _) => true
  | _ => false
  end.

(** The protocol of the loop over the pending migrations, read off a
    trace: a procedure is called only when none is running, it issues
    structural requests only, and its ledger row is appended while it is
    the one running, which ends it.  The state is the version of the
    procedure that is running; [None] is the answer for a trace that
    breaks the protocol. *)
Fixpoint ledger_protocol (running : option Z) (t : list Event) : option (option Z) :=
  match t with
  | [] => Some running
  | e :: t' =>
      match e, running with
      | Invoked v, None => ledger_protocol (Some v) t'
      | Net (StructuralBatch _), Some v => ledger_protocol (Some v) t'
      | Net (UpdateValues _ _ _), Some v =>
          if bool_decide (ledger_append e = Some v) then ledger_protocol None t' else None
      | _, _ => None
      end
  end.

(** The rows of the ledger tab, and the applied versions a run reads. *)
Definition ledger_rows (ts : list Tab) : list row :=
  tab_rows Migrations.MIGRATIONS_SHEET ts.

Definition applied_in (ts : list Tab) : gset Z :=
  Migrations.appliedVersions (read_range ts Migrations.MIGRATIONS_RANGE).

(** The operation does not name the ledger tab. *)
Definition operation_avoids_ledger (op : Migrations.Operation) : bool :=
  match op with
  | Migrations.CreateSheet n => bool_decide (n ≠ Migrations.MIGRATIONS_SHEET)
  | Migrations.AddColumn s _ _ => bool_decide (s ≠ Migrations.MIGRATIONS_SHEET)
  | Migrations.RemoveColumn s _ => bool_decide (s ≠ Migrations.MIGRATIONS_SHEET)
  | Migrations.RenameColumn s _ _ => bool_decide (s ≠ Migrations.MIGRATIONS_SHEET)
  | Migrations.RenameSheet o n =>
      bool_decide (o ≠ Migrations.MIGRATIONS_SHEET)
      && bool_decide (n ≠ Migrations.MIGRATIONS_SHEET)
  end.

Fixpoint avoids_ledger (p : Migrations.Procedure) : bool :=
  match p with
  | Migrations.Return | Migrations.Raise _ => true
  | Migrations.Await op next => operation_avoids_ledger op && avoids_ledger next
  | Migrations.Try op next handler =>
      operation_avoids_ledger op && avoids_ledger next && avoids_ledger handler
  end.

(** The migrations of the README, given out of order, and a spreadsheet
    with the one tab they change. *)
Definition add_status_column : Migrations.Migration :=
  Migrations.mkMigration 1 "add-status-column"
    (Migrations.Await (Migrations.AddColumn "Tasks" "status" (Some 3%nat)) Migrations.Return).

Definition create_tags_sheet : Migrations.Migration :=
  Migrations.mkMigration 2 "create-tags-sheet"
    (Migrations.Await (Migrations.CreateSheet "Tags") Migrations.Return).

Definition readme_migrations : list Migrations.Migration :=
  [create_tags_sheet; add_status_column].

Definition tasks_only : Spreadsheet :=
  blank [mkTab 0 "Tasks" [[VStr "id"; VStr "title"; VStr "done"]]].

(** A migration that creates a tab and then adds a column to it. *)
Definition create_then_extend : Migrations.Migration :=
  Migrations.mkMigration 3 "tags-with-label"
    (Migrations.Await (Migrations.CreateSheet "Tags")
       (Migrations.Await (Migrations.AddColumn "Tags" "label" None) Migrations.Return)).

(** A migration whose procedure throws. *)
Definition broken : Migrations.Migration :=
  Migrations.mkMigration 2 "broken" (Migrations.Raise (PlainError "boom")).

Definition writer : TransportContext := mkCtx (Some "token") None "sheet-4".

(** The ledger row of a migration. *)
Definition ledger_row (m : Migrations.Migration) (timestamp : string) : row :=
  [VNum (Migrations.version m); VStr (Migrations.name m); VStr timestamp].

(** The tab [addSheet] creates for the ledger. *)
Definition new_ledger_tab (ts : list Tab) : Tab :=
  mkTab (fresh_id ts) Migrations.MIGRATIONS_SHEET [].

(** The tabs once the ledger is ensured. *)
Definition ensured_tabs (ts : list Tab) : list Tab :=
  if bool_decide (is_Some (find (titled Migrations.MIGRATIONS_SHEET) ts))
  then ts else ts ++ [new_ledger_tab ts].

(** The tabs that have the name of the ledger. *)
Definition ledger_tabs (ts : list Tab) : list Tab :=
  filter (λ tab, tab_title tab = Migrations.MIGRATIONS_SHEET) ts.

(** No name other than the one of the ledger resolves to the id of a tab
    that has the name of the ledger. *)
Definition ledger_untouchable (sheetIdMap : gmap string Z) (ts : list Tab) : Prop :=
  ∀ sheet id, sheetIdMap !! sheet = Some id → sheet ≠ Migrations.MIGRATIONS_SHEET →
              id ∉ tab_id <$> ledger_tabs ts.

(** What keeps the procedures of a run away from the ledger: the ledger
    tab exists, no other name resolves to it, and no procedure names it. *)
Definition ledger_safe (sheetIdMap : gmap string Z) (pending : list Migrations.Migration)
    (ts : list Tab) : Prop :=
  ledger_untouchable sheetIdMap ts
  ∧ ledger_tabs ts ≠ []
  ∧ Forall (λ m, avoids_ledger (Migrations.up m) = true) pending.

(** The first ledger tab has got these rows below the ones it had, and
    the ledger tabs are otherwise the same. *)
Definition ledger_grows (ts ts' : list Tab) (rows : list row) : Prop :=
  ∃ tab rest,
    ledger_tabs ts = tab :: rest
    ∧ ledger_tabs ts' = mkTab (tab_id tab) (tab_title tab) (tab_cells tab ++ rows) :: rest.

(** ** The client factory and the rest of the repository ([src/client.ts]) *)

Definition RESERVED_SHEET_NAMES : list string := ["_genjutsu_migrations"].

Module Client.

(** The body of the loop of [createClient] for one entry of [schemas];
    [sheetNames] holds the sheet names of the entries before it. *)
Definition check_schema (schemas : Schemas) (sheetNames : gset string)
    (key : string) (schema : SheetSchema) : option thrown :=
  if bool_decide (sheetName schema = EmptyString)
  then Some (schemaError ("Schema " +:+ dq +:+ key +:+ dq +:+ " has empty sheetName"))
  else if bool_decide (headers schema = [])
  then Some (schemaError ("Schema " +:+ dq +:+ key +:+ dq +:+ " has empty headers"))
  else if bool_decide (sheetName schema ∈ sheetNames)
  then Some (schemaError ("Duplicate sheetName " +:+ dq +:+ sheetName schema +:+ dq
                          +:+ " in schemas"))
  else if bool_decide (sheetName schema ∈ RESERVED_SHEET_NAMES)
  then Some (schemaError ("Schema " +:+ dq +:+ key +:+ dq +:+ " uses reserved sheet name "
                          +:+ dq +:+ sheetName schema +:+ dq))
  else
    match relations schema with
    | Some rels =>
        match find (λ rel, bool_decide (schema_at schemas (targetModel rel) = None)) rels with
        | Some rel =>
            Some (schemaError ("Schema " +:+ dq +:+ key +:+ dq +:+ " references model "
                               +:+ dq +:+ targetModel rel +:+ dq
                               +:+ " which is not registered"))
        | None => None
        end
    | None => None
    end.

(** [for (const [key, schema] of Object.entries(schemas))] *)
Fixpoint check_schemas (schemas : Schemas) (sheetNames : gset string) (entries : Schemas)
    : option thrown :=
  match entries with
  | [] => None
  | (key, schema) :: rest =>
      match check_schema schemas sheetNames key schema with
      | Some err => Some err
      | None => check_schemas schemas ({[sheetName schema]} ∪ sheetNames) rest
      end
  end.

(** The checks [createClient] makes before it builds the client: the
    value it throws, or the configuration the client is built over. *)
Definition createClient (config : ClientConfig) : thrown + ClientConfig :=
  if bool_decide (spreadsheetId config = EmptyString)
  then inl (schemaError "spreadsheetId must be non-empty")
  else
    match truthy (auth config), truthy (apiKey config) with
    | None, None => inl (schemaError "Either auth or apiKey must be provided")
    | _, _ =>
        match schemas config with
        | [] => inl (schemaError "At least one schema must be registered")
        | _ :: _ =>
            match check_schemas (schemas config) ∅ (schemas config) with
            | Some err => inl err
            | None => inr config
            end
        end
    end.

Section Repository.

Variable config : ClientConfig.

(** [for (const r of records) schema.validate(r)] *)
Fixpoint validate_all (check : obj → option thrown) (records : list obj) : Async unit :=
  match records with
  | [] => resolve tt
  | r :: rest =>
      match check r with
      | Some err => throw err
      | None => validate_all check rest
      end
  end.

(** [if (schema.validate) { for (const r of records) schema.validate(r); }] *)
Definition run_validate_all (schema : SheetSchema) (records : list obj) : Async unit :=
  match validate schema with
  | Some check => validate_all check records
  | None => resolve tt
  end.

Definition writeAll (schema : SheetSchema) (records : list obj) : Async unit :=
  do! Repository.assertWritable config in
  Repository.withWriteLock (
    do! run_validate_all schema records in
    let values := header_row schema :: (toRow schema <$> records) in
    do! Transport.clearRange (Repository.ctx config) (clearRange schema) in
    if bool_decide (0 < length values)%nat
    then updateSheet (Repository.ctx config) (writeRange schema) values false
    else resolve tt).

(** [appendSupported] is the optional property of that name of the
    schema. *)
Definition append (schema : SheetSchema) (appendSupported : option bool)
    (records : list obj) : Async unit :=
  do! Repository.assertWritable config in
  if bool_decide (appendSupported = Some false)
  then throw (schemaError ("Append not supported for " +:+ dq +:+ sheetName schema +:+ dq))
  else
    Repository.withWriteLock (
      do! run_validate_all schema records in
      let! rawRows := getSheetValues (Repository.ctx config) (writeRange schema)
                        FORMATTED_VALUE in
      do! (if bool_decide (length rawRows = 0%nat)
           then updateSheet (Repository.ctx config) (writeRange schema)
                  [header_row schema] false
           else resolve tt) in
      updateSheet (Repository.ctx config) (writeRange schema) (toRow schema <$> records) true).

Definition ensureSchema : Async unit :=
  let! metadata := getSpreadsheetMetadata (Repository.ctx config) in
  let titles : gset string := list_to_set (prop_title <$> metadata) in
  let toAdd := filter (λ t, t ∉ titles) ((sheetName ∘ snd) <$> schemas config) in
  match toAdd with
  | [] => resolve tt
  | _ => structuralBatchUpdate (Repository.ctx config) (AddSheet <$> toAdd)
  end.

Definition migrate (migrations : list Migrations.Migration) : Async unit :=
  do! Repository.assertWritable config in
  Migrations.runMigrations (Repository.ctx config) migrations.

(** [raw.readRange], [raw.writeRange] and [raw.clearRange] *)
Definition raw_readRange (range : Range) (valueRenderOption : option RenderOption)
    : Async (list row) :=
  getSheetValues (Repository.ctx config) range (default FORMATTED_VALUE valueRenderOption).

Definition raw_writeRange (range : Range) (values : list row) : Async unit :=
  do! Repository.assertWritable config in
  Repository.withWriteLock (updateSheet (Repository.ctx config) range values false).

Definition raw_clearRange (range : Range) : Async unit :=
  do! Repository.assertWritable config in
  Repository.withWriteLock (Transport.clearRange (Repository.ctx config) range).

End Repository.

End Client.

(** The permission error of a client without token. *)
Definition read_only_error : thrown :=
  permissionError
    "Write operations require auth. This client was created with apiKey only (read-only).".

(** The sheet names of the registered schemas, in order. *)
Definition sheet_names (allSchemas : Schemas) : list string :=
  (sheetName ∘ snd) <$> allSchemas.

(** What [createClient] asks of a configuration. *)
Definition well_formed (config : ClientConfig) : Prop :=
  spreadsheetId config ≠ EmptyString
  ∧ (is_Some (truthy (auth config)) ∨ is_Some (truthy (apiKey config)))
  ∧ schemas config ≠ []
  ∧ NoDup (sheet_names (schemas config))
  ∧ ∀ key schema, (key, schema) ∈ schemas config →
      sheetName schema ≠ EmptyString
      ∧ headers schema ≠ []
      ∧ sheetName schema ≠ Migrations.MIGRATIONS_SHEET
      ∧ ∀ rel, rel ∈ default [] (relations schema) →
               is_Some (schema_at (schemas config) (targetModel rel)).

(** A computation that leaves every tab as it was, however it ends. *)
Definition keeps_tabs {A} (m : Async A) : Prop :=
  ∀ w, tabs (snd (m w)) = tabs w.

(** A computation that has changed no tab when it rejects. *)
Definition rejects_cleanly {A} (m : Async A) : Prop :=
  ∀ w err, fst (m w) = Rejected err → tabs (snd (m w)) = tabs w.

(** A computation that only reads: it leaves the tabs and the clock as
    they were and adds read calls to the trace. *)
Definition only_reads {A} (m : Async A) : Prop :=
  ∀ w, ∃ reads,
    snd (m w) = mkSpreadsheet (tabs w) (clock w) (trace w ++ reads)
    ∧ forallb is_read reads = true.

(** The default of a property: the one of the first field definition of
    that name that has one; [undefined] when there is none. *)
Definition default_of (fs : list FieldDefinition) (k : string) : value :=
  from_option fd_defaultValue VUndefined
    (find (λ f, bool_decide (fd_name f = k)
                && negb (strict_eq (fd_defaultValue f) VUndefined)) fs).

(** ** Models ([src/model.ts]) *)

(** [s.trim()]: the white space at both ends is removed. *)
Fixpoint trim_end (s : string) : string :=
  match s with
  | EmptyString => EmptyString
  | String c s' =>
      match trim_end s' with
      | EmptyString => if is_space c then EmptyString else String c EmptyString
      | t => String c t
      end
  end.

Definition trim (s : string) : string := trim_end (trim_start s).

Module Model.

(** The types of a field.  Number fields are left out: [Number] of a
    cell can be [NaN] or a fraction, which the scalars above do not
    have. *)
Inductive FieldType : Type := TString | TDate | TBoolean.

(** [FieldDef]; [_defaultValue] is [undefined] for a field without
    default, and [_references] is the model and the field. *)
Record FieldDef : Type := createFieldDef {
  _type : FieldType;
  _isPrimaryKey : bool;
  _isOptional : bool;
  _defaultValue : value;
  _references : option (string * string);
}.

(** [field.string()], [field.date()], [field.boolean()] *)
Definition field_string : FieldDef := createFieldDef TString false false VUndefined None.
Definition field_date : FieldDef := createFieldDef TDate false false VUndefined None.
Definition field_boolean : FieldDef := createFieldDef TBoolean false false VUndefined None.

(** [.primaryKey()], [.optional()], [.default(value)],
    [.references(model, field)] *)
Definition with_primaryKey (f : FieldDef) : FieldDef :=
  createFieldDef (_type f) true (_isOptional f) (_defaultValue f) (_references f).

Definition with_optional (f : FieldDef) : FieldDef :=
  createFieldDef (_type f) (_isPrimaryKey f) true (_defaultValue f) (_references f).

Definition with_default (v : value) (f : FieldDef) : FieldDef :=
  createFieldDef (_type f) (_isPrimaryKey f) (_isOptional f) v (_references f).

Definition with_references (model field : string) (f : FieldDef) : FieldDef :=
  createFieldDef (_type f) (_isPrimaryKey f) (_isOptional f) (_defaultValue f)
    (Some (model, field)).

Definition parseCell (v : value) (f : FieldDef) : value :=
  let isEmpty := strict_eq v VUndefined || strict_eq v VNull
                 || strict_eq v (VStr EmptyString) in
  if isEmpty && negb (strict_eq (_defaultValue f) VUndefined)
  then _defaultValue f
  else
    match _type f with
    | TString | TDate =>
        if isEmpty then (if _isOptional f then VNull else VStr EmptyString)
        else VStr (js_String v)
    | TBoolean =>
        if strict_eq v (VBool true) || strict_eq v (VStr "TRUE")
           || strict_eq v (VStr "true")
        then VBool true else VBool false
    end.

(** The loop of [parseRow] over the entries, from the entry of index [i]
    on. *)
Fixpoint parse_cells (entries : list (string * FieldDef)) (i : nat) (r : row)
    (entity : obj) : obj :=
  match entries with
  | [] => entity
  | (name, f) :: rest =>
      parse_cells rest (S i) r
        (<[name := parseCell (default VUndefined (r !! i)) f]> entity)
  end.

Definition model_parseRow (entries : list (string * FieldDef)) (r : row)
    (_rowIndex : nat) : option obj :=
  let firstCell := default VUndefined (r !! 0%nat) in
  if strict_eq firstCell VUndefined || strict_eq firstCell VNull
     || bool_decide (trim (js_String firstCell) = EmptyString)
  then None
  else Some (parse_cells entries 0 r ∅).

Definition model_toRow (headers : list string) (entity : obj) : row :=
  (λ h, prop entity h) <$> headers.

(** The issue [validate] pushes for an entry, if it pushes one. *)
Definition missing_issue (entity : obj) (entry : string * FieldDef)
    : option ValidationIssue :=
  let value := prop entity (fst entry) in
  if negb (_isOptional (snd entry)) && (strict_eq value VNull || strict_eq value VUndefined)
  then Some (mkIssue (fst entry)
               ("Required field " +:+ dq +:+ fst entry +:+ dq +:+ " is missing or null")
               value)
  else None.

Definition model_validate (entries : list (string * FieldDef)) (entity : obj)
    : option thrown :=
  let issues := omap (missing_issue entity) entries in
  if bool_decide (0 < length issues)%nat
  then Some (validationError
               ("Validation failed: " +:+ String.concat ", " (issue_message <$> issues))
               issues)
  else None.

(** The schema [defineModel] builds for the entries and the name of the
    primary key. *)
Definition schema_of (sheet : string) (entries : list (string * FieldDef))
    (primaryKeyName : string) : SheetSchema :=
  let headers := fst <$> entries in
  let fieldDefs :=
    (λ e, mkField (fst e) (_isPrimaryKey (snd e)) (_isOptional (snd e))
            (_defaultValue (snd e))) <$> entries in
  let relations :=
    omap (λ e, (λ ref, mkRelation (fst e) (fst ref) (snd ref)) <$> _references (snd e))
      entries in
  mkSchema sheet headers (mkRange sheet 2) (mkRange sheet 1) (mkRange sheet 2)
    (model_parseRow entries) (model_toRow headers)
    (Some (model_validate entries)) (Some primaryKeyName) (Some fieldDefs)
    (if bool_decide (0 < length relations)%nat then Some relations else None).

(** [defineModel(sheetName, fields)], [fields] given by its entries: the
    value it throws, or the schema. *)
Definition defineModel (sheet : string) (fields : list (string * FieldDef))
    : thrown + SheetSchema :=
  let entries := fields in
  if bool_decide (length entries = 0%nat)
  then inl (schemaError "defineModel requires at least one field")
  else
    let primaryKeys := filter (λ e, _isPrimaryKey (snd e) = true) entries in
    match primaryKeys with
    | [] => inl (schemaError "defineModel requires exactly one field marked as primaryKey")
    | [primaryKey0] => inr (schema_of sheet entries (fst primaryKey0))
    | _ =>
        inl (schemaError
               ("defineModel requires exactly one primaryKey, found "
                +:+ pretty (length primaryKeys) +:+ ": "
                +:+ String.concat ", " (fst <$> primaryKeys)))
    end.

End Model.

(** The default of the field has the type of the field: none ([undefined]),
    [null], a string for a string or date field, a boolean for a boolean
    field. *)
Definition typed_default (f : Model.FieldDef) : bool :=
  match Model._defaultValue f, Model._type f with
  | VUndefined, _ | VNull, _ => true
  | VStr _, (Model.TString | Model.TDate) => true
  | VBool _, Model.TBoolean => true
  | _, _ => false
  end.

(** The fields of a model as the keys of an object: the names are
    distinct. *)
Definition model_fields (fields : list (string * Model.FieldDef)) : Prop :=
  NoDup (fst <$> fields).

(** The fields that are marked as the primary key. *)
Definition marked_primary (fields : list (string * Model.FieldDef))
    : list (string * Model.FieldDef) :=
  filter (λ e, Model._isPrimaryKey (snd e) = true) fields.

(** A required field has a default that is not [null]. *)
Definition required_default (f : Model.FieldDef) : bool :=
  Model._isOptional f || negb (strict_eq (Model._defaultValue f) VNull).

(** A blog: users, and posts that name their author. *)
Definition users_fields : list (string * Model.FieldDef) :=
  [ ("id", Model.with_primaryKey Model.field_string);
    ("email", Model.field_string);
    ("nickname", Model.with_optional Model.field_string);
    ("active", Model.with_default (VBool true) Model.field_boolean) ].

Definition posts_fields : list (string * Model.FieldDef) :=
  [ ("id", Model.with_primaryKey Model.field_string);
    ("authorId", Model.with_references "users" "email" Model.field_string);
    ("title", Model.with_default (VStr "untitled") Model.field_string) ].

Definition Users : SheetSchema := Model.schema_of "Users" users_fields "id".
Definition Posts : SheetSchema := Model.schema_of "Posts" posts_fields "id".

Definition blog : ClientConfig :=
  mkConfig "sheet-5" (Some "token") None [("users", Users); ("posts", Posts)].

Definition blog_tabs : list Tab :=
  [ mkTab 0 "Users" [[VStr "id"; VStr "email"; VStr "nickname"; VStr "active"];
                     [VStr "u1"; VStr "ann@example.org"; VNull; VBool true];
                     [VNum 2; VStr "bob@example.org"; VStr "bobby"]];
    mkTab 1 "Posts" [[VStr "id"; VStr "authorId"; VStr "title"]] ].

(** ** Spreadsheet ids ([src/transport.ts]) *)

(** The class [[a-zA-Z0-9-_]] *)
Definition is_id_char (c : Ascii.ascii) : bool :=
  let n := Ascii.nat_of_ascii c in
  (bool_decide (97 ≤ n)%nat && bool_decide (n ≤ 122)%nat)
  || (bool_decide (65 ≤ n)%nat && bool_decide (n ≤ 90)%nat)
  || (bool_decide (48 ≤ n)%nat && bool_decide (n ≤ 57)%nat)
  || bool_decide (n = 45%nat) || bool_decide (n = 95%nat).

(** The longest prefix made of characters of the class. *)
Fixpoint take_id (s : string) : string :=
  match s with
  | String c s' => if is_id_char c then String c (take_id s') else EmptyString
  | EmptyString => EmptyString
  end.

(** [urlOrId.match(/\/d\/([a-zA-Z0-9-_]+)/)]: the group of the first
    match, from the left. *)
Fixpoint match_id (s : string) : option string :=
  match s with
  | EmptyString => None
  | String c s' =>
      match s with
      | String "/" (String "d" (String "/" rest)) =>
          match take_id rest with
          | EmptyString => match_id s'
          | id => Some id
          end
      | _ => match_id s'
      end
  end.

(** [urlOrId.includes("/")] *)
Fixpoint includes_slash (s : string) : bool :=
  match s with
  | EmptyString => false
  | String c s' => bool_decide (c = "/"%char) || includes_slash s'
  end.

Definition extractSpreadsheetId (urlOrId : string) : option string :=
  match match_id urlOrId with
  | Some id => Some id
  | None => if negb (includes_slash urlOrId) then Some urlOrId else None
  end.

(** Every character of the string is of the class. *)
Fixpoint id_chars (s : string) : bool :=
  match s with
  | EmptyString => true
  | String c s' => is_id_char c && id_chars s'
  end.

(** The string does not go on with a character of the class. *)
Definition ends_id (s : string) : bool :=
  match s with
  | EmptyString => true
  | String c _ => negb (is_id_char c)
  end.

(** ** Requests and their failures ([src/transport.ts]) *)

(** [parseInt(s, 10)], [None] standing for [NaN]: white space, an
    optional sign, and the decimal digits that follow; what comes after
    the digits is ignored. *)
Fixpoint leading_digits (acc : option Z) (s : string) : option Z :=
  match s with
  | EmptyString => acc
  | String c s' =>
      match digit_of c with
      | Some d => leading_digits (Some (10 * default 0 acc + d)) s'
      | None => acc
      end
  end.

Definition parseInt10 (s : string) : option Z :=
  match trim_start s with
  | String "-"%char s' => Z.opp <$> leading_digits None s'
  | String "+"%char s' => leading_digits None s'
  | s' => leading_digits None s'
  end.

Module Http.

(** What the code reads of a [Response]: the status, the text that
    reading the body resolves with, and the [Retry-After] header. *)
Record Response : Type := mkResponse {
  status : Z;
  body : string;
  retryAfter : option string;
}.

(** [res.ok] *)
Definition ok (res : Response) : bool :=
  bool_decide (200 ≤ status res)%Z && bool_decide (status res ≤ 299)%Z.

(** [auth]: a token, or a function; [calls n] is what the call number
    [n] of the function resolves with, or the value it rejects with. *)
Inductive Auth : Type :=
  | Token (token : string)
  | Provider (calls : nat → string + thrown).

Record Context : Type := mkContext {
  auth : option Auth;
  apiKey : option string;
  spreadsheetId : string;
}.

(** A request: the address, the [Authorization] header, and the rest of
    [init] (method, other headers, body). *)
Record Request : Type := mkRequest {
  url : string;
  authorization : option string;
  init : string;
}.

(** What [fetchWithErrorHandling] throws: a [GenjutsuError] made from a
    response, the network error made from what [fetch] threw, or what
    the function [auth] rejected with. *)
Inductive Failure : Type :=
  | HttpFailure (kind : GenjutsuErrorKind) (message : string)
      (retryAfterMs : option Z) (cause : Response)
  | NetworkFailure (message : string) (cause : thrown)
  | AuthFailure (e : thrown).

Definition parseRetryAfterMs (res : Response) : option Z :=
  match retryAfter res with
  | None => None
  | Some header =>
      if bool_decide (header = EmptyString) then None
      else (λ seconds, seconds * 1000) <$> parseInt10 header
  end.

Definition wrapHttpError (status : Z) (body : string) (cause : Response) : Failure :=
  if bool_decide (status = 401)
  then HttpFailure AUTH_ERROR
         ("Authentication failed: " +:+ pretty status +:+ " " +:+ body) None cause
  else if bool_decide (status = 403)
  then HttpFailure PERMISSION_ERROR
         ("Permission denied: " +:+ pretty status +:+ " " +:+ body) None cause
  else if bool_decide (status = 429)
  then HttpFailure RATE_LIMIT
         ("Rate limited: " +:+ pretty status +:+ " " +:+ body) None cause
  else HttpFailure API_ERROR
         ("Sheets API error: " +:+ pretty status +:+ " " +:+ body) None cause.

(** [if (!res.ok) { ... } return res], the same for the response and
    for the response to the retry. *)
Definition answer (res : Response) : Failure + Response :=
  if ok res then inr res
  else if bool_decide (status res = 429)
  then inl (HttpFailure RATE_LIMIT
              ("Rate limited: " +:+ pretty (status res) +:+ " " +:+ body res)
              (parseRetryAfterMs res) res)
  else inl (wrapHttpError (status res) (body res) res).

(** The result of [fetchWithErrorHandling], the requests it sent, in
    order, and the number of calls of the function [auth] so far.
    [fetch n] answers the request number [n] of this call with a response
    or throws; [k] is the number of calls of the function [auth] before
    this call. *)
Definition fetchWithErrorHandling (fetch : nat → Request → Response + thrown)
    (request : Request) (ctx : Context) (retryOn401 : bool) (k : nat)
    : (Failure + Response) * list Request * nat :=
  match fetch 0%nat request with
  | inr err =>
      (inl (NetworkFailure ("Network request failed: " +:+ error_text err) err),
       [request], k)
  | inl res =>
      match auth ctx with
      | Some (Provider calls) =>
          if bool_decide (status res = 401) && retryOn401
          then
            match calls k with
            | inr e => (inl (AuthFailure e), [request], S k)
            | inl freshToken =>
                let retryInit :=
                  mkRequest (url request) (Some ("Bearer " +:+ freshToken))
                    (init request) in
                match fetch 1%nat retryInit with
                | inr err =>
                    (inl (NetworkFailure
                            ("Network request failed on retry: " +:+ error_text err) err),
                     [request; retryInit], S k)
                | inl retryRes => (answer retryRes, [request; retryInit], S k)
                end
            end
          else (answer res, [request], k)
      | _ => (answer res, [request], k)
      end
  end.

End Http.

(** The kind of error a status stands for. *)
Definition kind_of_status (status : Z) : GenjutsuErrorKind :=
  if bool_decide (status = 401) then AUTH_ERROR
  else if bool_decide (status = 403) then PERMISSION_ERROR
  else if bool_decide (status = 429) then RATE_LIMIT
  else API_ERROR.

(** * Properties *)

(** ** Promises and the trace *)

Lemma andThen_resolved {A B} (m : Async A) (k : A → Async B) w a w' :
  m w = (Resolved a, w') → andThen m k w = k a w'.
Proof. unfold andThen. by intros ->. Qed.

Lemma andThen_rejected {A B} (m : Async A) (k : A → Async B) w e w' :
  m w = (Rejected e, w') → andThen m k w = (Rejected e, w').
Proof. unfold andThen. by intros ->. Qed.

Lemma truthy_Some k s : truthy k = Some s → k = Some s ∧ s ≠ EmptyString.
Proof.
  destruct k as [s'|]; simpl; [|done].
  case_bool_decide; [done|]. by intros [= ->].
Qed.

(** ** Tables without a primary key *)



(** ** Duplicate primary keys *)

Lemma find_is_Some {A} (f : A → bool) (l : list A) (x : A) :
  x ∈ l → f x = true → is_Some (find f l).
Proof.
  intros Hin Hf. destruct (find f l) as [y|] eqn:E; [by eexists|].
  apply list_elem_of_In in Hin. pose proof (find_none f l E x Hin). congruence.
Qed.

Lemma run_validate_accepts schema entity w :
  (∀ check, validate schema = Some check → check entity = None) →
  Repository.run_validate schema entity w = (Resolved tt, w).
Proof.
  intros H. unfold Repository.run_validate.
  destruct (validate schema) as [check|]; [|done]. by rewrite (H check eq_refl).
Qed.



(** ** The spreadsheet model *)

Lemma alter_rows_missing t f ts :
  find (titled t) ts = None → alter_rows t f ts = ts.
Proof.
  induction ts as [|tab ts IH]; simpl; [done|].
  destruct (titled t tab); [done|]. intros H. by rewrite IH.
Qed.

Lemma tab_rows_alter t f ts tab :
  find (titled t) ts = Some tab →
  tab_rows t (alter_rows t f ts) = f (tab_cells tab).
Proof.
  unfold tab_rows. induction ts as [|tab' ts IH]; simpl; [done|].
  destruct (titled t tab') eqn:E.
  - intros [= ->]. simpl. unfold titled in *. simpl. by rewrite E.
  - intros H. simpl. rewrite E. by apply IH.
Qed.

Lemma alter_rows_alter t f g ts :
  alter_rows t g (alter_rows t f ts) = alter_rows t (g ∘ f) ts.
Proof.
  induction ts as [|tab ts IH]; simpl; [done|].
  destruct (titled t tab) eqn:E; simpl.
  - unfold titled in *. simpl. by rewrite E.
  - rewrite E. by rewrite IH.
Qed.

Lemma alter_rows_ext t f g ts :
  (∀ x, f x = g x) → alter_rows t f ts = alter_rows t g ts.
Proof.
  intros H. induction ts as [|tab ts IH]; simpl; [done|].
  destruct (titled t tab); [by rewrite H|by rewrite IH].
Qed.

Lemma tab_rows_missing t ts : find (titled t) ts = None → tab_rows t ts = [].
Proof. unfold tab_rows. by intros ->. Qed.

Lemma tab_rows_found t ts tab :
  find (titled t) ts = Some tab → tab_rows t ts = tab_cells tab.
Proof. unfold tab_rows. by intros ->. Qed.

(** Writing the header and the rows from row 1 over a tab cleared from
    row 2 on leaves exactly the header and the rows. *)
Lemma rewrite_rows t (values g : list row) :
  values ≠ [] →
  put_rows (range_row (mkRange t 1) - 1) values (clear_rows (mkRange t 2) g) = values.
Proof.
  intros Hne. unfold put_rows, clear_rows. simpl.
  rewrite drop_ge; [by rewrite app_nil_r|].
  rewrite length_take. destruct values; [done|]. simpl. destruct (length g); lia.
Qed.

Lemma parse_rows_toRow schema rs i :
  Forall (parses_back schema) rs → parse_rows schema i (toRow schema <$> rs) = rs.
Proof.
  intros H. revert i. induction H as [|r rs Hr _ IH]; intros i; simpl; [done|].
  by rewrite Hr, IH.
Qed.

(** ** Deleting *)

Lemma filter_all {A} (P : A → Prop) `{!∀ x, Decision (P x)} (l : list A) :
  Forall P l → filter P l = l.
Proof.
  induction 1 as [|x l Hx _ IH]; [done|]. by rewrite filter_cons_True, IH.
Qed.

Lemma delete_eval config schema pk id w :
  Repository.isReadOnly config = false →
  truthy (primaryKey schema) = Some pk →
  let values := header_row schema :: (toRow schema <$> kept schema pk id w) in
  Repository.delete config schema id w
  = (Resolved tt,
     mkSpreadsheet
       (alter_rows (range_sheet (writeRange schema))
          (put_rows (range_row (writeRange schema) - 1) values)
          (alter_rows (range_sheet (clearRange schema)) (clear_rows (clearRange schema))
             (tabs w)))
       (clock w)
       (trace w ++ [Net (GetValues (readRange schema) UNFORMATTED_VALUE);
                    Net (ClearValues (clearRange schema));
                    Net (UpdateValues (writeRange schema) values false)])).
Proof.
  intros Hw Hpk values.
  unfold Repository.delete, Repository.assertWritable, Repository.withWriteLock.
  rewrite Hw, Hpk.
  unfold andThen, Repository.readAllRaw, andThen, getSheetValues, resolve,
    Transport.clearRange, updateSheet, record_event, with_tabs. simpl.
  by rewrite <- !app_assoc.
Qed.

Lemma delete_tabs schema values ts :
  standard_ranges schema → values ≠ [] →
  alter_rows (range_sheet (writeRange schema))
    (put_rows (range_row (writeRange schema) - 1) values)
    (alter_rows (range_sheet (clearRange schema)) (clear_rows (clearRange schema)) ts)
  = alter_rows (sheetName schema) (λ _, values) ts.
Proof.
  intros (_ & -> & ->) Hne. simpl range_sheet.
  rewrite alter_rows_alter. apply alter_rows_ext. intros g. simpl.
  by apply (rewrite_rows (sheetName schema)).
Qed.

(** After the rewrite the table holds the records that were written,
    provided they parse back. *)
Lemma records_after_rewrite schema (rs : list obj) w ts :
  standard_ranges schema →
  Forall (parses_back schema) rs →
  (find (titled (sheetName schema)) (tabs w) = None → rs = []) →
  ts = alter_rows (sheetName schema)
         (λ _, header_row schema :: (toRow schema <$> rs)) (tabs w) →
  parse_rows schema 0 (read_range ts (readRange schema)) = rs.
Proof.
  intros (Hr & _ & _) Hback Hnone ->. unfold read_range. rewrite Hr. simpl.
  destruct (find (titled (sheetName schema)) (tabs w)) as [tab|] eqn:E.
  - rewrite (tab_rows_alter _ _ _ tab E). simpl. rewrite drop_0.
    by apply parse_rows_toRow.
  - rewrite alter_rows_missing by done. rewrite tab_rows_missing by done.
    simpl. by rewrite Hnone.
Qed.

Lemma table_records_missing schema w :
  standard_ranges schema →
  find (titled (sheetName schema)) (tabs w) = None → table_records schema w = [].
Proof.
  intros (Hr & _ & _) H. unfold table_records, read_range. rewrite Hr. simpl.
  by rewrite tab_rows_missing.
Qed.


Lemma shop_orders_records :
  table_records Orders (blank shop_tabs) = [order "o1" "Alice"; order "o2" "Bob"].
Proof. vm_compute. reflexivity. Qed.

Lemma shop_orders_parse_back :
  Forall (parses_back Orders) (table_records Orders (blank shop_tabs)).
Proof.
  rewrite shop_orders_records.
  repeat constructor; intros j; vm_compute; reflexivity.
Qed.


(** ** The foreign-key check *)

(** The loop of [validateForeignKeys] rejects with the error of the first
    violated relation and resolves when there is none; it only reads. *)
Lemma validate_relations_spec record allSchemas ctx changedFields rels w :
  ∃ reads,
    validate_relations record allSchemas ctx changedFields rels w
    = (match find (fk_violated allSchemas (tabs w) changedFields record) rels with
       | Some relation => Rejected (fk_error relation record)
       | None => Resolved tt
       end,
       mkSpreadsheet (tabs w) (clock w) (trace w ++ reads))
    ∧ forallb is_read reads = true.
Proof.
  revert w. induction rels as [|relation rest IH]; intros w.
  { exists []. simpl. rewrite app_nil_r. by destruct w. }
  simpl validate_relations. simpl find.
  unfold fk_violated at 1, fk_skipped, fk_target.
  destruct (from_option _ false changedFields); simpl; [apply IH|].
  destruct (nullish (prop record (sourceField relation))); simpl; [apply IH|].
  destruct (schema_at allSchemas (targetModel relation)) as [target|]; simpl; [|apply IH].
  unfold andThen, getSheetValues.
  set (w1 := record_event _ w).
  destruct (indexOf (headers target) _) as [pkIndex|]; simpl.
  - destruct (existsb _ _); simpl.
    + destruct (IH w1) as (reads & E & Hr). eexists (_ :: reads).
      rewrite E. simpl. rewrite <- app_assoc. simpl. split; [reflexivity|done].
    + eexists [_]. split; [reflexivity|done].
  - destruct (IH w1) as (reads & E & Hr). eexists (_ :: reads).
    rewrite E. simpl. rewrite <- app_assoc. simpl. split; [reflexivity|done].
Qed.

Lemma validateForeignKeys_spec record schema allSchemas ctx changedFields w :
  ∃ reads,
    validateForeignKeys record schema allSchemas ctx changedFields w
    = (match fk_first_violation allSchemas (tabs w) changedFields record schema with
       | Some relation => Rejected (fk_error relation record)
       | None => Resolved tt
       end,
       mkSpreadsheet (tabs w) (clock w) (trace w ++ reads))
    ∧ forallb is_read reads = true.
Proof.
  unfold validateForeignKeys, fk_first_violation.
  destruct (relations schema) as [[|relation rest]|]; simpl default.
  - exists []. simpl. rewrite app_nil_r. by destruct w.
  - apply validate_relations_spec.
  - exists []. simpl. rewrite app_nil_r. by destruct w.
Qed.

(** ** Updating *)

Lemma findIndex_Some {A} (f : A → bool) (l : list A) (i : nat) :
  findIndex f l = Some i →
  ∃ x, l !! i = Some x ∧ f x = true ∧ ∀ j y, (j < i)%nat → l !! j = Some y → f y = false.
Proof.
  revert i. induction l as [|y l IH]; intros i; simpl; [done|].
  destruct (f y) eqn:E.
  - intros [= <-]. exists y. repeat split; [done|]. intros j z Hj. lia.
  - destruct (findIndex f l) as [i'|]; simpl; [|done]. intros [= <-].
    destruct (IH i' eq_refl) as (x & Hx & Hfx & Hlt). exists x. repeat split; [done..|].
    intros [|j] z Hj; simpl; [by intros [= <-]|]. intros Hz. apply (Hlt j z); [lia|done].
Qed.

(** C2.  On a client that can write, for a schema with a primary key:
    when [index] is the first record of the table with the id, the merged
    record passes the validation of the schema and, unless the check is
    skipped, violates no relation on a changed field, [update] resolves
    with the merged record: the prior record with the properties of
    [changes] overwritten and every other property as it was.  After the
    reads, it clears the data range and writes the header and the records
    in their order, the merged one in the place of the prior one; with the
    standard ranges the tab then holds exactly these rows. *)
Theorem update_merges (config : ClientConfig) (schema : SheetSchema) (pk : string)
    (id : value) (changes : obj) (options : option WriteOptions)
    (w : Spreadsheet) (index : nat) (prior : obj) :
  Repository.isReadOnly config = false →
  truthy (primaryKey schema) = Some pk →
  findIndex (λ r, strict_eq (prop r pk) id) (table_records schema w) = Some index →
  table_records schema w !! index = Some prior →
  (∀ check, validate schema = Some check → check (changes ∪ prior) = None) →
  (skips_fk options = false →
   fk_first_violation (schemas config) (tabs w) (Some (dom changes)) (changes ∪ prior) schema
   = None) →
  ∃ w' reads written,
    Repository.update config schema id changes options w = (Resolved (changes ∪ prior), w')
    ∧ (∀ k, (changes ∪ prior) !! k
            = match changes !! k with Some v => Some v | None => prior !! k end)
    ∧ written = <[index := changes ∪ prior]> (table_records schema w)
    ∧ length written = length (table_records schema w)
    ∧ (∀ j, written !! j = if decide (j = index) then Some (changes ∪ prior)
                           else table_records schema w !! j)
    ∧ forallb is_read reads = true
    ∧ trace w' = trace w ++ reads ++
        [Net (ClearValues (clearRange schema));
         Net (UpdateValues (writeRange schema)
                (header_row schema :: (toRow schema <$> written)) false)]
    ∧ (standard_ranges schema →
       tab_rows (sheetName schema) (tabs w')
       = header_row schema :: (toRow schema <$> written)).
Proof.
  intros Hw Hpk Hidx Hprior Hval Hfk.
  set (merged := changes ∪ prior) in *.
  set (records := table_records schema w) in *.
  set (w1 := record_event (Net (GetValues (readRange schema) UNFORMATTED_VALUE)) w).
  assert (Hstep : ∃ reads,
            (if skips_fk options then resolve tt
             else validateForeignKeys merged schema (schemas config)
                    (Repository.ctx config) (Some (dom changes))) w1
            = (Resolved tt, mkSpreadsheet (tabs w) (clock w) (trace w1 ++ reads))
            ∧ forallb is_read reads = true).
  { destruct (skips_fk options) eqn:Hs.
    - exists []. unfold resolve. rewrite app_nil_r. done.
    - destruct (validateForeignKeys_spec merged schema (schemas config)
                  (Repository.ctx config) (Some (dom changes)) w1) as (reads & E & Hr).
      exists reads. rewrite E. change (tabs w1) with (tabs w).
      change (clock w1) with (clock w). by rewrite (Hfk eq_refl). }
  destruct Hstep as (reads & Hstep & Hreads).
  exists (mkSpreadsheet
            (alter_rows (range_sheet (writeRange schema))
               (put_rows (range_row (writeRange schema) - 1)
                  (header_row schema :: (toRow schema <$> <[index := merged]> records)))
               (alter_rows (range_sheet (clearRange schema))
                  (clear_rows (clearRange schema)) (tabs w)))
            (clock w)
            (trace w ++ (Net (GetValues (readRange schema) UNFORMATTED_VALUE) :: reads) ++
               [Net (ClearValues (clearRange schema));
                Net (UpdateValues (writeRange schema)
                       (header_row schema :: (toRow schema <$> <[index := merged]> records))
                       false)])),
    (Net (GetValues (readRange schema) UNFORMATTED_VALUE) :: reads),
    (<[index := merged]> records).
  split; [|split; [|split; [|split; [|split; [|split; [|split]]]]]].
  - unfold Repository.update, Repository.assertWritable, Repository.withWriteLock.
    rewrite Hw. rewrite (andThen_resolved _ _ w tt w) by done.
    rewrite (andThen_resolved _ _ w records w1) by done.
    rewrite Hpk. fold records. rewrite Hidx. rewrite Hprior. simpl default. fold merged.
    rewrite (andThen_resolved _ _ w1 tt w1) by (by apply run_validate_accepts).
    rewrite (andThen_resolved _ _ _ _ _ Hstep).
    unfold andThen, Transport.clearRange, updateSheet, resolve, record_event, with_tabs.
    simpl. f_equal. f_equal. by rewrite <- !app_assoc.
  - intros k. unfold merged. rewrite lookup_union.
    destruct (changes !! k), (prior !! k); done.
  - done.
  - by rewrite length_insert.
  - intros j. case_decide as Hj.
    + subst j. apply list_lookup_insert_eq. by eapply lookup_lt_Some.
    + by apply list_lookup_insert_ne.
  - done.
  - done.
  - intros Hstd. simpl tabs. rewrite delete_tabs by done.
    destruct (find (titled (sheetName schema)) (tabs w)) as [tab|] eqn:E.
    + by rewrite (tab_rows_alter _ _ _ tab E).
    + exfalso. assert (Hnil : records = []) by (by apply table_records_missing).
      by rewrite Hnil in Hprior.
Qed.

Lemma update_merges_witness :
  ∃ w',
    Repository.update shop Items (VStr "i1") {[ "orderId" := VStr "o2" ]} None
      (blank shop_tabs)
    = (Resolved (item "i1" "o2" "Widget"), w')
    ∧ tab_rows "Items" (tabs w')
      = [ [VStr "id"; VStr "orderId"; VStr "name"];
          [VStr "i1"; VStr "o2"; VStr "Widget"];
          [VStr "i2"; VStr "o1"; VStr "Gadget"] ].
Proof.
  destruct (update_merges shop Items "id" (VStr "i1") {[ "orderId" := VStr "o2" ]} None
              (blank shop_tabs) 0%nat (item "i1" "o1" "Widget"))
    as (w' & reads & written & Hupdate & _ & Hwritten & _ & _ & _ & _ & Hrows).
  - reflexivity.
  - reflexivity.
  - vm_compute. reflexivity.
  - vm_compute. reflexivity.
  - intros check [= <-]. vm_compute. reflexivity.
  - intros _. vm_compute. reflexivity.
  - exists w'. split.
    + rewrite Hupdate. vm_compute. reflexivity.
    + change "Items" with (sheetName Items).
      rewrite Hrows by (repeat split; reflexivity). rewrite Hwritten.
      vm_compute. reflexivity.
Defined.

(** ** Rejection of dangling foreign keys *)

Lemma existsb_false_iff {A} (f : A → bool) (l : list A) :
  existsb f l = false ↔ ∀ x, x ∈ l → f x = false.
Proof.
  split.
  - intros H x Hx. destruct (f x) eqn:E; [|done].
    assert (existsb f l = true); [|congruence].
    apply existsb_exists. exists x. split; [by apply list_elem_of_In|done].
  - intros H. destruct (existsb f l) eqn:E; [|done].
    apply existsb_exists in E as (x & Hx & Hfx).
    apply list_elem_of_In in Hx. rewrite (H x Hx) in Hfx. done.
Qed.

(** [fk_violated] says what the specification says: the relation is
    checked (its source column is among the changed fields when these are
    given, and the record holds a value under it), its target is
    registered and has the resolved target column among its headers, and
    no row of the target holds there a value string-equal to the source
    value. *)
Lemma fk_violated_iff allSchemas ts changedFields record relation :
  fk_violated allSchemas ts changedFields record relation = true ↔
    (∀ cf, changedFields = Some cf → sourceField relation ∈ cf)
    ∧ nullish (prop record (sourceField relation)) = false
    ∧ ∃ target pkIndex,
        schema_at allSchemas (targetModel relation) = Some target
        ∧ indexOf (headers target) (default (targetField relation) (primaryKey target))
          = Some pkIndex
        ∧ ∀ r, r ∈ read_range ts (readRange target) →
               ¬ (nullish (default VUndefined (r !! pkIndex)) = false
                  ∧ js_String (default VUndefined (r !! pkIndex))
                    = js_String (prop record (sourceField relation))).
Proof.
  unfold fk_violated, fk_skipped, fk_target.
  rewrite andb_true_iff, negb_true_iff, orb_false_iff.
  split.
  - intros [[Hcf Hnull] Ht]. split; [|split; [done|]].
    + intros cf ->. simpl in Hcf. apply bool_decide_eq_false in Hcf.
      by apply dec_stable.
    + destruct (schema_at allSchemas (targetModel relation)) as [target|]; simpl in Ht;
        [|done].
      destruct (indexOf (headers target) _) as [pkIndex|] eqn:Ei; simpl in Ht; [|done].
      exists target, pkIndex. split; [done|]. split; [done|].
      apply negb_true_iff in Ht. intros r Hr [Hn Hs].
      pose proof (proj1 (existsb_false_iff _ _) Ht r Hr) as Hf.
      unfold references_row in Hf. rewrite Hn in Hf. simpl in Hf.
      by apply bool_decide_eq_false in Hf.
  - intros (Hcf & Hnull & target & pkIndex & Ht & Hi & Hrows). split; [split; [|done]|].
    + destruct changedFields as [cf|]; simpl; [|done].
      apply bool_decide_eq_false. intros Hn. by apply Hn, Hcf.
    + rewrite Ht. simpl. rewrite Hi. simpl. apply negb_true_iff, existsb_false_iff.
      intros r Hr. unfold references_row.
      destruct (nullish (default VUndefined (r !! pkIndex))) eqn:Hn; simpl; [done|].
      apply bool_decide_eq_false. intros Hs. by apply (Hrows r Hr).
Qed.

Lemma find_first_violation {A} (f : A → bool) (l : list A) (x : A) :
  x ∈ l → f x = true → ∃ first, find f l = Some first ∧ first ∈ l ∧ f first = true.
Proof.
  intros Hx Hf. destruct (find_is_Some f l x Hx Hf) as [first E].
  exists first. split; [done|].
  apply find_some in E as [Hin Hfirst]. by apply list_elem_of_In in Hin.
Qed.

Lemma find_none_of {A} (f : A → bool) (l : list A) :
  (∀ x, x ∈ l → f x = false) → find f l = None.
Proof.
  intros H. destruct (find f l) as [y|] eqn:E; [|done].
  apply find_some in E as [Hin Hy]. apply list_elem_of_In in Hin.
  rewrite (H y Hin) in Hy. done.
Qed.

(** [create] reaches the foreign-key check with the tabs as they were. *)
Lemma create_fk_rejects config schema record options w relation :
  Repository.isReadOnly config = false →
  (∀ check, validate schema = Some check →
            check (Repository.applyDefaults schema record) = None) →
  (∀ pk e, truthy (primaryKey schema) = Some pk → e ∈ table_records schema w →
           prop e pk ≠ prop (Repository.applyDefaults schema record) pk) →
  skips_fk options = false →
  fk_first_violation (schemas config) (tabs w) None
    (Repository.applyDefaults schema record) schema = Some relation →
  ∃ w', Repository.create config schema record options w
        = (Rejected (fk_error relation (Repository.applyDefaults schema record)), w')
        ∧ tabs w' = tabs w.
Proof.
  intros Hw Hval Hdup Hskip Hfk.
  set (entity := Repository.applyDefaults schema record) in *.
  assert (Hkey : ∃ w1,
            match truthy (primaryKey schema) with
            | Some pk =>
                let! existing := Repository.readAllRaw config schema in
                match find (λ e, strict_eq (prop e pk) (prop entity pk)) existing with
                | Some _ => throw (Repository.duplicate_issue pk (prop entity pk))
                | None => resolve tt
                end
            | None => resolve tt
            end w = (Resolved tt, w1) ∧ tabs w1 = tabs w).
  { destruct (truthy (primaryKey schema)) as [pk|] eqn:Hpk; [|by exists w].
    eexists. unfold Repository.readAllRaw, andThen, getSheetValues, resolve. simpl.
    rewrite find_none_of; [done|].
    intros e He. unfold strict_eq. apply bool_decide_eq_false. by apply (Hdup pk). }
  destruct Hkey as (w1 & Hkey & Htabs).
  destruct (validateForeignKeys_spec entity schema (schemas config)
              (Repository.ctx config) None w1) as (reads & E & _).
  rewrite Htabs, Hfk in E.
  eexists. split.
  - unfold Repository.create, Repository.assertWritable, Repository.withWriteLock.
    rewrite Hw. rewrite (andThen_resolved _ _ w tt w) by done.
    rewrite (andThen_resolved _ _ w tt w) by (by apply run_validate_accepts).
    fold entity. rewrite (andThen_resolved _ _ _ _ _ Hkey). rewrite Hskip.
    by rewrite (andThen_rejected _ _ _ _ _ E).
  - done.
Qed.

(** [update] reaches the foreign-key check, made on the changed fields,
    with the tabs as they were. *)
Lemma update_fk_rejects config schema pk id changes options w index prior relation :
  Repository.isReadOnly config = false →
  truthy (primaryKey schema) = Some pk →
  findIndex (λ r, strict_eq (prop r pk) id) (table_records schema w) = Some index →
  table_records schema w !! index = Some prior →
  (∀ check, validate schema = Some check → check (changes ∪ prior) = None) →
  skips_fk options = false →
  fk_first_violation (schemas config) (tabs w) (Some (dom changes)) (changes ∪ prior) schema
  = Some relation →
  ∃ w', Repository.update config schema id changes options w
        = (Rejected (fk_error relation (changes ∪ prior)), w')
        ∧ tabs w' = tabs w.
Proof.
  intros Hw Hpk Hidx Hprior Hval Hskip Hfk.
  set (w1 := record_event (Net (GetValues (readRange schema) UNFORMATTED_VALUE)) w).
  destruct (validateForeignKeys_spec (changes ∪ prior) schema (schemas config)
              (Repository.ctx config) (Some (dom changes)) w1) as (reads & E & _).
  change (tabs w1) with (tabs w) in E. rewrite Hfk in E.
  eexists. split.
  - unfold Repository.update, Repository.assertWritable, Repository.withWriteLock.
    rewrite Hw. rewrite (andThen_resolved _ _ w tt w) by done.
    rewrite (andThen_resolved _ _ w (table_records schema w) w1) by done.
    rewrite Hpk, Hidx, Hprior. simpl default.
    rewrite (andThen_resolved _ _ w1 tt w1) by (by apply run_validate_accepts).
    rewrite Hskip. by rewrite (andThen_rejected _ _ _ _ _ E).
  - done.
Qed.

Lemma validate_relations_skip record allSchemas ctx changedFields relation rest :
  fk_skipped changedFields record relation = true →
  validate_relations record allSchemas ctx changedFields (relation :: rest)
  = validate_relations record allSchemas ctx changedFields rest.
Proof.
  unfold fk_skipped. simpl.
  destruct (from_option _ false changedFields); simpl; [done|]. by intros ->.
Qed.

Lemma parse_rows_without_relations schema i rows :
  parse_rows (without_relations schema) i rows = parse_rows schema i rows.
Proof.
  revert i. induction rows as [|r rows IH]; intros i; simpl; [done|].
  by rewrite IH.
Qed.

Lemma readAllRaw_without_relations config schema w :
  Repository.readAllRaw config (without_relations schema) w
  = Repository.readAllRaw config schema w.
Proof.
  unfold Repository.readAllRaw, andThen, getSheetValues, resolve. simpl.
  by rewrite parse_rows_without_relations.
Qed.

Lemma andThen_ext {A B} (m m' : Async A) (k k' : A → Async B) w :
  m w = m' w → (∀ a w', k a w' = k' a w') → andThen m k w = andThen m' k' w.
Proof.
  intros Hm Hk. unfold andThen. rewrite Hm. destruct (m' w) as [[a|e] w']; [apply Hk|done].
Qed.

Lemma create_without_relations config schema record options w :
  skips_fk options = true →
  Repository.create config schema record options w
  = Repository.create config (without_relations schema) record options w.
Proof.
  intros Hs. unfold Repository.create, Repository.withWriteLock. rewrite Hs.
  apply andThen_ext; [done|]. intros _ w0.
  apply andThen_ext; [done|]. intros _ w1.
  apply andThen_ext.
  { change (primaryKey (without_relations schema)) with (primaryKey schema).
    destruct (truthy (primaryKey schema)) as [pk|]; [|done].
    apply andThen_ext; [apply eq_sym, readAllRaw_without_relations|done]. }
  intros _ w2. reflexivity.
Qed.

Lemma update_without_relations config schema id changes options w :
  skips_fk options = true →
  Repository.update config schema id changes options w
  = Repository.update config (without_relations schema) id changes options w.
Proof.
  intros Hs. unfold Repository.update, Repository.withWriteLock. rewrite Hs.
  apply andThen_ext; [done|]. intros _ w0.
  apply andThen_ext; [apply eq_sym, readAllRaw_without_relations|].
  intros records w1. reflexivity.
Qed.




(** ** Eager loading *)

Lemma filter_none {A} (P : A → Prop) `{!∀ x, Decision (P x)} (l : list A) :
  Forall (λ x, ¬ P x) l → filter P l = [].
Proof.
  induction 1 as [|x l Hx _ IH]; [done|]. by rewrite filter_cons_False.
Qed.

Lemma map_get_set k k' v m :
  map_get k (map_set k' v m) = if bool_decide (k' = k) then Some v else map_get k m.
Proof.
  induction m as [|[k0 v0] m IH]; simpl; [done|].
  repeat (case_bool_decide; simpl); simplify_eq; try done.
  all: rewrite IH; by repeat (case_bool_decide; simplify_eq).
Qed.

(** The batch read answers every requested range with its rows. *)
Lemma batch_lookup (f : Range → list row) (ranges : list Range) (m : RangeMap) (k : Range) :
  map_get k (foldl (λ result r, map_set r (f r) result) m ranges)
  = if bool_decide (k ∈ ranges) then Some (f k) else map_get k m.
Proof.
  revert m. induction ranges as [|r ranges IH]; intros m; simpl; [done|].
  rewrite IH. destruct (bool_decide (k ∈ ranges)) eqn:E.
  - apply bool_decide_eq_true in E. rewrite bool_decide_eq_true_2; [done|].
    by apply list_elem_of_further.
  - apply bool_decide_eq_false in E. rewrite map_get_set.
    destruct (bool_decide (r = k)) eqn:Er.
    + apply bool_decide_eq_true in Er as ->.
      rewrite bool_decide_eq_true_2; [done|]. apply list_elem_of_here.
    + apply bool_decide_eq_false in Er. rewrite bool_decide_eq_false_2; [done|].
      intros [->|?]%elem_of_cons; done.
Qed.

Lemma foldl_attach_related schema allSchemas pk batchResult enhanced related :
  foldl (attach_related schema allSchemas pk batchResult) enhanced related
  = (λ parent,
       foldl (λ p rel,
                attach_to_parent pk (fst rel)
                  (findRelationToModel (snd rel) allSchemas schema)
                  (parse_rows (snd rel) 0
                     (default [] (map_get (readRange (snd rel)) batchResult)))
                  p)
             parent related) <$> enhanced.
Proof.
  revert enhanced. induction related as [|rel related IH]; intros enhanced; simpl.
  - by rewrite list_fmap_id.
  - rewrite IH. unfold attach_related. by rewrite <- list_fmap_compose.
Qed.

Lemma spread_pk (r : obj) (pk : string) :
  jsval_String (default (Scalar VUndefined) (spread r !! pk)) = js_String (prop r pk).
Proof. unfold spread, prop. rewrite lookup_fmap. by destruct (r !! pk). Qed.

(** One parent, over the related schemas that are left. *)
Lemma attach_all schema allSchemas pk batchResult w (r : obj) related :
  NoDup (fst <$> related) →
  pk ∉ (fst <$> related) →
  (∀ rel, rel ∈ related →
          map_get (readRange (snd rel)) batchResult
          = Some (read_range (tabs w) (readRange (snd rel)))) →
  ∀ p : loaded,
    p !! pk = spread r !! pk →
    let final :=
      foldl (λ p rel,
               attach_to_parent pk (fst rel)
                 (findRelationToModel (snd rel) allSchemas schema)
                 (parse_rows (snd rel) 0
                    (default [] (map_get (readRange (snd rel)) batchResult)))
                 p)
            p related in
    (∀ rel, rel ∈ related →
            final !! fst rel
            = Some (Records (related_children schema allSchemas w (snd rel) (prop r pk))))
    ∧ (∀ k, k ∉ (fst <$> related) → final !! k = p !! k).
Proof.
  induction related as [|rel related IH]; intros Hnd Hpk Hbatch p Hp; simpl.
  { split; [by intros rel []%elem_of_nil|done]. }
  apply NoDup_cons in Hnd as [Hfresh Hnd]. simpl in Hpk.
  apply not_elem_of_cons in Hpk as [Hne Hpk].
  set (p1 := attach_to_parent pk (fst rel) _ _ p).
  assert (Hp1 : ∀ k, k ≠ fst rel → p1 !! k = p !! k).
  { intros k Hk. unfold p1, attach_to_parent.
    destruct (findRelationToModel _ _ _); by rewrite lookup_insert_ne. }
  assert (Hrel : p1 !! fst rel
                 = Some (Records (related_children schema allSchemas w (snd rel) (prop r pk)))).
  { unfold p1, attach_to_parent, related_children, table_records.
    rewrite (Hbatch rel) by apply list_elem_of_here. simpl default at 1.
    rewrite Hp, spread_pk.
    destruct (findRelationToModel _ _ _); by rewrite lookup_insert_eq. }
  destruct (IH Hnd Hpk) with (p := p1) as [Hin Hout].
  { intros rel' Hrel'. apply Hbatch. by apply list_elem_of_further. }
  { rewrite Hp1 by done. done. }
  split.
  - intros rel' [->|Hrel']%elem_of_cons; [|by apply Hin].
    rewrite Hout by done. done.
  - intros k Hk. simpl in Hk. apply not_elem_of_cons in Hk as [Hk1 Hk2].
    rewrite Hout by done. by apply Hp1.
Qed.

Lemma related_schemas_keys includeKeys allSchemas :
  fst <$> related_schemas includeKeys allSchemas
  = filter (λ k, is_Some (schema_at allSchemas k)) includeKeys.
Proof.
  unfold related_schemas. induction includeKeys as [|k keys IH]; simpl; [done|].
  rewrite filter_cons.
  destruct (decide (is_Some (schema_at allSchemas k))) as [[s Hs]|Hn].
  - rewrite Hs. simpl. f_equal. exact IH.
  - destruct (schema_at allSchemas k) eqn:E; [exfalso; apply Hn; by eexists|]. done.
Qed.

Lemma elem_of_related_schemas includeKeys allSchemas key relatedSchema :
  (key, relatedSchema) ∈ related_schemas includeKeys allSchemas
  ↔ key ∈ includeKeys ∧ schema_at allSchemas key = Some relatedSchema.
Proof.
  unfold related_schemas. rewrite list_elem_of_omap. split.
  - intros (k & Hk & Hs). destruct (schema_at allSchemas k) as [s|] eqn:E; simpl in Hs; [|done].
    by simplify_eq.
  - intros [Hk Hs]. exists key. by rewrite Hs.
Qed.

Lemma loadRelated_eval records schema includeMap allSchemas ctx pk w :
  truthy (primaryKey schema) = Some pk →
  related_schemas includeMap allSchemas ≠ [] →
  loadRelated records schema includeMap allSchemas ctx w
  = (Resolved
       (foldl (attach_related schema allSchemas pk
                 (foldl (λ result r, map_set r (read_range (tabs w) r) result) []
                    ((readRange ∘ snd) <$> related_schemas includeMap allSchemas)))
          (spread <$> records) (related_schemas includeMap allSchemas)),
     record_event
       (Net (BatchGet ((readRange ∘ snd) <$> related_schemas includeMap allSchemas)
               UNFORMATTED_VALUE)) w).
Proof.
  intros Hpk Hsome. unfold loadRelated.
  destruct includeMap as [|k keys]; [done|].
  destruct (related_schemas (k :: keys) allSchemas) as [|rel rels]; [done|].
  unfold andThen, batchGetValues, resolve. simpl. by rewrite Hpk.
Qed.



(** ** The migration runner *)

Import Migrations.

#[local] Instance by_version_transitive : Transitive by_version.
Proof. intros a b c. unfold by_version. lia. Qed.

#[local] Instance by_version_total : Total by_version.
Proof. intros a b. unfold by_version. lia. Qed.

Lemma duplicate_version_None seen migrations :
  duplicate_version seen migrations = None
  ↔ NoDup (version <$> migrations) ∧ ∀ m, m ∈ migrations → version m ∉ seen.
Proof.
  revert seen. induction migrations as [|m rest IH]; intros seen; simpl.
  { split; [|done]. intros _. split; [constructor|]. by intros m []%elem_of_nil. }
  case_bool_decide as Hin.
  - split; [done|]. intros [_ H]. destruct (H m); [apply list_elem_of_here|done].
  - rewrite IH. rewrite NoDup_cons. split.
    + intros [Hnd Hall]. split; [split; [|done]|].
      * intros (m' & Hv & Hm')%list_elem_of_fmap. apply (Hall m' Hm').
        apply elem_of_union_l, elem_of_singleton. done.
      * intros m' [->|Hm']%elem_of_cons; [done|]. specialize (Hall m' Hm').
        intros Hseen. apply Hall. by apply elem_of_union_r.
    + intros [[Hfresh Hnd] Hall]. split; [done|]. intros m' Hm'.
      assert (version m' ≠ version m).
      { intros Heq. apply Hfresh. apply list_elem_of_fmap. by exists m'. }
      assert (version m' ∉ seen) by (apply Hall; by apply list_elem_of_further).
      by intros [?%elem_of_singleton|?]%elem_of_union.
Qed.

Lemma duplicate_version_Some seen migrations err :
  duplicate_version seen migrations = Some err →
  ∃ m, m ∈ migrations
       ∧ err = schemaError ("Migrations have duplicate version number: "
                            +:+ pretty (version m)).
Proof.
  revert seen. induction migrations as [|m rest IH]; intros seen; simpl; [done|].
  case_bool_decide.
  - intros [= <-]. exists m. split; [apply list_elem_of_here|done].
  - intros (m' & Hm' & ->)%IH. exists m'. split; [by apply list_elem_of_further|done].
Qed.

Lemma StronglySorted_sublist {A} (R : relation A) (l k : list A) :
  l `sublist_of` k → StronglySorted R k → StronglySorted R l.
Proof.
  induction 1 as [|x l k Hs IH|x l k Hs IH]; intros Hk.
  - constructor.
  - apply StronglySorted_inv in Hk as [Hk Hx]. constructor; [by apply IH|].
    eapply Forall_forall. intros y Hy. eapply Forall_forall in Hx; [done|].
    by eapply elem_of_sublist.
  - apply StronglySorted_inv in Hk as [Hk _]. by apply IH.
Qed.

(** Sorted by version, migrations with distinct versions are in strictly
    ascending order. *)
Lemma sorted_strictly_ascending migrations :
  NoDup (version <$> migrations) →
  StronglySorted Z.lt (version <$> merge_sort by_version migrations).
Proof.
  intros Hnd.
  assert (Hnd' : NoDup (version <$> merge_sort by_version migrations)).
  { by rewrite merge_sort_Permutation. }
  pose proof (StronglySorted_merge_sort by_version migrations) as Hs.
  induction Hs as [|m l Hl IH Hm]; simpl; [constructor|].
  apply NoDup_cons in Hnd' as [Hfresh Hnd']. constructor; [by apply IH|].
  apply Forall_fmap, Forall_forall. intros m' Hm'. simpl.
  eapply Forall_forall in Hm; [|done]. unfold by_version in Hm.
  assert (version m ≠ version m'); [|lia].
  intros Heq. apply Hfresh. rewrite Heq. apply list_elem_of_fmap. by exists m'.
Qed.

Lemma pending_strictly_ascending applied migrations :
  NoDup (version <$> migrations) →
  StronglySorted Z.lt (version <$> pending_of applied (merge_sort by_version migrations)).
Proof.
  intros Hnd. eapply StronglySorted_sublist; [|by apply sorted_strictly_ascending].
  apply fmap_sublist, sublist_filter.
Qed.

(** The order of the supplied migrations does not matter. *)
Lemma sorted_permutation migrations migrations' :
  NoDup (version <$> migrations) →
  migrations ≡ₚ migrations' →
  merge_sort by_version migrations = merge_sort by_version migrations'.
Proof.
  intros Hnd Hp.
  apply (StronglySorted_unique_strong by_version).
  - intros m1 m2 H1 H2 H12 H21. unfold by_version in *.
    assert (Hv : version m1 = version m2) by lia.
    rewrite merge_sort_Permutation in H1. rewrite merge_sort_Permutation, <- Hp in H2.
    apply list_elem_of_lookup in H1 as [i1 H1]. apply list_elem_of_lookup in H2 as [i2 H2].
    assert (i1 = i2).
    { eapply NoDup_lookup; [exact Hnd| |]; rewrite list_lookup_fmap.
      - by rewrite H1.
      - rewrite H2. simpl. by rewrite Hv. }
    subst. congruence.
  - apply StronglySorted_merge_sort; apply _.
  - apply StronglySorted_merge_sort; apply _.
  - by rewrite !merge_sort_Permutation.
Qed.

(** An operation of the context issues one structural batch, or nothing
    when it rejects. *)
Lemma perform_trace ctx sheetIdMap op w :
  ∃ batches,
    trace (snd (perform (createMigrationContext ctx sheetIdMap) op w)) = trace w ++ batches
    ∧ clock (snd (perform (createMigrationContext ctx sheetIdMap) op w)) = clock w
    ∧ forallb is_structural batches = true.
Proof.
  destruct op; simpl; unfold andThen, resolveSheetId;
    try destruct (sheetIdMap !! _); simpl;
    first [by eexists [_] | exists []; by rewrite app_nil_r].
Qed.

Lemma invoke_trace ctx sheetIdMap p w :
  ∃ batches,
    trace (snd (invoke p (createMigrationContext ctx sheetIdMap) w)) = trace w ++ batches
    ∧ clock (snd (invoke p (createMigrationContext ctx sheetIdMap) w)) = clock w
    ∧ forallb is_structural batches = true.
Proof.
  revert w. induction p as [|e|op next IH|op next IHn handler IHh]; intros w; simpl.
  - exists []. by rewrite app_nil_r.
  - exists []. by rewrite app_nil_r.
  - unfold andThen.
    destruct (perform_trace ctx sheetIdMap op w) as (b1 & Ht & Hc & Hb).
    destruct (perform _ op w) as [[[]|e] w1]; simpl in *.
    + destruct (IH w1) as (b2 & Ht2 & Hc2 & Hb2). exists (b1 ++ b2).
      rewrite Ht2, Ht, Hc2, Hc, app_assoc, forallb_app, Hb, Hb2. done.
    + by exists b1.
  - destruct (perform_trace ctx sheetIdMap op w) as (b1 & Ht & Hc & Hb).
    destruct (perform _ op w) as [[[]|e] w1]; simpl in *.
    + destruct (IHn w1) as (b2 & Ht2 & Hc2 & Hb2). exists (b1 ++ b2).
      rewrite Ht2, Ht, Hc2, Hc, app_assoc, forallb_app, Hb, Hb2. done.
    + destruct (IHh w1) as (b2 & Ht2 & Hc2 & Hb2). exists (b1 ++ b2).
      rewrite Ht2, Ht, Hc2, Hc, app_assoc, forallb_app, Hb, Hb2. done.
Qed.

Lemma structural_invoked batches :
  forallb is_structural batches = true → invoked_versions batches = [].
Proof.
  induction batches as [|[[]|] batches IH]; simpl; try done; auto.
Qed.

Lemma structural_recorded batches :
  forallb is_structural batches = true → recorded_versions batches = [].
Proof.
  induction batches as [|[[]|] batches IH]; simpl; try done; auto.
Qed.

Lemma structural_protocol batches v t :
  forallb is_structural batches = true →
  ledger_protocol (Some v) (batches ++ t) = ledger_protocol (Some v) t.
Proof.
  induction batches as [|[[]|] batches IH]; simpl; try done.
Qed.

Lemma invoked_versions_app t1 t2 :
  invoked_versions (t1 ++ t2) = invoked_versions t1 ++ invoked_versions t2.
Proof. unfold invoked_versions. by rewrite omap_app. Qed.

Lemma recorded_versions_app t1 t2 :
  recorded_versions (t1 ++ t2) = recorded_versions t1 ++ recorded_versions t2.
Proof. unfold recorded_versions. by rewrite omap_app. Qed.

(** One round of the loop over the pending migrations. *)
Lemma run_pending_cons ctx mCtx m rest w :
  run_pending ctx mCtx (m :: rest) w
  = match invoke (up m) mCtx (record_event (Invoked (version m)) w) with
    | (Resolved _, w1) =>
        run_pending ctx mCtx rest
          (record_event
             (Net (UpdateValues LEDGER_APPEND_RANGE [ledger_row m (clock w1)] true))
             (with_tabs
                (alter_rows MIGRATIONS_SHEET
                   (append_rows LEDGER_APPEND_RANGE [ledger_row m (clock w1)]) (tabs w1))
                w1))
    | (Rejected err, w1) =>
        (Rejected (migrationError (failure_message m err) (version m) (name m) err), w1)
    end.
Proof.
  simpl. unfold andThen, mark, rethrow, toISOString_now, updateSheet.
  by destruct (invoke (up m) mCtx _) as [[[]|err] w1].
Qed.

(** ** The ledger is out of reach of the procedures *)

Lemma find_head_filter {A} (P : A → Prop) `{!∀ x, Decision (P x)} (l : list A) :
  find (λ x, bool_decide (P x)) l = head (filter P l).
Proof.
  induction l as [|x l IH]; simpl; [done|]. rewrite filter_cons.
  case_bool_decide; [by rewrite decide_True|by rewrite decide_False].
Qed.

Lemma ledger_rows_head ts :
  ledger_rows ts = from_option tab_cells [] (head (ledger_tabs ts)).
Proof. unfold ledger_rows, tab_rows, titled, ledger_tabs. by rewrite find_head_filter. Qed.

Lemma ledger_tabs_alter_tab id f ts :
  id ∉ tab_id <$> ledger_tabs ts →
  (∀ tab, tab_title tab ≠ MIGRATIONS_SHEET → tab_title (f tab) ≠ MIGRATIONS_SHEET) →
  ledger_tabs (alter_tab id f ts) = ledger_tabs ts.
Proof.
  unfold ledger_tabs, alter_tab. intros Hid Hf.
  induction ts as [|tab ts IH]; simpl; [done|].
  rewrite !filter_cons. rewrite filter_cons in Hid.
  destruct (decide (tab_title tab = MIGRATIONS_SHEET)) as [Ht|Ht].
  - simpl in Hid. apply not_elem_of_cons in Hid as [Hne Hid].
    rewrite bool_decide_eq_false_2 by done. rewrite decide_True by done.
    by rewrite IH.
  - case_bool_decide.
    + rewrite decide_False by (by apply Hf). by apply IH.
    + rewrite decide_False by done. by apply IH.
Qed.

Lemma ledger_tabs_add t ts id :
  t ≠ MIGRATIONS_SHEET → ledger_tabs (ts ++ [mkTab id t []]) = ledger_tabs ts.
Proof.
  intros Ht. unfold ledger_tabs. rewrite filter_app, filter_cons. simpl.
  rewrite decide_False by done. by rewrite filter_nil, app_nil_r.
Qed.

Lemma perform_ledger ctx sheetIdMap op w :
  operation_avoids_ledger op = true →
  ledger_untouchable sheetIdMap (tabs w) →
  ledger_tabs (tabs (snd (perform (createMigrationContext ctx sheetIdMap) op w)))
  = ledger_tabs (tabs w).
Proof.
  intros Hop Hsafe. destruct op; simpl in *; unfold andThen, resolveSheetId.
  - apply bool_decide_eq_true in Hop. by apply ledger_tabs_add.
  - apply bool_decide_eq_true in Hop.
    destruct (sheetIdMap !! sheet) as [id|] eqn:E; simpl; [|done].
    pose proof (Hsafe sheet id E Hop) as Hid.
    rewrite ledger_tabs_alter_tab; [by apply ledger_tabs_alter_tab|..]; [|done].
    by rewrite ledger_tabs_alter_tab.
  - apply bool_decide_eq_true in Hop.
    destruct (sheetIdMap !! sheet) as [id|] eqn:E; simpl; [|done].
    apply ledger_tabs_alter_tab; [by apply (Hsafe sheet)|done].
  - apply bool_decide_eq_true in Hop.
    destruct (sheetIdMap !! sheet) as [id|] eqn:E; simpl; [|done].
    apply ledger_tabs_alter_tab; [by apply (Hsafe sheet)|done].
  - apply andb_true_iff in Hop as [Ho Hn].
    apply bool_decide_eq_true in Ho. apply bool_decide_eq_true in Hn.
    destruct (sheetIdMap !! oldName) as [id|] eqn:E; simpl; [|done].
    apply ledger_tabs_alter_tab; [by apply (Hsafe oldName)|done].
Qed.

Lemma invoke_ledger ctx sheetIdMap p w :
  avoids_ledger p = true →
  ledger_untouchable sheetIdMap (tabs w) →
  ledger_tabs (tabs (snd (invoke p (createMigrationContext ctx sheetIdMap) w)))
  = ledger_tabs (tabs w).
Proof.
  revert w. induction p as [|e|op next IH|op next IHn handler IHh]; intros w; simpl;
    [done|done|..].
  - intros [Hop Hnext]%andb_true_iff Hsafe. unfold andThen.
    pose proof (perform_ledger ctx sheetIdMap op w Hop Hsafe) as Hp.
    destruct (perform _ op w) as [[[]|e] w1]; simpl in *; [|done].
    rewrite IH; [done|done|]. unfold ledger_untouchable. by rewrite Hp.
  - intros [[Hop Hnext]%andb_true_iff Hh]%andb_true_iff Hsafe.
    pose proof (perform_ledger ctx sheetIdMap op w Hop Hsafe) as Hp.
    destruct (perform _ op w) as [[[]|e] w1]; simpl in *.
    + rewrite IHn; [done|done|]. unfold ledger_untouchable. by rewrite Hp.
    + rewrite IHh; [done|done|]. unfold ledger_untouchable. by rewrite Hp.
Qed.

(** Appending to the ledger changes the cells of the first ledger tab. *)
Lemma ledger_tabs_append ts vs tab rest :
  ledger_tabs ts = tab :: rest →
  ledger_tabs (alter_rows MIGRATIONS_SHEET (append_rows LEDGER_APPEND_RANGE vs) ts)
  = mkTab (tab_id tab) (tab_title tab) (tab_cells tab ++ vs) :: rest.
Proof.
  unfold ledger_tabs. revert tab rest.
  induction ts as [|t ts IH]; intros tab rest; [done|].
  cbn [alter_rows]. rewrite filter_cons. unfold titled at 1.
  destruct (decide (tab_title t = MIGRATIONS_SHEET)) as [Ht|Ht].
  - rewrite bool_decide_eq_true_2 by done. intros [= <- <-].
    rewrite filter_cons. cbn [tab_title]. rewrite decide_True by done. f_equal. f_equal.
    unfold append_rows, put_rows. cbn [range_row LEDGER_APPEND_RANGE].
    replace (length (tab_cells t) `max` (1 - 1))%nat with (length (tab_cells t)) by lia.
    rewrite Nat.sub_diag. cbn [replicate]. rewrite app_nil_r, take_ge by lia.
    rewrite drop_ge by lia. by rewrite app_nil_r.
  - rewrite bool_decide_eq_false_2 by done. intros Hf.
    rewrite filter_cons, decide_False by done. by apply IH.
Qed.

Lemma ledger_grows_same ts ts' :
  ledger_tabs ts ≠ [] → ledger_tabs ts' = ledger_tabs ts → ledger_grows ts ts' [].
Proof.
  intros Hne Heq. destruct (ledger_tabs ts) as [|tab rest] eqn:E; [done|].
  exists tab, rest. split; [done|]. rewrite Heq, app_nil_r. by destruct tab.
Qed.

Lemma ledger_grows_trans ts1 ts2 ts3 rows1 rows2 :
  ledger_grows ts1 ts2 rows1 → ledger_grows ts2 ts3 rows2 →
  ledger_grows ts1 ts3 (rows1 ++ rows2).
Proof.
  intros (tab & rest & H1 & H2) (tab' & rest' & H2' & H3).
  rewrite H2 in H2'. injection H2' as <- <-. simpl in H3.
  exists tab, rest. split; [done|]. by rewrite app_assoc.
Qed.

Lemma ledger_safe_step sheetIdMap m rest ts ts' rows :
  ledger_safe sheetIdMap (m :: rest) ts → ledger_grows ts ts' rows →
  ledger_safe sheetIdMap rest ts'.
Proof.
  intros (Hu & Hne & Hall) (tab & tl & H1 & H2). split; [|split].
  - unfold ledger_untouchable in *. rewrite H2. rewrite H1 in Hu. done.
  - by rewrite H2.
  - by apply Forall_cons in Hall as [_ Hall].
Qed.

(** The loop over the pending migrations.  When it resolves, every
    pending migration was called and recorded, in order.  When it rejects,
    it does so with the migration error of the first migration [m] whose
    procedure failed, wrapping what the procedure threw: the migrations
    before [m] were called and recorded, [m] was called and not recorded,
    and nothing after [m] was called.  The trace follows the protocol
    [ledger_protocol]; and when the procedures keep away from the ledger
    ([ledger_safe]), the ledger has got the rows of the recorded
    migrations, and nothing else in it has changed. *)
Lemma run_pending_spec ctx sheetIdMap pending w :
  ∃ delta,
    trace (snd (run_pending ctx (createMigrationContext ctx sheetIdMap) pending w))
    = trace w ++ delta
    ∧ clock (snd (run_pending ctx (createMigrationContext ctx sheetIdMap) pending w))
      = clock w
    ∧ match fst (run_pending ctx (createMigrationContext ctx sheetIdMap) pending w) with
      | Resolved _ =>
          invoked_versions delta = version <$> pending
          ∧ recorded_versions delta = version <$> pending
          ∧ ledger_protocol None delta = Some None
          ∧ (ledger_safe sheetIdMap pending (tabs w) →
             ledger_grows (tabs w)
               (tabs (snd (run_pending ctx (createMigrationContext ctx sheetIdMap)
                             pending w)))
               ((λ m, ledger_row m (clock w)) <$> pending))
      | Rejected err =>
          ∃ before m after cause,
            pending = before ++ m :: after
            ∧ err = migrationError (failure_message m cause) (version m) (name m) cause
            ∧ (∃ wm, fst (invoke (up m) (createMigrationContext ctx sheetIdMap) wm)
                     = Rejected cause)
            ∧ invoked_versions delta = version <$> (before ++ [m])
            ∧ recorded_versions delta = version <$> before
            ∧ ledger_protocol None delta = Some (Some (version m))
            ∧ (ledger_safe sheetIdMap pending (tabs w) →
               ledger_grows (tabs w)
                 (tabs (snd (run_pending ctx (createMigrationContext ctx sheetIdMap)
                               pending w)))
                 ((λ m, ledger_row m (clock w)) <$> before))
      end.
Proof.
  revert w. induction pending as [|m rest IH]; intros w.
  { exists []. simpl. rewrite app_nil_r. repeat split; try done.
    intros (_ & Hne & _). by apply ledger_grows_same. }
  rewrite run_pending_cons.
  set (w0 := record_event (Invoked (version m)) w).
  destruct (invoke_trace ctx sheetIdMap (up m) w0) as (batches & Ht & Hc & Hb).
  assert (Hkeep : ledger_safe sheetIdMap (m :: rest) (tabs w) →
            ledger_tabs (tabs (snd (invoke (up m) (createMigrationContext ctx sheetIdMap) w0)))
            = ledger_tabs (tabs w)).
  { intros (Hu & _ & Hall). apply Forall_cons in Hall as [Hm _].
    by apply (invoke_ledger ctx sheetIdMap (up m) w0). }
  destruct (invoke (up m) (createMigrationContext ctx sheetIdMap) w0)
    as [[[]|cause] w1] eqn:Einv; simpl in Ht, Hc, Hkeep.
  - set (e := Net (UpdateValues LEDGER_APPEND_RANGE [ledger_row m (clock w1)] true)).
    set (w2 := record_event e _).
    destruct (IH w2) as (delta & Ht2 & Hc2 & Hres).
    exists (Invoked (version m) :: batches ++ [e] ++ delta).
    split; [|split].
    + rewrite Ht2. unfold w2. simpl. rewrite Ht. unfold w0. simpl.
      by rewrite <- !app_assoc.
    + rewrite Hc2. unfold w2. simpl. by rewrite Hc.
    + assert (Hproto : ∀ st,
                ledger_protocol None delta = Some st →
                ledger_protocol None (Invoked (version m) :: batches ++ [e] ++ delta)
                = Some st).
      { intros st Hst. simpl ledger_protocol at 1.
        rewrite structural_protocol by done. simpl.
        rewrite bool_decide_eq_true_2 by done. done. }
      assert (Hi : ∀ l, invoked_versions delta = l →
                invoked_versions (Invoked (version m) :: batches ++ [e] ++ delta)
                = version m :: l).
      { intros l <-. change (Invoked (version m) :: batches ++ [e] ++ delta)
          with ([Invoked (version m)] ++ batches ++ [e] ++ delta).
        rewrite !invoked_versions_app, (structural_invoked batches) by done.
        reflexivity. }
      assert (Hr : ∀ l, recorded_versions delta = l →
                recorded_versions (Invoked (version m) :: batches ++ [e] ++ delta)
                = version m :: l).
      { intros l <-. change (Invoked (version m) :: batches ++ [e] ++ delta)
          with ([Invoked (version m)] ++ batches ++ [e] ++ delta).
        rewrite !recorded_versions_app, (structural_recorded batches) by done.
        reflexivity. }
      assert (Hgrow1 : ledger_safe sheetIdMap (m :: rest) (tabs w) →
                ledger_grows (tabs w) (tabs w2) [ledger_row m (clock w)]).
      { intros Hsafe. pose proof Hsafe as (_ & Hne & _).
        destruct (ledger_tabs (tabs w)) as [|tab tl] eqn:El; [done|].
        exists tab, tl. split; [done|]. unfold w2. simpl. rewrite <- Hc.
        apply ledger_tabs_append. by rewrite Hkeep. }
      assert (Hgrow : ∀ l : list Migration,
                (ledger_safe sheetIdMap rest (tabs w2) →
                 ledger_grows (tabs w2)
                   (tabs (snd (run_pending ctx (createMigrationContext ctx sheetIdMap)
                                 rest w2)))
                   ((λ m', ledger_row m' (clock w2)) <$> l)) →
                ledger_safe sheetIdMap (m :: rest) (tabs w) →
                ledger_grows (tabs w)
                  (tabs (snd (run_pending ctx (createMigrationContext ctx sheetIdMap)
                                rest w2)))
                  ((λ m', ledger_row m' (clock w)) <$> (m :: l))).
      { intros l Hl Hsafe. pose proof (Hgrow1 Hsafe) as H1.
        assert (Hcw : clock w2 = clock w) by (unfold w2; simpl; by rewrite Hc).
        rewrite Hcw in Hl.
        apply (ledger_grows_trans _ (tabs w2) _ [ledger_row m (clock w)]); [done|].
        apply Hl. by eapply ledger_safe_step. }
      destruct (fst (run_pending ctx _ rest w2)) as [[]|err].
      * destruct Hres as (Hi' & Hr' & Hp & Hg).
        split; [exact (Hi _ Hi')|]. split; [exact (Hr _ Hr')|].
        split; [by apply Hproto|]. by apply Hgrow.
      * destruct Hres as (before & m' & after & cause & -> & -> & Hwm & Hi' & Hr' & Hp & Hg).
        exists (m :: before), m', after, cause. split; [done|]. split; [done|].
        split; [done|].
        split; [exact (Hi _ Hi')|]. split; [exact (Hr _ Hr')|].
        split; [by apply Hproto|]. by apply Hgrow.
  - exists (Invoked (version m) :: batches). split; [|split].
    + simpl. rewrite Ht. unfold w0. simpl. by rewrite <- app_assoc.
    + simpl. by rewrite Hc.
    + simpl. exists [], m, rest, cause. split; [done|]. split; [done|].
      split; [exists w0; by rewrite Einv|].
      rewrite structural_invoked, structural_recorded by done. split; [done|].
      split; [done|]. split.
      * rewrite <- (app_nil_r batches). by rewrite structural_protocol.
      * intros Hsafe. pose proof Hsafe as (_ & Hne & _).
        apply ledger_grows_same; [done|]. by apply Hkeep.
Qed.

Lemma set_sheet_ids_lookup sheetIdMap sheets t :
  is_Some (set_sheet_ids sheetIdMap sheets !! t)
  ↔ is_Some (sheetIdMap !! t) ∨ t ∈ prop_title <$> sheets.
Proof.
  unfold set_sheet_ids. revert sheetIdMap.
  induction sheets as [|s sheets IH]; intros sheetIdMap; simpl.
  { split; [by left|]. intros [?|[]%elem_of_nil]. done. }
  rewrite IH, elem_of_cons. destruct (decide (prop_title s = t)) as [<-|Hne].
  - rewrite lookup_insert_eq. split; [intros _; right; by left|intros _; left; by eexists].
  - rewrite lookup_insert_ne by done. split; [tauto|]. intros [?|[?|?]]; [tauto|congruence|tauto].
Qed.

Lemma set_sheet_ids_origin sheetIdMap sheets t id :
  set_sheet_ids sheetIdMap sheets !! t = Some id →
  sheetIdMap !! t = Some id ∨ mkProps id t ∈ sheets.
Proof.
  unfold set_sheet_ids. revert sheetIdMap.
  induction sheets as [|s sheets IH]; intros sheetIdMap; simpl; [by left|].
  intros [H|H]%IH; [|right; by apply list_elem_of_further].
  destruct (decide (prop_title s = t)) as [<-|Hne].
  - rewrite lookup_insert_eq in H. injection H as <-. right. destruct s. apply list_elem_of_here.
  - rewrite lookup_insert_ne in H by done. by left.
Qed.

Lemma metadata_origin (ts : list Tab) id t :
  mkProps id t ∈ (λ tab, mkProps (tab_id tab) (tab_title tab)) <$> ts →
  ∃ tab, tab ∈ ts ∧ tab_title tab = t ∧ tab_id tab = id.
Proof.
  intros (tab & [= -> ->] & Hin)%list_elem_of_fmap. by exists tab.
Qed.

Lemma has_ledger_tab ts :
  is_Some (set_sheet_ids ∅ ((λ tab, mkProps (tab_id tab) (tab_title tab)) <$> ts)
           !! MIGRATIONS_SHEET)
  ↔ is_Some (find (titled MIGRATIONS_SHEET) ts).
Proof.
  rewrite set_sheet_ids_lookup, lookup_empty. rewrite <- list_fmap_compose.
  split.
  - intros [[? [=]]|(tab & Ht & Hin)%list_elem_of_fmap]. simpl in Ht.
    apply (find_is_Some _ _ tab Hin). unfold titled. by apply bool_decide_eq_true.
  - intros [tab Hf]. right. apply find_some in Hf as [Hin Ht].
    apply list_elem_of_fmap. exists tab. split; [|by apply list_elem_of_In].
    unfold titled in Ht. simpl. by apply bool_decide_eq_true in Ht.
Qed.

(** Ensuring the ledger only reads the metadata and, when no tab has the
    name of the ledger, adds an empty one. *)
Lemma ensure_ledger_spec ctx w :
  ∃ sheetIdMap prelude,
    ensure_ledger ctx w
    = (Resolved sheetIdMap,
       mkSpreadsheet (ensured_tabs (tabs w)) (clock w) (trace w ++ prelude))
    ∧ invoked_versions prelude = []
    ∧ recorded_versions prelude = []
    ∧ is_Some (sheetIdMap !! MIGRATIONS_SHEET)
    ∧ (∀ sheet id, sheetIdMap !! sheet = Some id →
         ∃ tab, tab ∈ ensured_tabs (tabs w) ∧ tab_title tab = sheet ∧ tab_id tab = id).
Proof.
  unfold ensure_ledger, andThen, getSpreadsheetMetadata, structuralBatchUpdate, resolve,
    ensured_tabs.
  simpl. fold (fmap (M:=list) (λ tab, mkProps (tab_id tab) (tab_title tab)) (tabs w)).
  destruct (decide (is_Some (find (titled MIGRATIONS_SHEET) (tabs w)))) as [Hl|Hl].
  - rewrite !bool_decide_eq_true_2 by (done || by apply has_ledger_tab).
    eexists _, [_]. split; [reflexivity|]. repeat split; try done.
    + by apply has_ledger_tab.
    + intros sheet id [H|H]%set_sheet_ids_origin; [by rewrite lookup_empty in H|].
      by apply metadata_origin.
  - rewrite !bool_decide_eq_false_2 by (done || by rewrite has_ledger_tab).
    eexists _, [Net GetMetadata; Net (StructuralBatch [AddSheet MIGRATIONS_SHEET]);
                Net GetMetadata].
    split. { unfold record_event, with_tabs. simpl. by rewrite <- !app_assoc. }
    repeat split; try done.
    + apply set_sheet_ids_lookup. right. simpl.
      fold (fmap (M:=list) (λ tab, mkProps (tab_id tab) (tab_title tab))
              (tabs w ++ [new_ledger_tab (tabs w)])).
      rewrite <- list_fmap_compose, fmap_app. apply elem_of_app. right.
      apply list_elem_of_here.
    + simpl.
      fold (fmap (M:=list) (λ tab, mkProps (tab_id tab) (tab_title tab))
              (tabs w ++ [new_ledger_tab (tabs w)])).
      intros sheet id [[H|H]%set_sheet_ids_origin|H]%set_sheet_ids_origin.
      * by rewrite lookup_empty in H.
      * apply metadata_origin in H as (tab & Hin & Ht & Hid).
        exists tab. split; [|done]. apply elem_of_app. by left.
      * by apply metadata_origin.
Qed.

Lemma find_app_none {A} (f : A → bool) (l k : list A) :
  find f l = None → find f (l ++ k) = find f k.
Proof.
  induction l as [|x l IH]; simpl; [done|]. destruct (f x); [done|]. apply IH.
Qed.

Lemma find_app_some {A} (f : A → bool) (l k : list A) x :
  find f l = Some x → find f (l ++ k) = Some x.
Proof.
  induction l as [|y l IH]; simpl; [done|]. destruct (f y); [done|]. apply IH.
Qed.

(** Ensuring the ledger does not change the rows of the ledger. *)
Lemma ledger_rows_ensured ts : ledger_rows (ensured_tabs ts) = ledger_rows ts.
Proof.
  unfold ensured_tabs, ledger_rows, tab_rows. case_bool_decide as Hl; [done|].
  destruct (find (titled MIGRATIONS_SHEET) ts) as [tab|] eqn:E; [exfalso; by apply Hl|].
  by rewrite find_app_none.
Qed.

Lemma applied_in_ensured ts : applied_in (ensured_tabs ts) = applied_in ts.
Proof.
  unfold applied_in, read_range. simpl range_sheet.
  fold (ledger_rows (ensured_tabs ts)). fold (ledger_rows ts).
  by rewrite ledger_rows_ensured.
Qed.

(** A run whose versions are distinct is the loop over the pending
    migrations, after the ledger was ensured and read. *)
Lemma runMigrations_eval ctx migrations w :
  duplicate_version ∅ migrations = None →
  ∃ sheetIdMap prelude,
    runMigrations ctx migrations w
    = run_pending ctx (createMigrationContext ctx sheetIdMap)
        (pending_of (applied_in (tabs w)) (merge_sort by_version migrations))
        (mkSpreadsheet (ensured_tabs (tabs w)) (clock w)
           (trace w ++ prelude ++ [Net (GetValues MIGRATIONS_RANGE UNFORMATTED_VALUE)]))
    ∧ invoked_versions prelude = []
    ∧ recorded_versions prelude = []
    ∧ is_Some (sheetIdMap !! MIGRATIONS_SHEET)
    ∧ (∀ sheet id, sheetIdMap !! sheet = Some id →
         ∃ tab, tab ∈ ensured_tabs (tabs w) ∧ tab_title tab = sheet ∧ tab_id tab = id).
Proof.
  intros Hdup. unfold runMigrations. rewrite Hdup.
  destruct (ensure_ledger_spec ctx w) as (sheetIdMap & prelude & E & Hi & Hr & Hl).
  exists sheetIdMap, prelude. split; [|done].
  rewrite (andThen_resolved _ _ _ _ _ E).
  unfold andThen, getSheetValues, record_event. simpl.
  fold (applied_in (ensured_tabs (tabs w))). rewrite applied_in_ensured.
  rewrite <- app_assoc.
  by destruct (pending_of _ _).
Qed.

Lemma elem_of_pending applied migrations m :
  m ∈ pending_of applied (merge_sort by_version migrations)
  ↔ m ∈ migrations ∧ version m ∉ applied.
Proof.
  unfold pending_of. rewrite list_elem_of_filter, merge_sort_Permutation. tauto.
Qed.




(** ** A failed migration *)

Lemma fresh_id_above ts tab : tab ∈ ts → tab_id tab < fresh_id ts.
Proof.
  unfold fresh_id. induction ts as [|t ts IH]; [by intros []%elem_of_nil|].
  simpl. intros [->|Hin]%elem_of_cons; [lia|]. specialize (IH Hin). lia.
Qed.

Lemma ensured_tabs_NoDup ts :
  NoDup (tab_id <$> ts) → NoDup (tab_id <$> ensured_tabs ts).
Proof.
  intros Hnd. unfold ensured_tabs. case_bool_decide; [done|].
  rewrite fmap_app. apply NoDup_app. split; [done|]. split; [|apply NoDup_singleton].
  intros id (tab & -> & Hin)%list_elem_of_fmap [Heq|[]%elem_of_nil]%elem_of_cons.
  simpl in Heq. pose proof (fresh_id_above ts tab Hin). lia.
Qed.

Lemma ensured_tabs_ledger ts : ledger_tabs (ensured_tabs ts) ≠ [].
Proof.
  unfold ensured_tabs. case_bool_decide as Hl.
  - destruct Hl as [tab Hf]. unfold titled in Hf.
    rewrite (find_head_filter (λ tab, tab_title tab = MIGRATIONS_SHEET)) in Hf.
    unfold ledger_tabs. by destruct (filter _ ts).
  - unfold ledger_tabs. rewrite filter_app.
    rewrite (filter_cons_True _ (new_ledger_tab ts)) by done. by destruct (filter _ ts).
Qed.

(** With distinct tab ids, a name other than the one of the ledger does
    not resolve to the ledger. *)
Lemma ledger_untouchable_of_metadata (sheetIdMap : gmap string Z) ts :
  NoDup (tab_id <$> ts) →
  (∀ sheet id, sheetIdMap !! sheet = Some id →
     ∃ tab, tab ∈ ts ∧ tab_title tab = sheet ∧ tab_id tab = id) →
  ledger_untouchable sheetIdMap ts.
Proof.
  intros Hnd Horigin sheet id Hs Hne (tab' & Hid & Hin')%list_elem_of_fmap.
  apply list_elem_of_filter in Hin' as [Hl Hin'].
  destruct (Horigin sheet id Hs) as (tab & Hin & Ht & Hi).
  apply list_elem_of_lookup in Hin as [i Hi1]. apply list_elem_of_lookup in Hin' as [j Hj].
  assert (i = j).
  { eapply NoDup_lookup; [exact Hnd| |]; rewrite list_lookup_fmap.
    - by rewrite Hi1.
    - rewrite Hj. simpl. congruence. }
  subst. congruence.
Qed.

Lemma elem_of_appliedVersions_acc (acc : gset Z) (rows : list row) v :
  v ∈ foldl (λ applied (r : row),
               match js_Number (default VUndefined (r !! 0%nat)) with
               | Some ver => {[ver]} ∪ applied
               | None => applied
               end) acc rows
  ↔ v ∈ acc ∨ ∃ r : row, r ∈ rows ∧ js_Number (default VUndefined (r !! 0%nat)) = Some v.
Proof.
  revert acc. induction rows as [|r rows IH]; intros acc; simpl.
  { split; [by left|]. intros [?|(r & []%elem_of_nil & _)]. done. }
  rewrite IH. split.
  - intros [Hv|(r' & Hr' & Hn)]; [|right; exists r'; split; [by apply list_elem_of_further|done]].
    destruct (js_Number _) as [ver|] eqn:E; [|by left].
    apply elem_of_union in Hv as [->%elem_of_singleton|Hv]; [|by left].
    right. exists r. split; [apply list_elem_of_here|done].
  - intros [Hv|(r' & [->|Hr']%elem_of_cons & Hn)].
    + left. destruct (js_Number _); [|done]. apply elem_of_union. by right.
    + left. rewrite Hn. apply elem_of_union. left. by apply elem_of_singleton.
    + right. by exists r'.
Qed.

Lemma elem_of_appliedVersions rows v :
  v ∈ appliedVersions rows
  ↔ ∃ r : row, r ∈ rows ∧ js_Number (default VUndefined (r !! 0%nat)) = Some v.
Proof.
  unfold appliedVersions. rewrite elem_of_appliedVersions_acc.
  split; [intros [[]%not_elem_of_empty|?]; done|by right].
Qed.

Lemma applied_in_rows ts : applied_in ts = appliedVersions (drop 1 (ledger_rows ts)).
Proof. done. Qed.

(** The versions a later run reads after the ledger has grown: those it
    read before, and those of the rows it has got. *)
Lemma applied_after_growth ts ts' (ms : list Migration) timestamp v :
  ledger_rows ts' = ledger_rows ts ++ ((λ m, ledger_row m timestamp) <$> ms) →
  v ∈ applied_in ts' → v ∈ applied_in ts ∨ v ∈ version <$> ms.
Proof.
  rewrite !applied_in_rows. intros ->.
  rewrite !elem_of_appliedVersions. intros (r & Hr & Hn).
  assert (Hcases : r ∈ drop 1 (ledger_rows ts) ∨ r ∈ (λ m, ledger_row m timestamp) <$> ms).
  { destruct (ledger_rows ts) as [|r0 rows]; simpl in *.
    - right. by eapply elem_of_sublist; [|apply sublist_drop].
    - rewrite drop_0 in *. by apply elem_of_app in Hr. }
  destruct Hcases as [H|(m & -> & Hm)%list_elem_of_fmap].
  - left. by exists r.
  - right. simpl in Hn. injection Hn as <-. apply list_elem_of_fmap. by exists m.
Qed.

Lemma ledger_rows_grown ts ts' rows :
  ledger_grows (ensured_tabs ts) ts' rows → ledger_rows ts' = ledger_rows ts ++ rows.
Proof.
  intros (tab & rest & H1 & H2).
  rewrite <- (ledger_rows_ensured ts), !ledger_rows_head, H1, H2. done.
Qed.



(** ** Running the same migrations again *)

(** Migrations whose versions the ledger lists are skipped: the run
    resolves, calls no procedure, appends no row and leaves the tabs as
    they were once the ledger is ensured. *)
Lemma applied_migrations_are_skipped ctx migrations w :
  NoDup (version <$> migrations) →
  (∀ m, m ∈ migrations → version m ∈ applied_in (tabs w)) →
  ∃ reads,
    runMigrations ctx migrations w
    = (Resolved tt, mkSpreadsheet (ensured_tabs (tabs w)) (clock w) (trace w ++ reads))
    ∧ invoked_versions reads = []
    ∧ recorded_versions reads = [].
Proof.
  intros Hnd Hall.
  assert (Hdup : duplicate_version ∅ migrations = None).
  { apply duplicate_version_None. split; [done|]. intros m _. apply not_elem_of_empty. }
  destruct (runMigrations_eval ctx migrations w Hdup)
    as (sheetIdMap & prelude & E & Hi & Hr & _).
  assert (Hnone : pending_of (applied_in (tabs w)) (merge_sort by_version migrations) = []).
  { apply filter_none, Forall_forall. intros m Hm Hfresh.
    rewrite merge_sort_Permutation in Hm. by apply Hfresh, Hall. }
  rewrite Hnone in E.
  exists (prelude ++ [Net (GetValues MIGRATIONS_RANGE UNFORMATTED_VALUE)]).
  split; [exact E|]. by rewrite invoked_versions_app, recorded_versions_app, Hi, Hr.
Qed.

(** C7 at the migrations of the README on a spreadsheet without ledger.
    The first run resolves and records 1 and 2; the row of 1 is the first
    row of the ledger tab, above the range the runner reads, so 1 is not
    among the applied versions; the second run calls the procedure of 1
    again, appends a second row for it and changes the tab once more. *)
Lemma rerun_calls_recorded_migration_again :
  let first := runMigrations writer readme_migrations tasks_only in
  let second := runMigrations writer readme_migrations (snd first) in
  fst first = Resolved tt
  ∧ ledger_rows (tabs (snd first))
    = [ledger_row add_status_column (clock tasks_only);
       ledger_row create_tags_sheet (clock tasks_only)]
  ∧ read_range (tabs (snd first)) MIGRATIONS_RANGE
    = [ledger_row create_tags_sheet (clock tasks_only)]
  ∧ bool_decide (1 ∈ applied_in (tabs (snd first))) = false
  ∧ fst second = Resolved tt
  ∧ invoked_versions (drop (length (trace (snd first))) (trace (snd second))) = [1]
  ∧ recorded_versions (drop (length (trace (snd first))) (trace (snd second))) = [1]
  ∧ ledger_rows (tabs (snd second))
    = [ledger_row add_status_column (clock tasks_only);
       ledger_row create_tags_sheet (clock tasks_only);
       ledger_row add_status_column (clock tasks_only)]
  ∧ tab_rows "Tasks" (tabs (snd first))
    = [[VStr "id"; VStr "title"; VStr "done"; VStr "status"]]
  ∧ tab_rows "Tasks" (tabs (snd second))
    = [[VStr "id"; VStr "title"; VStr "done"; VStr "status"; VStr "status"]].
Proof. vm_compute. repeat split; reflexivity. Qed.

(** ** The operations of the migration context *)

Lemma tabs_resolve_after_ensure ctx w sheetIdMap w1 :
  ensure_ledger ctx w = (Resolved sheetIdMap, w1) →
  ∀ tab, tab ∈ tabs w → is_Some (sheetIdMap !! tab_title tab).
Proof.
  unfold ensure_ledger, andThen, getSpreadsheetMetadata, structuralBatchUpdate, resolve.
  simpl. fold (fmap (M:=list) (λ tab, mkProps (tab_id tab) (tab_title tab)) (tabs w)).
  intros E tab Hin.
  assert (Hfirst : is_Some (set_sheet_ids ∅
            ((λ tab, mkProps (tab_id tab) (tab_title tab)) <$> tabs w) !! tab_title tab)).
  { apply set_sheet_ids_lookup. right. rewrite <- list_fmap_compose.
    apply list_elem_of_fmap. by exists tab. }
  destruct (bool_decide _); simplify_eq.
  - done.
  - apply set_sheet_ids_lookup. by left.
Qed.

(** C9, amended.  [createSheet] issues [addSheet] for the title it is
    given and resolves nothing.  The four other operations look the tab
    name up in the map of sheet ids the runner built: with an id, they
    issue their structural requests for that id in one batch; without,
    they reject with a schema error and issue nothing.  The map is built
    from the metadata read when the run starts, and read once more when
    the ledger tab had to be created: every tab that exists when the run
    starts resolves, the ledger resolves, and every name that resolves is
    the title of a tab that exists once the ledger is ensured. *)
Theorem context_operations_resolve (ctx : TransportContext) (sheetIdMap : gmap string Z)
    (w : Spreadsheet) :
  (∀ name,
     createSheet (createMigrationContext ctx sheetIdMap) name w
     = structuralBatchUpdate ctx [AddSheet name] w)
  ∧ (∀ sheet id, sheetIdMap !! sheet = Some id →
       (∀ column afterIndex,
          addColumn (createMigrationContext ctx sheetIdMap) sheet column afterIndex w
          = structuralBatchUpdate ctx
              [InsertDimension id (default 0%nat afterIndex)
                 (default 0%nat afterIndex + 1);
               UpdateCells id 0 (default 0%nat afterIndex) column] w)
       ∧ (∀ columnIndex,
            removeColumn (createMigrationContext ctx sheetIdMap) sheet columnIndex w
            = structuralBatchUpdate ctx
                [DeleteDimension id columnIndex (columnIndex + 1)] w)
       ∧ (∀ columnIndex newName,
            renameColumn (createMigrationContext ctx sheetIdMap) sheet columnIndex newName w
            = structuralBatchUpdate ctx [UpdateCells id 0 columnIndex newName] w)
       ∧ (∀ newName,
            renameSheet (createMigrationContext ctx sheetIdMap) sheet newName w
            = structuralBatchUpdate ctx [UpdateSheetProperties id newName] w))
  ∧ (∀ sheet, sheetIdMap !! sheet = None →
       let missing := schemaError ("Sheet " +:+ dq +:+ sheet +:+ dq
                                   +:+ " not found in spreadsheet") in
       (∀ column afterIndex,
          addColumn (createMigrationContext ctx sheetIdMap) sheet column afterIndex w
          = (Rejected missing, w))
       ∧ (∀ columnIndex,
            removeColumn (createMigrationContext ctx sheetIdMap) sheet columnIndex w
            = (Rejected missing, w))
       ∧ (∀ columnIndex newName,
            renameColumn (createMigrationContext ctx sheetIdMap) sheet columnIndex newName w
            = (Rejected missing, w))
       ∧ (∀ newName,
            renameSheet (createMigrationContext ctx sheetIdMap) sheet newName w
            = (Rejected missing, w)))
  ∧ (∀ runMap w1,
       ensure_ledger ctx w = (Resolved runMap, w1) →
       (∀ tab, tab ∈ tabs w → is_Some (runMap !! tab_title tab))
       ∧ is_Some (runMap !! MIGRATIONS_SHEET)
       ∧ (∀ sheet id, runMap !! sheet = Some id →
            ∃ tab, tab ∈ ensured_tabs (tabs w) ∧ tab_title tab = sheet ∧ tab_id tab = id)).
Proof.
  split; [done|]. split; [|split].
  - intros sheet id Hs. simpl. unfold andThen, resolveSheetId. rewrite Hs. done.
  - intros sheet Hs. simpl. unfold andThen, resolveSheetId. rewrite Hs. done.
  - intros runMap w1 E. split; [by eapply tabs_resolve_after_ensure|].
    destruct (ensure_ledger_spec ctx w) as (m & prelude & E' & _ & _ & Hl & Horigin).
    rewrite E in E'. by simplify_eq.
Qed.

(** C9 as stated fails for a tab created earlier in the same run: the
    procedure creates [Tags] and then adds a column to it; the tab is in
    the spreadsheet, but its name is not in the map of the run, and the
    run rejects with the schema error wrapped as a migration error. *)
Lemma created_tab_does_not_resolve_counterexample :
  let run := runMigrations writer [create_then_extend] tasks_only in
  fst run
  = Rejected
      (migrationError
         ("Migration 3 (tags-with-label) failed: Sheet " +:+ dq +:+ "Tags" +:+ dq
          +:+ " not found in spreadsheet")
         3 "tags-with-label"
         (schemaError ("Sheet " +:+ dq +:+ "Tags" +:+ dq +:+ " not found in spreadsheet")))
  ∧ find (titled "Tags") (tabs (snd run)) = Some (mkTab 2 "Tags" [])
  ∧ trace (snd run)
    = [Net GetMetadata;
       Net (StructuralBatch [AddSheet MIGRATIONS_SHEET]);
       Net GetMetadata;
       Net (GetValues MIGRATIONS_RANGE UNFORMATTED_VALUE);
       Invoked 3;
       Net (StructuralBatch [AddSheet "Tags"])].
Proof. vm_compute. repeat split; reflexivity. Qed.

(** A tab of the map resolves to its id, as in the test of the runner;
    a name that is not in the map is rejected and nothing is issued. *)
Lemma context_operations_resolve_witness :
  removeColumn (createMigrationContext writer {[ "CustomSheet" := 77 ]}) "CustomSheet" 0
    tasks_only
  = structuralBatchUpdate writer [DeleteDimension 77 0 1] tasks_only
  ∧ addColumn (createMigrationContext writer {[ "CustomSheet" := 77 ]}) "Tags" "label" None
      tasks_only
    = (Rejected (schemaError ("Sheet " +:+ dq +:+ "Tags" +:+ dq
                              +:+ " not found in spreadsheet")), tasks_only).
Proof.
  destruct (context_operations_resolve writer {[ "CustomSheet" := 77 ]} tasks_only)
    as (_ & Hsome & Hnone & _).
  split.
  - destruct (Hsome "CustomSheet" 77) as (_ & Hremove & _); [reflexivity|].
    apply Hremove.
  - destruct (Hnone "Tags") as (Hadd & _); [reflexivity|]. apply Hadd.
Defined.

(** * The rest of the code *)

(** ** The checks of [createClient] *)

Lemma check_schema_None schemas seen key schema :
  Client.check_schema schemas seen key schema = None
  ↔ sheetName schema ≠ EmptyString
    ∧ headers schema ≠ []
    ∧ (sheetName schema ∉ seen)
    ∧ sheetName schema ≠ MIGRATIONS_SHEET
    ∧ ∀ rel, rel ∈ default [] (relations schema) →
             is_Some (schema_at schemas (targetModel rel)).
Proof.
  unfold Client.check_schema, RESERVED_SHEET_NAMES.
  repeat case_bool_decide; try (split; [done|]; intros (?&?&?&?&?); done).
  { split; [done|]. intros (?&?&?&Hr&?). exfalso. apply Hr.
    by apply list_elem_of_singleton. }
  assert (Hres : sheetName schema ≠ MIGRATIONS_SHEET).
  { intros Heq. by match goal with H : _ ∉ [_] |- _ => apply H, list_elem_of_singleton end. }
  destruct (relations schema) as [rels|]; simpl.
  - destruct (find _ rels) as [rel|] eqn:E.
    + split; [done|]. intros (_&_&_&_&Hall).
      apply find_some in E as [Hin Hnone]. apply bool_decide_eq_true in Hnone.
      apply list_elem_of_In in Hin. destruct (Hall rel Hin) as [s Hs]. congruence.
    + split; [|done]. intros _. repeat split; try done.
      intros rel Hin. apply list_elem_of_In in Hin.
      pose proof (find_none _ _ E rel Hin) as Hf. simpl in Hf.
      apply bool_decide_eq_false in Hf.
      by destruct (schema_at schemas (targetModel rel)); [eexists|].
  - split; [|done]. intros _. repeat split; try done. by intros rel []%elem_of_nil.
Qed.

Lemma check_schema_kind schemas seen key schema err :
  Client.check_schema schemas seen key schema = Some err →
  error_kind err = Some SCHEMA_ERROR.
Proof.
  unfold Client.check_schema. repeat case_bool_decide; try (by intros [= <-]).
  destruct (relations schema) as [rels|]; [|done].
  destruct (find _ rels); [|done]. by intros [= <-].
Qed.

Lemma check_schemas_None schemas seen entries :
  Client.check_schemas schemas seen entries = None
  ↔ NoDup (sheet_names entries)
    ∧ (∀ key schema, (key, schema) ∈ entries →
         sheetName schema ≠ EmptyString
         ∧ headers schema ≠ []
         ∧ (sheetName schema ∉ seen)
         ∧ sheetName schema ≠ MIGRATIONS_SHEET
         ∧ ∀ rel, rel ∈ default [] (relations schema) →
                  is_Some (schema_at schemas (targetModel rel))).
Proof.
  revert seen. induction entries as [|[key schema] rest IH]; intros seen; simpl.
  { split; [|done]. intros _. split; [constructor|]. by intros ?? []%elem_of_nil. }
  destruct (Client.check_schema schemas seen key schema) as [err|] eqn:E.
  - split; [done|]. intros [_ Hall].
    assert (Client.check_schema schemas seen key schema = None); [|congruence].
    apply check_schema_None. apply (Hall key schema), list_elem_of_here.
  - apply check_schema_None in E as (H1 & H2 & H3 & H4 & H5).
    rewrite IH. unfold sheet_names. simpl. rewrite NoDup_cons. split.
    + intros [Hnd Hall]. split; [split; [|done]|].
      * intros (e & He & Hin)%list_elem_of_fmap. destruct e as [k s]. simpl in He.
        destruct (Hall k s Hin) as (_ & _ & Hs & _). apply Hs.
        apply elem_of_union_l, elem_of_singleton. done.
      * intros k s [[= -> ->]|Hin]%elem_of_cons; [done|].
        destruct (Hall k s Hin) as (? & ? & Hs & ? & ?). repeat split; try done.
        intros Hseen. apply Hs. by apply elem_of_union_r.
    + intros [[Hfresh Hnd] Hall]. split; [done|]. intros k s Hin.
      destruct (Hall k s) as (? & ? & Hs & ? & ?); [by apply list_elem_of_further|].
      repeat split; try done.
      intros [Heq%elem_of_singleton|?]%elem_of_union; [|done].
      apply Hfresh. apply list_elem_of_fmap. exists (k, s). by split.
Qed.

Lemma check_schemas_kind schemas seen entries err :
  Client.check_schemas schemas seen entries = Some err →
  error_kind err = Some SCHEMA_ERROR.
Proof.
  revert seen. induction entries as [|[key schema] rest IH]; intros seen; simpl; [done|].
  destruct (Client.check_schema schemas seen key schema) as [err'|] eqn:E.
  - intros [= <-]. by eapply check_schema_kind.
  - apply IH.
Qed.


(** ** Clients without token *)

(** X2.  On a client that was created without token, every operation
    that writes ([create], [update], [delete], [writeAll], [append],
    [migrate], [raw.writeRange], [raw.clearRange]) rejects with the
    permission error and leaves the spreadsheet as it was: no call is
    made, not even a read. *)
Theorem read_only_client_never_writes (config : ClientConfig) (w : Spreadsheet) :
  Repository.isReadOnly config = true →
  error_kind read_only_error = Some PERMISSION_ERROR
  ∧ (∀ schema record options,
       Repository.create config schema record options w = (Rejected read_only_error, w))
  ∧ (∀ schema id changes options,
       Repository.update config schema id changes options w = (Rejected read_only_error, w))
  ∧ (∀ schema id, Repository.delete config schema id w = (Rejected read_only_error, w))
  ∧ (∀ schema records, Client.writeAll config schema records w = (Rejected read_only_error, w))
  ∧ (∀ schema appendSupported records,
       Client.append config schema appendSupported records w = (Rejected read_only_error, w))
  ∧ (∀ migrations, Client.migrate config migrations w = (Rejected read_only_error, w))
  ∧ (∀ range values, Client.raw_writeRange config range values w = (Rejected read_only_error, w))
  ∧ (∀ range, Client.raw_clearRange config range w = (Rejected read_only_error, w)).
Proof.
  intros Hro. split; [done|].
  unfold Repository.create, Repository.update, Repository.delete, Client.writeAll,
    Client.append, Client.migrate, Client.raw_writeRange, Client.raw_clearRange,
    Repository.assertWritable.
  rewrite Hro. repeat split; intros; reflexivity.
Qed.

Lemma read_only_client_never_writes_witness :
  Repository.create shop_readonly Orders (order "o3" "Carol") None (blank shop_tabs)
  = (Rejected read_only_error, blank shop_tabs)
  ∧ Client.migrate shop_readonly readme_migrations (blank shop_tabs)
    = (Rejected read_only_error, blank shop_tabs).
Proof.
  destruct (read_only_client_never_writes shop_readonly (blank shop_tabs) eq_refl)
    as (_ & Hcreate & _ & _ & _ & _ & Hmigrate & _).
  split; [apply Hcreate|apply Hmigrate].
Defined.

(** ** Operations that read *)

Lemma only_reads_resolve {A} (a : A) : only_reads (resolve a).
Proof. intros w. exists []. simpl. rewrite app_nil_r. by destruct w. Qed.

Lemma only_reads_andThen {A B} (m : Async A) (k : A → Async B) :
  only_reads m → (∀ a, only_reads (k a)) → only_reads (andThen m k).
Proof.
  intros Hm Hk w. unfold andThen. destruct (Hm w) as (r1 & E1 & H1).
  destruct (m w) as [[a|e] w1]; simpl in E1; subst w1.
  - destruct (Hk a (mkSpreadsheet (tabs w) (clock w) (trace w ++ r1))) as (r2 & E2 & H2).
    exists (r1 ++ r2). rewrite E2. simpl. rewrite app_assoc, forallb_app, H1, H2. done.
  - by exists r1.
Qed.

Lemma only_reads_getSheetValues ctx range render :
  only_reads (getSheetValues ctx range render).
Proof. intros w. by exists [Net (GetValues range render)]. Qed.

Lemma only_reads_readAllRaw config schema : only_reads (Repository.readAllRaw config schema).
Proof.
  apply only_reads_andThen; [apply only_reads_getSheetValues|].
  intros rows. apply only_reads_resolve.
Qed.

Lemma only_reads_loadRelated records schema includeMap allSchemas ctx :
  only_reads (loadRelated records schema includeMap allSchemas ctx).
Proof.
  unfold loadRelated. destruct includeMap as [|k keys]; [apply only_reads_resolve|].
  destruct (_ <$> related_schemas (k :: keys) allSchemas) as [|range ranges] eqn:E;
    [apply only_reads_resolve|].
  apply only_reads_andThen.
  - intros w. by exists [Net (BatchGet (range :: ranges) UNFORMATTED_VALUE)].
  - intros batchResult. destruct (truthy (primaryKey schema)); apply only_reads_resolve.
Qed.

Lemma only_reads_validateForeignKeys record schema allSchemas ctx changedFields :
  only_reads (validateForeignKeys record schema allSchemas ctx changedFields).
Proof.
  intros w. destruct (validateForeignKeys_spec record schema allSchemas ctx changedFields w)
    as (reads & E & Hr).
  exists reads. by rewrite E.
Qed.


(** ** Writes that are rejected *)

Lemma keeps_tabs_only_reads {A} (m : Async A) : only_reads m → keeps_tabs m.
Proof. intros H w. destruct (H w) as (reads & E & _). by rewrite E. Qed.

Lemma keeps_tabs_resolve {A} (a : A) : keeps_tabs (resolve a).
Proof. done. Qed.

Lemma keeps_tabs_throw {A} (e : thrown) : keeps_tabs (throw (A:=A) e).
Proof. done. Qed.

Lemma keeps_tabs_andThen {A B} (m : Async A) (k : A → Async B) :
  keeps_tabs m → (∀ a, keeps_tabs (k a)) → keeps_tabs (andThen m k).
Proof.
  intros Hm Hk w. unfold andThen. specialize (Hm w).
  destruct (m w) as [[a|e] w1]; simpl in *; [|done]. by rewrite Hk.
Qed.

Lemma rejects_cleanly_keeps {A} (m : Async A) : keeps_tabs m → rejects_cleanly m.
Proof. intros H w err _. apply H. Qed.

Lemma rejects_cleanly_andThen {A B} (m : Async A) (k : A → Async B) :
  keeps_tabs m → (∀ a, rejects_cleanly (k a)) → rejects_cleanly (andThen m k).
Proof.
  intros Hm Hk w err. unfold andThen. specialize (Hm w).
  destruct (m w) as [[a|e] w1]; simpl in *; [|done].
  intros Hrej. by rewrite (Hk a w1 err Hrej).
Qed.

Lemma rejects_cleanly_resolving {A} (m : Async A) :
  (∀ w, ∃ a, fst (m w) = Resolved a) → rejects_cleanly m.
Proof. intros H w err Hrej. destruct (H w) as [a Ha]. congruence. Qed.

Lemma keeps_tabs_assertWritable config : keeps_tabs (Repository.assertWritable config).
Proof. unfold Repository.assertWritable. by destruct (Repository.isReadOnly config). Qed.

Lemma keeps_tabs_run_validate schema entity :
  keeps_tabs (Repository.run_validate schema entity).
Proof.
  unfold Repository.run_validate. destruct (validate schema) as [check|]; [|done].
  by destruct (check entity).
Qed.

Lemma keeps_tabs_run_validate_all schema records :
  keeps_tabs (Client.run_validate_all schema records).
Proof.
  unfold Client.run_validate_all. destruct (validate schema) as [check|]; [|done].
  induction records as [|r rest IH]; simpl; [done|]. by destruct (check r).
Qed.

Lemma keeps_tabs_fk_step (options : option WriteOptions) record schema allSchemas ctx
    changedFields :
  keeps_tabs (if skips_fk options then resolve tt
              else validateForeignKeys record schema allSchemas ctx changedFields).
Proof.
  destruct (skips_fk options); [done|].
  apply keeps_tabs_only_reads, only_reads_validateForeignKeys.
Qed.


(** ** Creating and finding *)

Lemma put_rows_end (vs g : list row) : put_rows (length g) vs g = g ++ vs.
Proof.
  unfold put_rows. rewrite Nat.sub_diag. simpl. rewrite app_nil_r, take_ge by lia.
  rewrite drop_ge by lia. by rewrite app_nil_r.
Qed.

Lemma parse_rows_app schema i (a b : list row) :
  parse_rows schema i (a ++ b)
  = parse_rows schema i a ++ parse_rows schema (i + length a) b.
Proof.
  revert i. induction a as [|r a IH]; intros i; simpl.
  - by rewrite Nat.add_0_r.
  - rewrite IH. replace (S i + length a)%nat with (i + S (length a))%nat by lia.
    by destruct (parseRow schema r i).
Qed.

Lemma tab_rows_alter_other t t' f ts :
  t ≠ t' → tab_rows t (alter_rows t' f ts) = tab_rows t ts.
Proof.
  intros Hne. unfold tab_rows. induction ts as [|tab ts IH]; simpl; [done|].
  destruct (titled t' tab) eqn:Et'; simpl.
  - unfold titled in *. simpl. apply bool_decide_eq_true in Et'.
    rewrite !bool_decide_eq_false_2 by congruence. done.
  - destruct (titled t tab); [done|]. apply IH.
Qed.

Lemma alter_rows_ext_at t f g ts tab :
  find (titled t) ts = Some tab → f (tab_cells tab) = g (tab_cells tab) →
  alter_rows t f ts = alter_rows t g ts.
Proof.
  intros Hfind Heq. induction ts as [|tab' ts IH]; simpl in *; [done|].
  destruct (titled t tab').
  - injection Hfind as ->. by rewrite Heq.
  - by rewrite IH.
Qed.

(** The rows of the tab after [create] or [append] have added rows: the
    header is written first when the tab is empty. *)
Lemma append_after_header (header : row) (rows cells : list row) t :
  append_rows (mkRange t 1) rows
    (if bool_decide (length cells = 0%nat) then put_rows 0 [header] cells else cells)
  = (if bool_decide (cells = []) then [header] else cells) ++ rows.
Proof.
  unfold append_rows. cbn [range_row].
  destruct cells as [|c cells].
  - simpl. unfold put_rows. simpl. by rewrite drop_nil, app_nil_r.
  - rewrite !bool_decide_eq_false_2 by done.
    replace (length (c :: cells) `max` (1 - 1))%nat with (length (c :: cells))
      by (simpl; lia).
    apply put_rows_end.
Qed.

(** [create], once the checks have passed, on a tab that exists. *)
Lemma create_eval config schema record options w tab :
  Repository.isReadOnly config = false →
  standard_ranges schema →
  find (titled (sheetName schema)) (tabs w) = Some tab →
  (∀ check, validate schema = Some check →
            check (Repository.applyDefaults schema record) = None) →
  (∀ pk e, truthy (primaryKey schema) = Some pk → e ∈ table_records schema w →
           prop e pk ≠ prop (Repository.applyDefaults schema record) pk) →
  (skips_fk options = false →
   fk_first_violation (schemas config) (tabs w) None
     (Repository.applyDefaults schema record) schema = None) →
  ∃ w',
    Repository.create config schema record options w
    = (Resolved (Repository.applyDefaults schema record), w')
    ∧ tabs w'
      = alter_rows (sheetName schema)
          (λ cells, (if bool_decide (cells = []) then [header_row schema] else cells)
                    ++ [toRow schema (Repository.applyDefaults schema record)])
          (tabs w).
Proof.
  intros Hw (Hread & Hwrite & Hclear) Htab Hval Hdup Hfk.
  set (entity := Repository.applyDefaults schema record) in *.
  assert (Hkey : ∃ w1,
            match truthy (primaryKey schema) with
            | Some pk =>
                let! existing := Repository.readAllRaw config schema in
                match find (λ e, strict_eq (prop e pk) (prop entity pk)) existing with
                | Some _ => throw (Repository.duplicate_issue pk (prop entity pk))
                | None => resolve tt
                end
            | None => resolve tt
            end w = (Resolved tt, w1) ∧ tabs w1 = tabs w).
  { destruct (truthy (primaryKey schema)) as [pk|] eqn:Hpk; [|by exists w].
    eexists. unfold Repository.readAllRaw, andThen, getSheetValues, resolve. simpl.
    rewrite find_none_of; [done|].
    intros e He. unfold strict_eq. apply bool_decide_eq_false. by apply (Hdup pk). }
  destruct Hkey as (w1 & Hkey & Htabs1).
  assert (Hstep : ∃ w2,
            (if skips_fk options then resolve tt
             else validateForeignKeys entity schema (schemas config)
                    (Repository.ctx config) None) w1 = (Resolved tt, w2)
            ∧ tabs w2 = tabs w).
  { destruct (skips_fk options) eqn:Hs; [by exists w1|].
    destruct (validateForeignKeys_spec entity schema (schemas config)
                (Repository.ctx config) None w1) as (reads & E & _).
    rewrite Htabs1, (Hfk eq_refl) in E. eexists. split; [exact E|done]. }
  destruct Hstep as (w2 & Hstep & Htabs2).
  assert (Hcells : ∀ cells : list row,
            append_rows (mkRange (sheetName schema) 1) [toRow schema entity]
              (if bool_decide (length cells = 0%nat)
               then put_rows 0 [header_row schema] cells else cells)
            = (if bool_decide (cells = []) then [header_row schema] else cells)
              ++ [toRow schema entity]).
  { intros cells. apply append_after_header. }
  assert (Hc : Repository.create config schema record options w
               = (let! rawRows := getSheetValues (Repository.ctx config) (writeRange schema)
                                    FORMATTED_VALUE in
                  do! (if bool_decide (length rawRows = 0%nat)
                       then updateSheet (Repository.ctx config) (writeRange schema)
                              [header_row schema] false
                       else resolve tt) in
                  do! updateSheet (Repository.ctx config) (writeRange schema)
                        [toRow schema entity] true in
                  resolve entity) w2).
  { unfold Repository.create, Repository.assertWritable, Repository.withWriteLock.
    rewrite Hw. rewrite (andThen_resolved _ _ w tt w) by done.
    rewrite (andThen_resolved _ _ w tt w) by (by apply run_validate_accepts).
    fold entity. rewrite (andThen_resolved _ _ _ _ _ Hkey).
    by rewrite (andThen_resolved _ _ _ _ _ Hstep). }
  rewrite Hc, Hwrite. unfold andThen, getSheetValues, resolve, read_range. simpl.
  rewrite Htabs2, drop_0, (tab_rows_found _ _ _ Htab).
  case_bool_decide as Hlen; simpl; rewrite ?Htabs2; eexists; (split; [reflexivity|]); simpl.
  - rewrite alter_rows_alter. apply (alter_rows_ext_at _ _ _ _ tab Htab). simpl.
    rewrite <- Hcells. by rewrite bool_decide_eq_true_2.
  - apply (alter_rows_ext_at _ _ _ _ tab Htab).
    rewrite <- Hcells. by rewrite bool_decide_eq_false_2.
Qed.


Lemma table_records_added schema w w' tab (rows : list row) (added : list obj) :
  standard_ranges schema →
  find (titled (sheetName schema)) (tabs w) = Some tab →
  tabs w'
  = alter_rows (sheetName schema)
      (λ cells, (if bool_decide (cells = []) then [header_row schema] else cells) ++ rows)
      (tabs w) →
  rows = toRow schema <$> added →
  Forall (parses_back schema) added →
  tab_rows (sheetName schema) (tabs w')
  = (if bool_decide (tab_cells tab = []) then [header_row schema] else tab_cells tab) ++ rows
  ∧ table_records schema w' = table_records schema w ++ added.
Proof.
  intros (Hread & _ & _) Htab Htabs -> Hback.
  assert (Hrows : tab_rows (sheetName schema) (tabs w')
                  = (if bool_decide (tab_cells tab = []) then [header_row schema]
                     else tab_cells tab) ++ (toRow schema <$> added)).
  { rewrite Htabs. by rewrite (tab_rows_alter _ _ _ tab Htab). }
  split; [done|].
  unfold table_records, read_range. rewrite Hread. simpl.
  rewrite Hrows, (tab_rows_found _ _ _ Htab).
  destruct (tab_cells tab) as [|c cells]; simpl.
  - rewrite drop_0. by apply parse_rows_toRow.
  - rewrite !drop_0, parse_rows_app. f_equal. by apply parse_rows_toRow.
Qed.

Lemma findById_eval config schema pk id w :
  truthy (primaryKey schema) = Some pk →
  Repository.findById config schema id w
  = (Resolved (find (λ r, strict_eq (prop r pk) id) (table_records schema w)),
     record_event (Net (GetValues (readRange schema) UNFORMATTED_VALUE)) w).
Proof. intros Hpk. unfold Repository.findById. by rewrite Hpk. Qed.

(** X5.  On a client that can write, with the standard ranges and a tab
    for the schema: when the record, once the defaults are applied,
    passes the validation of the schema, has a primary key no record of
    the table has, violates no relation (or the check is skipped) and
    parses back from its row, [create] resolves with it and adds its row
    below the rows of the tab, after the header when the tab was empty;
    the records of the table are the ones it had and then the new one,
    the other tabs keep their rows, and primary keys that were distinct
    stay distinct. *)
Theorem create_appends (config : ClientConfig) (schema : SheetSchema) (record : obj)
    (options : option WriteOptions) (w : Spreadsheet) (tab : Tab) :
  Repository.isReadOnly config = false →
  standard_ranges schema →
  find (titled (sheetName schema)) (tabs w) = Some tab →
  (∀ check, validate schema = Some check →
            check (Repository.applyDefaults schema record) = None) →
  (∀ pk e, truthy (primaryKey schema) = Some pk → e ∈ table_records schema w →
           prop e pk ≠ prop (Repository.applyDefaults schema record) pk) →
  (skips_fk options = false →
   fk_first_violation (schemas config) (tabs w) None
     (Repository.applyDefaults schema record) schema = None) →
  parses_back schema (Repository.applyDefaults schema record) →
  ∃ w',
    Repository.create config schema record options w
    = (Resolved (Repository.applyDefaults schema record), w')
    ∧ tab_rows (sheetName schema) (tabs w')
      = (if bool_decide (tab_cells tab = []) then [header_row schema] else tab_cells tab)
        ++ [toRow schema (Repository.applyDefaults schema record)]
    ∧ table_records schema w'
      = table_records schema w ++ [Repository.applyDefaults schema record]
    ∧ (∀ t, t ≠ sheetName schema → tab_rows t (tabs w') = tab_rows t (tabs w))
    ∧ (∀ pk, truthy (primaryKey schema) = Some pk →
             NoDup ((λ r, prop r pk) <$> table_records schema w) →
             NoDup ((λ r, prop r pk) <$> table_records schema w')).
Proof.
  intros Hw Hstd Htab Hval Hdup Hfk Hback.
  destruct (create_eval config schema record options w tab) as (w' & Hc & Htabs);
    try done.
  destruct (table_records_added schema w w' tab
              [toRow schema (Repository.applyDefaults schema record)]
              [Repository.applyDefaults schema record]) as [Hrows Hrecords]; try done.
  { by constructor. }
  exists w'. split; [done|]. split; [done|]. split; [done|]. split.
  - intros t Ht. rewrite Htabs. by apply tab_rows_alter_other.
  - intros pk Hpk Hnd. rewrite Hrecords, fmap_app. apply NoDup_app.
    split; [done|]. split; [|apply NoDup_singleton].
    intros v (e & -> & He)%list_elem_of_fmap [Heq|[]%elem_of_nil]%elem_of_cons.
    by apply (Hdup pk e).
Qed.

(** A third order is created in the shop: its row comes below the two
    rows of the tab, and the table has three records. *)
Lemma create_appends_witness :
  ∃ w',
    Repository.create shop Orders (order "o3" "Carol") None (blank shop_tabs)
    = (Resolved (order "o3" "Carol"), w')
    ∧ tab_rows "Orders" (tabs w')
      = [[VStr "id"; VStr "customer"]; [VStr "o1"; VStr "Alice"]; [VStr "o2"; VStr "Bob"];
         [VStr "o3"; VStr "Carol"]]
    ∧ table_records Orders w' = [order "o1" "Alice"; order "o2" "Bob"; order "o3" "Carol"].
Proof.
  destruct (create_appends shop Orders (order "o3" "Carol") None (blank shop_tabs)
              (mkTab 0 "Orders" [[VStr "id"; VStr "customer"];
                                 [VStr "o1"; VStr "Alice"];
                                 [VStr "o2"; VStr "Bob"]]))
    as (w' & Hc & Hrows & Hrecords & _).
  - reflexivity.
  - repeat split; reflexivity.
  - reflexivity.
  - intros check [= <-]. vm_compute. reflexivity.
  - intros pk e [= <-]. rewrite shop_orders_records.
    intros [->|[->|[]%elem_of_nil]%elem_of_cons]%elem_of_cons; vm_compute; discriminate.
  - intros _. reflexivity.
  - intros j. vm_compute. reflexivity.
  - exists w'. split; [exact Hc|]. split; [exact Hrows|].
    rewrite Hrecords, shop_orders_records. reflexivity.
Defined.



(** ** Deleting a record that is there *)

Lemma find_filter_implied {A} (f : A → bool) (P : A → Prop) `{!∀ x, Decision (P x)}
    (l : list A) :
  (∀ x, f x = true → P x) → find f (filter P l) = find f l.
Proof.
  intros Himp. induction l as [|x l IH]; [done|].
  rewrite filter_cons. destruct (decide (P x)) as [Hp|Hp]; simpl.
  - by rewrite IH.
  - destruct (f x) eqn:E; [by destruct Hp; apply Himp|done].
Qed.

(** X7.  On a client that can write, for a schema with a primary key and
    the standard ranges, over a table whose records parse back from their
    rows: [delete] resolves and the records of the table are then the
    ones whose primary key is not the id, in their order; [findById] no
    longer finds the id, finds under every other id what it found before,
    and the other tabs keep their rows. *)
Theorem delete_removes (config : ClientConfig) (schema : SheetSchema) (pk : string)
    (id : value) (w : Spreadsheet) :
  Repository.isReadOnly config = false →
  truthy (primaryKey schema) = Some pk →
  standard_ranges schema →
  Forall (parses_back schema) (table_records schema w) →
  ∃ w',
    Repository.delete config schema id w = (Resolved tt, w')
    ∧ table_records schema w' = filter (λ r, prop r pk ≠ id) (table_records schema w)
    ∧ fst (Repository.findById config schema id w') = Resolved None
    ∧ (∀ id', id' ≠ id →
              fst (Repository.findById config schema id' w')
              = fst (Repository.findById config schema id' w))
    ∧ (∀ t, t ≠ sheetName schema → tab_rows t (tabs w') = tab_rows t (tabs w)).
Proof.
  intros Hw Hpk Hstd Hback.
  pose proof (delete_eval config schema pk id w Hw Hpk) as E. simpl in E.
  eexists. split; [exact E|]. simpl tabs.
  assert (Hne : header_row schema :: (toRow schema <$> kept schema pk id w) ≠ []) by done.
  assert (Hrecords :
    parse_rows schema 0
      (read_range
         (alter_rows (range_sheet (writeRange schema))
            (put_rows (range_row (writeRange schema) - 1)
               (header_row schema :: (toRow schema <$> kept schema pk id w)))
            (alter_rows (range_sheet (clearRange schema)) (clear_rows (clearRange schema))
               (tabs w)))
         (readRange schema))
    = kept schema pk id w).
  { rewrite (delete_tabs schema _ (tabs w) Hstd Hne).
    eapply (records_after_rewrite schema _ w); try done.
    - unfold kept. apply Forall_forall. intros r Hr.
      apply list_elem_of_filter in Hr as [_ Hr]. by eapply Forall_forall in Hback.
    - intros Hnone. unfold kept. by rewrite table_records_missing. }
  split; [exact Hrecords|]. split; [|split].
  - rewrite (findById_eval _ _ pk) by done. simpl. f_equal.
    unfold table_records. simpl tabs. rewrite Hrecords. unfold kept.
    apply find_none_of. intros r [Hr _]%list_elem_of_filter.
    unfold strict_eq. by apply bool_decide_eq_false.
  - intros id' Hid'. rewrite !(findById_eval _ _ pk) by done. simpl. f_equal.
    unfold table_records at 1. simpl tabs. rewrite Hrecords. unfold kept.
    apply find_filter_implied. intros r Hr. unfold strict_eq in Hr.
    apply bool_decide_eq_true in Hr. congruence.
  - intros t Ht. rewrite (delete_tabs schema _ (tabs w) Hstd Hne).
    by apply tab_rows_alter_other.
Qed.

Lemma delete_removes_witness :
  ∃ w',
    Repository.delete shop Orders (VStr "o1") (blank shop_tabs) = (Resolved tt, w')
    ∧ table_records Orders w' = [order "o2" "Bob"]
    ∧ fst (Repository.findById shop Orders (VStr "o1") w') = Resolved None
    ∧ fst (Repository.findById shop Orders (VStr "o2") w')
      = Resolved (Some (order "o2" "Bob")).
Proof.
  destruct (delete_removes shop Orders "id" (VStr "o1") (blank shop_tabs))
    as (w' & Hd & Hrecords & Hgone & Hothers & _).
  - reflexivity.
  - reflexivity.
  - repeat split; reflexivity.
  - exact shop_orders_parse_back.
  - exists w'. split; [exact Hd|]. split; [|split; [exact Hgone|]].
    + rewrite Hrecords, shop_orders_records. vm_compute. reflexivity.
    + rewrite (Hothers (VStr "o2")) by (vm_compute; discriminate). reflexivity.
Defined.

(** ** Updates that are rejected *)

(** X8.  On a client that can write, for a schema with a primary key:
    when no record of the table has the id, [update] rejects with the
    validation error whose one issue names the primary key and carries
    the id; when the record is found and the merged record does not pass
    the validation of the schema, it rejects with what the validation
    throws.  In both cases the only call made is the read of the table. *)
Theorem update_rejections (config : ClientConfig) (schema : SheetSchema) (pk : string)
    (id : value) (changes : obj) (options : option WriteOptions) (w : Spreadsheet) :
  Repository.isReadOnly config = false →
  truthy (primaryKey schema) = Some pk →
  ((∀ r, r ∈ table_records schema w → prop r pk ≠ id) →
   Repository.update config schema id changes options w
   = (Rejected (Repository.not_found_issue pk id),
      record_event (Net (GetValues (readRange schema) UNFORMATTED_VALUE)) w)
   ∧ error_kind (Repository.not_found_issue pk id) = Some VALIDATION_ERROR
   ∧ error_issues (Repository.not_found_issue pk id) = [mkIssue pk "Record not found" id])
  ∧ (∀ index prior check err,
       findIndex (λ r, strict_eq (prop r pk) id) (table_records schema w) = Some index →
       table_records schema w !! index = Some prior →
       validate schema = Some check →
       check (changes ∪ prior) = Some err →
       Repository.update config schema id changes options w
       = (Rejected err,
          record_event (Net (GetValues (readRange schema) UNFORMATTED_VALUE)) w)).
Proof.
  intros Hw Hpk. split.
  - intros Habsent. split; [|done].
    unfold Repository.update, Repository.assertWritable, Repository.withWriteLock.
    rewrite Hw. rewrite (andThen_resolved _ _ w tt w) by done.
    rewrite (andThen_resolved _ _ w (table_records schema w)
               (record_event (Net (GetValues (readRange schema) UNFORMATTED_VALUE)) w))
      by done.
    rewrite Hpk.
    destruct (findIndex _ (table_records schema w)) as [index|] eqn:E; [|done].
    apply findIndex_Some in E as (r & Hr & Hf & _). unfold strict_eq in Hf.
    apply bool_decide_eq_true in Hf. exfalso. apply (Habsent r); [|done].
    by eapply list_elem_of_lookup_2.
  - intros index prior check err Hidx Hprior Hcheck Herr.
    unfold Repository.update, Repository.assertWritable, Repository.withWriteLock.
    rewrite Hw. rewrite (andThen_resolved _ _ w tt w) by done.
    rewrite (andThen_resolved _ _ w (table_records schema w)
               (record_event (Net (GetValues (readRange schema) UNFORMATTED_VALUE)) w))
      by done.
    rewrite Hpk, Hidx, Hprior. simpl default.
    apply andThen_rejected. unfold Repository.run_validate. by rewrite Hcheck, Herr.
Qed.

Lemma update_rejections_witness :
  Repository.update shop Orders (VStr "o9") {[ "customer" := VStr "Zed" ]} None
    (blank shop_tabs)
  = (Rejected (Repository.not_found_issue "id" (VStr "o9")),
     record_event (Net (GetValues (readRange Orders) UNFORMATTED_VALUE)) (blank shop_tabs))
  ∧ ∃ err,
      Repository.update shop Orders (VStr "o1") {[ "customer" := VNull ]} None
        (blank shop_tabs)
      = (Rejected err,
         record_event (Net (GetValues (readRange Orders) UNFORMATTED_VALUE))
           (blank shop_tabs))
      ∧ issue_field <$> error_issues err = ["customer"].
Proof.
  split.
  - destruct (update_rejections shop Orders "id" (VStr "o9") {[ "customer" := VStr "Zed" ]}
                None (blank shop_tabs) eq_refl eq_refl) as [Hmissing _].
    apply Hmissing. intros r. rewrite shop_orders_records.
    intros [->|[->|[]%elem_of_nil]%elem_of_cons]%elem_of_cons; vm_compute; discriminate.
  - destruct (update_rejections shop Orders "id" (VStr "o1") {[ "customer" := VNull ]}
                None (blank shop_tabs) eq_refl eq_refl) as [_ Hinvalid].
    eexists. split.
    + eapply (Hinvalid 0%nat (order "o1" "Alice")).
      * vm_compute. reflexivity.
      * vm_compute. reflexivity.
      * reflexivity.
      * vm_compute. reflexivity.
    + vm_compute. reflexivity.
Defined.

(** ** Writing and appending many records *)

Lemma validate_all_accepts check (records : list obj) w :
  Forall (λ r, check r = None) records →
  Client.validate_all check records w = (Resolved tt, w).
Proof.
  induction 1 as [|r rest Hr _ IH]; simpl; [done|]. by rewrite Hr.
Qed.

Lemma run_validate_all_accepts schema (records : list obj) w :
  (∀ check, validate schema = Some check → Forall (λ r, check r = None) records) →
  Client.run_validate_all schema records w = (Resolved tt, w).
Proof.
  intros H. unfold Client.run_validate_all.
  destruct (validate schema) as [check|]; [|done].
  by apply validate_all_accepts, H.
Qed.

Lemma validate_all_rejects check (before after : list obj) r err w :
  Forall (λ r, check r = None) before → check r = Some err →
  Client.validate_all check (before ++ r :: after) w = (Rejected err, w).
Proof.
  induction 1 as [|r' rest Hr' _ IH]; simpl; intros Hr.
  - by rewrite Hr.
  - rewrite Hr'. by apply IH.
Qed.

(** X9.  On a client that can write, with the standard ranges and a tab
    for the schema: when every record passes the validation of the schema
    and parses back from its row, [writeAll] resolves, the tab holds the
    header and the rows of the records, and reading the table gives the
    records back, in order; the other tabs keep their rows.  With no
    record, the tab is left with its header alone. *)
Theorem writeAll_round_trip (config : ClientConfig) (schema : SheetSchema)
    (records : list obj) (w : Spreadsheet) (tab : Tab) :
  Repository.isReadOnly config = false →
  standard_ranges schema →
  find (titled (sheetName schema)) (tabs w) = Some tab →
  (∀ check, validate schema = Some check → Forall (λ r, check r = None) records) →
  Forall (parses_back schema) records →
  ∃ w',
    Client.writeAll config schema records w = (Resolved tt, w')
    ∧ tab_rows (sheetName schema) (tabs w') = header_row schema :: (toRow schema <$> records)
    ∧ table_records schema w' = records
    ∧ fst (Repository.readAllRaw config schema w') = Resolved records
    ∧ (∀ t, t ≠ sheetName schema → tab_rows t (tabs w') = tab_rows t (tabs w))
    ∧ trace w' = trace w ++
        [Net (ClearValues (clearRange schema));
         Net (UpdateValues (writeRange schema)
                (header_row schema :: (toRow schema <$> records)) false)].
Proof.
  intros Hw Hstd Htab Hval Hback.
  assert (Hne : header_row schema :: (toRow schema <$> records) ≠ []) by done.
  assert (Heval : Client.writeAll config schema records w
    = (Resolved tt,
       mkSpreadsheet
         (alter_rows (sheetName schema)
            (λ _, header_row schema :: (toRow schema <$> records)) (tabs w))
         (clock w)
         (trace w ++
            [Net (ClearValues (clearRange schema));
             Net (UpdateValues (writeRange schema)
                    (header_row schema :: (toRow schema <$> records)) false)]))).
  { unfold Client.writeAll, Repository.assertWritable, Repository.withWriteLock.
    rewrite Hw. rewrite (andThen_resolved _ _ w tt w) by done.
    rewrite (andThen_resolved _ _ w tt w) by (by apply run_validate_all_accepts).
    unfold andThen, Transport.clearRange, updateSheet, record_event, with_tabs. simpl.
    rewrite (delete_tabs schema _ (tabs w) Hstd Hne). by rewrite <- !app_assoc. }
  eexists. split; [exact Heval|]. simpl tabs. simpl trace.
  assert (Hrecords : parse_rows schema 0
            (read_range
               (alter_rows (sheetName schema)
                  (λ _, header_row schema :: (toRow schema <$> records)) (tabs w))
               (readRange schema)) = records).
  { eapply (records_after_rewrite schema _ w); try done. intros Hnone. congruence. }
  split; [by rewrite (tab_rows_alter _ _ _ tab Htab)|].
  split; [exact Hrecords|]. split; [|split; [|done]].
  - unfold Repository.readAllRaw, andThen, getSheetValues, resolve. simpl.
    by rewrite Hrecords.
  - intros t Ht. by apply tab_rows_alter_other.
Qed.

Lemma writeAll_round_trip_witness :
  ∃ w',
    Client.writeAll shop Orders [order "o7" "Gil"] (blank shop_tabs) = (Resolved tt, w')
    ∧ tab_rows "Orders" (tabs w') = [[VStr "id"; VStr "customer"]; [VStr "o7"; VStr "Gil"]]
    ∧ fst (Repository.readAllRaw shop Orders w') = Resolved [order "o7" "Gil"]
    ∧ ∃ w'',
        Client.writeAll shop Orders [] w' = (Resolved tt, w'')
        ∧ tab_rows "Orders" (tabs w'') = [[VStr "id"; VStr "customer"]].
Proof.
  destruct (writeAll_round_trip shop Orders [order "o7" "Gil"] (blank shop_tabs)
              (mkTab 0 "Orders" [[VStr "id"; VStr "customer"];
                                 [VStr "o1"; VStr "Alice"];
                                 [VStr "o2"; VStr "Bob"]]))
    as (w' & Hwrite & Hrows & _ & Hread & _ & _).
  - reflexivity.
  - repeat split; reflexivity.
  - reflexivity.
  - intros check [= <-]. repeat constructor.
  - repeat constructor; intros j; vm_compute; reflexivity.
  - exists w'. split; [exact Hwrite|]. split; [exact Hrows|]. split; [exact Hread|].
    assert (Htab : ∃ tab, find (titled (sheetName Orders)) (tabs w') = Some tab).
    { destruct (find (titled (sheetName Orders)) (tabs w')) as [tab|] eqn:E; [by eexists|].
      apply tab_rows_missing in E. rewrite Hrows in E. discriminate. }
    destruct Htab as [tab Htab].
    destruct (writeAll_round_trip shop Orders [] w' tab)
      as (w'' & Hwrite' & Hrows' & _).
    + reflexivity.
    + repeat split; reflexivity.
    + exact Htab.
    + intros check _. constructor.
    + constructor.
    + exists w''. split; [exact Hwrite'|exact Hrows'].
Defined.

(** X10.  [writeAll] and [append] validate every record before the first
    call: when the records before [r] pass the validation of the schema
    and [r] does not, they reject with what the validation throws for
    [r], and the spreadsheet, trace included, is as it was. *)
Theorem batch_validation_comes_first (config : ClientConfig) (schema : SheetSchema)
    (check : obj → option thrown) (before after : list obj) (r : obj) (err : thrown)
    (w : Spreadsheet) :
  Repository.isReadOnly config = false →
  validate schema = Some check →
  Forall (λ r', check r' = None) before →
  check r = Some err →
  Client.writeAll config schema (before ++ r :: after) w = (Rejected err, w)
  ∧ (∀ appendSupported, appendSupported ≠ Some false →
       Client.append config schema appendSupported (before ++ r :: after) w
       = (Rejected err, w)).
Proof.
  intros Hw Hcheck Hbefore Hr.
  assert (Hrej : Client.run_validate_all schema (before ++ r :: after) w = (Rejected err, w)).
  { unfold Client.run_validate_all. rewrite Hcheck. by apply validate_all_rejects. }
  split.
  - unfold Client.writeAll, Repository.assertWritable, Repository.withWriteLock.
    rewrite Hw. rewrite (andThen_resolved _ _ w tt w) by done.
    by apply andThen_rejected.
  - intros appendSupported Hsup.
    unfold Client.append, Repository.assertWritable, Repository.withWriteLock.
    rewrite Hw. rewrite (andThen_resolved _ _ w tt w) by done.
    rewrite bool_decide_eq_false_2 by done. by apply andThen_rejected.
Qed.

Lemma batch_validation_comes_first_witness :
  ∃ err,
    Client.writeAll shop Orders
      [order "o7" "Gil"; {[ "id" := VStr "o8" ]}; order "o9" "Ian"] (blank shop_tabs)
    = (Rejected err, blank shop_tabs)
    ∧ issue_field <$> error_issues err = ["customer"].
Proof.
  eexists. split.
  - eapply (batch_validation_comes_first shop Orders _ [order "o7" "Gil"]
              [order "o9" "Ian"] {[ "id" := VStr "o8" ]} _ (blank shop_tabs)).
    + reflexivity.
    + reflexivity.
    + repeat constructor.
    + vm_compute. reflexivity.
  - vm_compute. reflexivity.
Defined.



(** ** Ensuring the tabs of the schemas *)

Lemma add_sheets ts (names : list string) :
  ∃ added,
    foldl apply_request ts (AddSheet <$> names) = ts ++ added
    ∧ tab_title <$> added = names
    ∧ Forall (λ tab, tab_cells tab = []) added.
Proof.
  revert ts. induction names as [|t names IH]; intros ts.
  { exists []. simpl. by rewrite app_nil_r. }
  destruct (IH (ts ++ [mkTab (fresh_id ts) t []])) as (added & E & Ht & Hc).
  exists (mkTab (fresh_id ts) t [] :: added).
  change (foldl apply_request ts (AddSheet <$> t :: names))
    with (foldl apply_request (ts ++ [mkTab (fresh_id ts) t []]) (AddSheet <$> names)).
  rewrite E, <- app_assoc. split; [done|].
  split; [rewrite fmap_cons; simpl; by rewrite Ht|by constructor].
Qed.

Lemma metadata_titles (ts : list Tab) (t : string) :
  t ∈ (list_to_set (prop_title <$> map (λ tab, mkProps (tab_id tab) (tab_title tab)) ts)
       : gset string)
  ↔ t ∈ tab_title <$> ts.
Proof.
  rewrite elem_of_list_to_set.
  change (map (λ tab, mkProps (tab_id tab) (tab_title tab)) ts)
    with ((λ tab, mkProps (tab_id tab) (tab_title tab)) <$> ts).
  by rewrite <- list_fmap_compose.
Qed.

(** X12.  [ensureSchema] reads the metadata and adds, in one structural
    batch, an empty tab for every registered schema whose sheet name no
    tab has; the tabs that exist are left as they are.  Afterwards every
    registered sheet name is the title of a tab, and a second call makes
    the read of the metadata and nothing else. *)
Theorem ensureSchema_adds_missing_tabs (config : ClientConfig) (w : Spreadsheet) :
  ∃ w' added,
    Client.ensureSchema config w = (Resolved tt, w')
    ∧ tabs w' = tabs w ++ added
    ∧ tab_title <$> added
      = filter (λ t, t ∉ tab_title <$> tabs w) (sheet_names (schemas config))
    ∧ Forall (λ tab, tab_cells tab = []) added
    ∧ (∀ name, name ∈ sheet_names (schemas config) → name ∈ tab_title <$> tabs w')
    ∧ trace w' = trace w ++
        Net GetMetadata ::
        match added with
        | [] => []
        | _ => [Net (StructuralBatch (AddSheet <$> (tab_title <$> added)))]
        end
    ∧ Client.ensureSchema config w' = (Resolved tt, record_event (Net GetMetadata) w').
Proof.
  assert (Hfilter : ∀ ts : list Tab,
            filter (λ t, t ∉ (list_to_set
                      (prop_title <$> map (λ tab, mkProps (tab_id tab) (tab_title tab)) ts)
                      : gset string)) (sheet_names (schemas config))
            = filter (λ t, t ∉ tab_title <$> ts) (sheet_names (schemas config))).
  { intros ts. apply list_filter_iff. intros t. by rewrite metadata_titles. }
  assert (Heval : ∀ w0,
            Client.ensureSchema config w0
            = match filter (λ t, t ∉ tab_title <$> tabs w0) (sheet_names (schemas config)) with
              | [] => (Resolved tt, record_event (Net GetMetadata) w0)
              | toAdd =>
                  structuralBatchUpdate (Repository.ctx config) (AddSheet <$> toAdd)
                    (record_event (Net GetMetadata) w0)
              end).
  { intros w0. unfold Client.ensureSchema, andThen, getSpreadsheetMetadata. simpl.
    fold (sheet_names (schemas config)). rewrite Hfilter.
    by destruct (filter _ (sheet_names (schemas config))). }
  remember (filter (λ t, t ∉ tab_title <$> tabs w) (sheet_names (schemas config)))
    as toAdd eqn:HtoAdd.
  destruct (add_sheets (tabs w) toAdd) as (added & Eadd & Htitles & Hcells).
  assert (Hall : ∀ name, name ∈ sheet_names (schemas config) →
                         name ∈ tab_title <$> (tabs w ++ added)).
  { intros name Hname. rewrite fmap_app, elem_of_app, Htitles.
    destruct (decide (name ∈ tab_title <$> tabs w)) as [Hin|Hin]; [by left|right].
    rewrite HtoAdd. by apply list_elem_of_filter. }
  assert (Hagain : ∀ w', tabs w' = tabs w ++ added →
            Client.ensureSchema config w' = (Resolved tt, record_event (Net GetMetadata) w')).
  { intros w' Htabs. rewrite Heval, Htabs.
    rewrite (filter_none (λ t, t ∉ tab_title <$> (tabs w ++ added))); [done|].
    apply Forall_forall. intros name Hname Hnot. by apply Hnot, Hall. }
  rewrite Heval, <- HtoAdd.
  destruct toAdd as [|t rest].
  - destruct added; [|done].
    exists (record_event (Net GetMetadata) w), [].
    split; [done|]. split; [by rewrite app_nil_r|]. split; [done|]. split; [done|].
    split; [intros name Hname; specialize (Hall name Hname); by rewrite app_nil_r in Hall|].
    split; [done|]. apply Hagain. simpl. by rewrite app_nil_r.
  - unfold structuralBatchUpdate. simpl tabs. rewrite Eadd.
    eexists _, added. split; [reflexivity|]. split; [done|]. split; [done|].
    split; [done|]. split; [exact Hall|]. split.
    + simpl. rewrite <- app_assoc. simpl. rewrite Htitles. by destruct added.
    + by apply Hagain.
Qed.

(** ** Defaults *)

Lemma prop_insert_eq (r : obj) k v : prop (<[k := v]> r) k = v.
Proof. unfold prop. by rewrite lookup_insert_eq. Qed.

Lemma prop_insert_ne (r : obj) k k' v : k ≠ k' → prop (<[k := v]> r) k' = prop r k'.
Proof. intros H. unfold prop. by rewrite lookup_insert_ne. Qed.

Lemma default_of_cons f fs k :
  default_of (f :: fs) k
  = if bool_decide (fd_name f = k) && negb (strict_eq (fd_defaultValue f) VUndefined)
    then fd_defaultValue f else default_of fs k.
Proof. unfold default_of. simpl. by destruct (_ && _). Qed.

Lemma applyDefaults_lookup (fs : list FieldDefinition) (record : obj) (k : string) :
  prop (foldl (λ result field,
                 if strict_eq (prop result (fd_name field)) VUndefined
                    && negb (strict_eq (fd_defaultValue field) VUndefined)
                 then <[fd_name field := fd_defaultValue field]> result
                 else result) record fs) k
  = if decide (prop record k = VUndefined) then default_of fs k else prop record k.
Proof.
  revert record. induction fs as [|f fs IH]; intros record.
  { simpl. unfold default_of. simpl. by destruct (decide _). }
  cbn [foldl]. rewrite IH, default_of_cons.
  destruct (strict_eq (prop record (fd_name f)) VUndefined
            && negb (strict_eq (fd_defaultValue f) VUndefined)) eqn:C.
  - apply andb_true_iff in C as [Hu Hd]. unfold strict_eq in Hu.
    apply bool_decide_eq_true in Hu. rewrite Hd.
    apply negb_true_iff in Hd. unfold strict_eq in Hd. apply bool_decide_eq_false in Hd.
    destruct (decide (fd_name f = k)) as [<-|Hk].
    + rewrite prop_insert_eq. rewrite decide_False by done. rewrite decide_True by done.
      by rewrite bool_decide_eq_true_2.
    + rewrite prop_insert_ne by done. by rewrite (bool_decide_eq_false_2 _ Hk).
  - destruct (decide (prop record k = VUndefined)) as [Hu|Hu]; [|done].
    destruct (decide (fd_name f = k)) as [<-|Hk].
    + unfold strict_eq in C. rewrite (bool_decide_eq_true_2 _ Hu) in C. simpl in C.
      unfold strict_eq. rewrite C. by rewrite andb_false_r.
    + by rewrite (bool_decide_eq_false_2 _ Hk).
Qed.

Lemma default_of_defined fs k f :
  find (λ f, bool_decide (fd_name f = k)
             && negb (strict_eq (fd_defaultValue f) VUndefined)) fs = Some f →
  fd_name f = k ∧ fd_defaultValue f ≠ VUndefined.
Proof.
  intros [_ Hf]%find_some. apply andb_true_iff in Hf as [Hn Hd].
  apply bool_decide_eq_true in Hn. apply negb_true_iff in Hd.
  unfold strict_eq in Hd. by apply bool_decide_eq_false in Hd.
Qed.

Lemma applyDefaults_fixpoint (fs : list FieldDefinition) (record : obj) :
  (∀ f, f ∈ fs → fd_defaultValue f ≠ VUndefined → prop record (fd_name f) ≠ VUndefined) →
  foldl (λ result field,
           if strict_eq (prop result (fd_name field)) VUndefined
              && negb (strict_eq (fd_defaultValue field) VUndefined)
           then <[fd_name field := fd_defaultValue field]> result
           else result) record fs = record.
Proof.
  revert record. induction fs as [|f fs IH]; intros record Hset; [done|].
  cbn [foldl].
  destruct (strict_eq (prop record (fd_name f)) VUndefined
            && negb (strict_eq (fd_defaultValue f) VUndefined)) eqn:C.
  - apply andb_true_iff in C as [Hu Hd]. unfold strict_eq in Hu.
    apply bool_decide_eq_true in Hu.
    apply negb_true_iff in Hd. unfold strict_eq in Hd. apply bool_decide_eq_false in Hd.
    exfalso. by apply (Hset f); [apply list_elem_of_here|..].
  - apply IH. intros f' Hf'. apply Hset. by apply list_elem_of_further.
Qed.

(** X13.  [applyDefaults] keeps every property the record has a value
    for, and gives every property the record has no value for the
    default of the first field definition of that name that has one;
    without field definitions the record is returned as it is.  Applying
    the defaults a second time changes nothing. *)
Theorem applyDefaults_fills_missing (schema : SheetSchema) (record : obj) :
  (∀ k, prop record k ≠ VUndefined →
        prop (Repository.applyDefaults schema record) k = prop record k)
  ∧ (∀ k, prop record k = VUndefined →
          prop (Repository.applyDefaults schema record) k
          = default_of (default [] (fields schema)) k)
  ∧ (fields schema = None → Repository.applyDefaults schema record = record)
  ∧ Repository.applyDefaults schema (Repository.applyDefaults schema record)
    = Repository.applyDefaults schema record.
Proof.
  unfold Repository.applyDefaults.
  destruct (fields schema) as [fs|]; simpl; [|by repeat split].
  split; [|split; [|split; [done|]]].
  - intros k Hk. rewrite applyDefaults_lookup. by rewrite decide_False.
  - intros k Hk. rewrite applyDefaults_lookup. by rewrite decide_True.
  - apply applyDefaults_fixpoint. intros f Hf Hd. rewrite applyDefaults_lookup.
    destruct (decide (prop record (fd_name f) = VUndefined)) as [Hu|Hu]; [|done].
    unfold default_of.
    destruct (find _ fs) as [f'|] eqn:E.
    + apply default_of_defined in E as [_ Hd']. done.
    + apply list_elem_of_In in Hf. pose proof (find_none _ _ E f Hf) as Hn. simpl in Hn.
      rewrite bool_decide_eq_true_2 in Hn by done. unfold strict_eq in Hn.
      rewrite bool_decide_eq_false_2 in Hn by done. done.
Qed.

(** ** Include keys and target columns *)

Lemma related_schemas_cons k keys allSchemas :
  related_schemas (k :: keys) allSchemas
  = match schema_at allSchemas k with
    | Some s => (k, s) :: related_schemas keys allSchemas
    | None => related_schemas keys allSchemas
    end.
Proof. unfold related_schemas. simpl. by destruct (schema_at allSchemas k). Qed.

Lemma related_schemas_registered includeMap allSchemas :
  related_schemas (filter (λ k, is_Some (schema_at allSchemas k)) includeMap) allSchemas
  = related_schemas includeMap allSchemas.
Proof.
  induction includeMap as [|k keys IH]; [done|].
  rewrite filter_cons. destruct (decide (is_Some (schema_at allSchemas k))) as [[s Hs]|Hn].
  - rewrite !related_schemas_cons, Hs. by rewrite IH.
  - rewrite related_schemas_cons.
    destruct (schema_at allSchemas k) as [s|]; [exfalso; apply Hn; by eexists|]. exact IH.
Qed.

Lemma related_schemas_nil_iff includeMap allSchemas :
  related_schemas includeMap allSchemas = []
  ↔ filter (λ k, is_Some (schema_at allSchemas k)) includeMap = [].
Proof.
  rewrite <- related_schemas_keys. split; [by intros ->|].
  by destruct (related_schemas includeMap allSchemas).
Qed.





(** ** Runs that resolve *)



Lemma appliedVersions_row (rows : list row) m timestamp :
  ledger_row m timestamp ∈ rows → version m ∈ appliedVersions rows.
Proof. intros Hin. apply elem_of_appliedVersions. by exists (ledger_row m timestamp). Qed.

Lemma ledger_tab_found ts :
  ledger_tabs ts ≠ [] → is_Some (find (titled MIGRATIONS_SHEET) ts).
Proof.
  intros Hne. unfold titled.
  rewrite (find_head_filter (λ tab, tab_title tab = MIGRATIONS_SHEET)).
  fold (ledger_tabs ts). by destruct (ledger_tabs ts); [|eexists].
Qed.

(** A run on a spreadsheet that has the ledger and lists every version:
    the two reads, and nothing else. *)
Lemma run_without_pending ctx migrations w :
  duplicate_version ∅ migrations = None →
  ledger_tabs (tabs w) ≠ [] →
  pending_of (applied_in (tabs w)) (merge_sort by_version migrations) = [] →
  runMigrations ctx migrations w
  = (Resolved tt,
     mkSpreadsheet (tabs w) (clock w)
       (trace w ++ [Net GetMetadata; Net (GetValues MIGRATIONS_RANGE UNFORMATTED_VALUE)])).
Proof.
  intros Hdup Hledger Hnone. unfold runMigrations. rewrite Hdup.
  unfold ensure_ledger, andThen, getSpreadsheetMetadata. simpl.
  fold (fmap (M:=list) (λ tab, mkProps (tab_id tab) (tab_title tab)) (tabs w)).
  rewrite bool_decide_eq_true_2 by (by apply has_ledger_tab, ledger_tab_found).
  unfold resolve, getSheetValues. simpl. fold (applied_in (tabs w)). rewrite Hnone.
  unfold record_event. simpl. by rewrite <- app_assoc.
Qed.

(** X17.  Once the ledger tab has a first row, running the same
    migrations again is a no-op: after a run that resolved (tab ids
    distinct, no procedure naming the ledger tab), every version of the
    list is among the applied versions the next run reads, and that run
    resolves after its reads, calling no procedure, appending no row and
    leaving every tab as it is. *)
Theorem rerun_skips_once_ledger_has_first_row (ctx : TransportContext)
    (migrations : list Migration) (w : Spreadsheet) :
  NoDup (version <$> migrations) →
  NoDup (tab_id <$> tabs w) →
  Forall (λ m, avoids_ledger (up m) = true) migrations →
  ledger_rows (tabs w) ≠ [] →
  fst (runMigrations ctx migrations w) = Resolved tt →
  (∀ m, m ∈ migrations →
        version m ∈ applied_in (tabs (snd (runMigrations ctx migrations w))))
  ∧ ∃ reads,
      runMigrations ctx migrations (snd (runMigrations ctx migrations w))
      = (Resolved tt,
         mkSpreadsheet (tabs (snd (runMigrations ctx migrations w)))
           (clock (snd (runMigrations ctx migrations w)))
           (trace (snd (runMigrations ctx migrations w)) ++ reads))
      ∧ invoked_versions reads = []
      ∧ recorded_versions reads = []
      ∧ forallb is_read reads = true.
Proof.
  intros Hnd Hids Havoid Hrow Hres.
  assert (Hdup : duplicate_version ∅ migrations = None).
  { apply duplicate_version_None. split; [done|]. intros m _. apply not_elem_of_empty. }
  destruct (runMigrations_eval ctx migrations w Hdup)
    as (sheetIdMap & prelude & E & Hi & Hr & _ & Horigin).
  set (w1 := snd (runMigrations ctx migrations w)) in *.
  assert (Hgrow : ledger_grows (ensured_tabs (tabs w)) (tabs w1)
            ((λ m, ledger_row m (clock w))
               <$> pending_of (applied_in (tabs w)) (merge_sort by_version migrations))).
  { unfold w1. rewrite E in Hres |- *.
    set (pending := pending_of _ _) in *. set (w0 := mkSpreadsheet _ _ _) in *.
    destruct (run_pending_spec ctx sheetIdMap pending w0) as (delta & _ & _ & Hspec).
    rewrite Hres in Hspec. destruct Hspec as (_ & _ & _ & Hg). apply Hg.
    split; [|split].
    - apply ledger_untouchable_of_metadata; [by apply ensured_tabs_NoDup|done].
    - apply ensured_tabs_ledger.
    - apply Forall_forall. intros m' Hm'. apply elem_of_pending in Hm' as [Hm' _].
      by eapply Forall_forall in Havoid. }
  pose proof (ledger_rows_grown _ _ _ Hgrow) as Hrows.
  assert (Hall : ∀ m, m ∈ migrations → version m ∈ applied_in (tabs w1)).
  { intros m Hm. rewrite !applied_in_rows, Hrows.
    destruct (ledger_rows (tabs w)) as [|r0 rows] eqn:El; [done|]. simpl. rewrite drop_0.
    destruct (decide (version m ∈ applied_in (tabs w))) as [Hin|Hin].
    - rewrite applied_in_rows, El in Hin. simpl in Hin. rewrite drop_0 in Hin.
      apply elem_of_appliedVersions in Hin as (r & Hr' & Hn).
      apply elem_of_appliedVersions. exists r. split; [|done]. apply elem_of_app. by left.
    - apply (appliedVersions_row _ m (clock w)). apply elem_of_app. right.
      apply list_elem_of_fmap. exists m. split; [done|]. by apply elem_of_pending. }
  split; [exact Hall|].
  exists [Net GetMetadata; Net (GetValues MIGRATIONS_RANGE UNFORMATTED_VALUE)].
  split; [|done]. apply run_without_pending; [done| |].
  - destruct Hgrow as (tab & rest & _ & ->). done.
  - apply filter_none, Forall_forall. intros m Hm Hfresh.
    rewrite merge_sort_Permutation in Hm. by apply Hfresh, Hall.
Qed.

(** The third run of the migrations of the README calls nothing. *)
Lemma rerun_skips_once_ledger_has_first_row_witness :
  ∃ reads,
    runMigrations writer readme_migrations
      (snd (runMigrations writer readme_migrations
              (snd (runMigrations writer readme_migrations tasks_only))))
    = (Resolved tt,
       mkSpreadsheet
         (tabs (snd (runMigrations writer readme_migrations
                       (snd (runMigrations writer readme_migrations tasks_only)))))
         (clock (snd (runMigrations writer readme_migrations
                        (snd (runMigrations writer readme_migrations tasks_only)))))
         (trace (snd (runMigrations writer readme_migrations
                        (snd (runMigrations writer readme_migrations tasks_only))))
          ++ reads))
    ∧ invoked_versions reads = []
    ∧ recorded_versions reads = [].
Proof.
  destruct (rerun_skips_once_ledger_has_first_row writer readme_migrations
              (snd (runMigrations writer readme_migrations tasks_only)))
    as [_ (reads & Hrun & Hinv & Hrec & _)].
  - apply (bool_decide_unpack _). vm_compute. exact I.
  - apply (bool_decide_unpack _). vm_compute. exact I.
  - repeat constructor.
  - vm_compute. discriminate.
  - vm_compute. reflexivity.
  - exists reads. split; [exact Hrun|]. split; [exact Hinv|exact Hrec].
Defined.

(** ** Models *)

Lemma pretty_N_go_nonempty (x : N) (s : string) :
  s ≠ EmptyString → pretty_N_go x s ≠ EmptyString.
Proof.
  revert s. induction (N.lt_wf_0 x) as [x _ IH]; intros s Hs.
  destruct (decide (x = 0)%N) as [->|Hx]; [by rewrite pretty_N_go_0|].
  rewrite pretty_N_go_step by lia. apply IH; [|done].
  apply N.div_lt; lia.
Qed.

Lemma pretty_Z_nonempty (n : Z) : pretty n ≠ EmptyString.
Proof.
  assert (Hpos : ∀ p : positive, pretty p ≠ EmptyString).
  { intros p. unfold pretty, pretty_positive, pretty, pretty_N.
    rewrite decide_False by done. rewrite pretty_N_go_step by lia.
    by apply pretty_N_go_nonempty. }
  destruct n as [|p|p]; [done|apply Hpos|done].
Qed.

Lemma js_String_nonempty (v : value) : v ≠ VStr EmptyString → js_String v ≠ EmptyString.
Proof.
  destruct v as [| |s|n|[]]; simpl; try done.
  - intros Hs ->. done.
  - intros _. apply pretty_Z_nonempty.
Qed.

Lemma defineModel_inr sheet fields schema :
  Model.defineModel sheet fields = inr schema →
  ∃ pk f, marked_primary fields = [(pk, f)]
          ∧ schema = Model.schema_of sheet fields pk
          ∧ fields ≠ [].
Proof.
  unfold Model.defineModel, marked_primary. case_bool_decide as Hlen; [done|].
  destruct (filter _ fields) as [|[pk f] [|e rest]]; try done.
  intros [= <-]. exists pk, f. repeat split. by intros ->.
Qed.

Lemma parse_cells_notin entries i r (acc : obj) name :
  name ∉ fst <$> entries → Model.parse_cells entries i r acc !! name = acc !! name.
Proof.
  revert i acc. induction entries as [|[n f] rest IH]; intros i acc Hn; simpl; [done|].
  simpl in Hn. apply not_elem_of_cons in Hn as [Hne Hn].
  rewrite IH by done. by rewrite lookup_insert_ne.
Qed.

Lemma parse_cells_lookup entries i r (acc : obj) j name f :
  NoDup (fst <$> entries) →
  entries !! j = Some (name, f) →
  Model.parse_cells entries i r acc !! name
  = Some (Model.parseCell (default VUndefined (r !! (i + j)%nat)) f).
Proof.
  revert i acc j. induction entries as [|[n0 f0] rest IH]; intros i acc j Hnd Hj;
    [done|].
  simpl in Hnd. apply NoDup_cons in Hnd as [Hfresh Hnd].
  destruct j as [|j]; simpl in *.
  - injection Hj as -> ->. rewrite (parse_cells_notin rest (S i) r _ name) by done.
    by rewrite lookup_insert_eq, Nat.add_0_r.
  - rewrite (IH (S i) _ j) by done. by replace (S i + j)%nat with (i + S j)%nat by lia.
Qed.

Lemma parse_cells_ext entries i r r' (acc : obj) :
  (∀ j name f, entries !! j = Some (name, f) →
     Model.parseCell (default VUndefined (r' !! (i + j)%nat)) f
     = Model.parseCell (default VUndefined (r !! (i + j)%nat)) f) →
  Model.parse_cells entries i r' acc = Model.parse_cells entries i r acc.
Proof.
  revert i acc. induction entries as [|[n0 f0] rest IH]; intros i acc Hcells; [done|].
  simpl. pose proof (Hcells 0%nat n0 f0 eq_refl) as H0. rewrite Nat.add_0_r in H0.
  rewrite H0. apply IH. intros j name f Hj.
  replace (S i + j)%nat with (i + S j)%nat by lia. by apply (Hcells (S j) name f).
Qed.

(** What [toRow] makes of a parsed row: the parsed cells, in the order
    of the fields. *)
Lemma toRow_parsed entries r :
  NoDup (fst <$> entries) →
  Model.model_toRow (fst <$> entries) (Model.parse_cells entries 0 r ∅)
  = imap (λ j e, Model.parseCell (default VUndefined (r !! j)) (snd e)) entries.
Proof.
  intros Hnd. apply list_eq. intros j. unfold Model.model_toRow.
  rewrite list_lookup_fmap, list_lookup_fmap, list_lookup_imap.
  destruct (entries !! j) as [[name f]|] eqn:E; simpl; [|done].
  unfold prop. by rewrite (parse_cells_lookup entries 0 r ∅ j name f Hnd E).
Qed.

Lemma parseCell_again (v : value) (f : Model.FieldDef) :
  typed_default f = true →
  Model.parseCell (Model.parseCell v f) f = Model.parseCell v f.
Proof.
  unfold typed_default. intros Htyped.
  assert (Hstr : ∀ c, c ≠ VUndefined → c ≠ VNull → c ≠ VStr EmptyString →
            VStr (js_String c) ≠ VStr EmptyString).
  { intros c _ _ Hc [= He]. by apply (js_String_nonempty c). }
  destruct f as [ty pkf opt d refs]. simpl in *.
  destruct v as [| |s|n|[]]; destruct d as [| |ds|dn|[]]; destruct ty; destruct opt;
    try discriminate; unfold Model.parseCell, strict_eq; simpl; try reflexivity;
    repeat (case_bool_decide; simplify_eq; simpl; try reflexivity);
    try (exfalso; by eapply pretty_Z_nonempty).
Qed.

Lemma indexOf_elem (l : list string) (x : string) :
  x ∈ l → ∃ i, indexOf l x = Some i ∧ l !! i = Some x.
Proof.
  induction l as [|y l IH]; [by intros []%elem_of_nil|]. simpl.
  case_bool_decide as Hy; [subst; by exists 0%nat|].
  intros [->|Hin]%elem_of_cons; [done|].
  destruct (IH Hin) as (i & -> & Hi). by exists (S i).
Qed.

Lemma indexOf_lookup (l : list string) (x : string) i :
  indexOf l x = Some i → l !! i = Some x.
Proof.
  revert i. induction l as [|y l IH]; intros i; simpl; [done|].
  case_bool_decide as Hy; [by intros [= <-]; subst|].
  destruct (indexOf l x) as [j|]; simpl; [|done]. intros [= <-]. by apply IH.
Qed.

Lemma marked_primary_elem fields pk f :
  marked_primary fields = [(pk, f)] → (pk, f) ∈ fields ∧ Model._isPrimaryKey f = true.
Proof.
  intros H. assert (Hin : (pk, f) ∈ marked_primary fields).
  { rewrite H. apply list_elem_of_here. }
  unfold marked_primary in Hin. apply list_elem_of_filter in Hin as [Hp Hin]. done.
Qed.

(** X18.  [defineModel] builds a schema exactly when one field, and only
    one, is marked as the primary key; otherwise it throws a schema
    error.  The schema has the name of the model as its sheet name, the
    names of the fields as its headers, the standard ranges, the marked
    field as its primary key, which is one of its headers, and a relation
    for every field that references a model. *)
Theorem defineModel_accepts_iff (sheet : string) (fields : list (string * Model.FieldDef)) :
  ((∃ schema, Model.defineModel sheet fields = inr schema)
   ↔ length (marked_primary fields) = 1%nat)
  ∧ (∀ err, Model.defineModel sheet fields = inl err → error_kind err = Some SCHEMA_ERROR)
  ∧ (∀ schema, Model.defineModel sheet fields = inr schema →
       ∃ pk f,
         marked_primary fields = [(pk, f)]
         ∧ sheetName schema = sheet
         ∧ headers schema = fst <$> fields
         ∧ headers schema ≠ []
         ∧ standard_ranges schema
         ∧ primaryKey schema = Some pk
         ∧ pk ∈ headers schema
         ∧ default [] (relations schema)
           = omap (λ e, (λ ref, mkRelation (fst e) (fst ref) (snd ref))
                          <$> Model._references (snd e)) fields).
Proof.
  split; [|split].
  - unfold Model.defineModel, marked_primary. split.
    + intros [schema H]. case_bool_decide; [done|].
      by destruct (filter _ fields) as [|e [|e' rest]].
    + intros Hone. rewrite bool_decide_eq_false_2.
      * destruct (filter _ fields) as [|e [|e' rest]]; [done|by eexists|done].
      * intros Hlen. destruct fields; [done|done].
  - unfold Model.defineModel. case_bool_decide; [by intros err [= <-]|].
    destruct (filter _ fields) as [|e [|e' rest]]; [|done|]; by intros err [= <-].
  - intros schema (pk & f & Hpk & -> & Hne)%defineModel_inr.
    exists pk, f. split; [done|]. split; [done|]. split; [done|].
    split; [by destruct fields|]. split; [done|]. split; [done|]. split.
    + apply marked_primary_elem in Hpk as [Hin _]. simpl.
      apply list_elem_of_fmap. by exists (pk, f).
    + simpl. case_bool_decide as Hlen; [done|].
      destruct (omap _ fields); [done|simpl in Hlen; lia].
Qed.



Lemma missing_issue_None entity entry :
  Model.missing_issue entity entry = None
  ↔ (Model._isOptional (snd entry) = false → nullish (prop entity (fst entry)) = false).
Proof.
  unfold Model.missing_issue, strict_eq.
  destruct (Model._isOptional (snd entry)); simpl; [by split|].
  destruct (prop entity (fst entry)); simpl; split; try done; intros H; by specialize (H eq_refl).
Qed.

Lemma missing_issue_field entity entry issue :
  Model.missing_issue entity entry = Some issue →
  issue_field issue = fst entry ∧ issue_value issue = prop entity (fst entry).
Proof.
  unfold Model.missing_issue. destruct (_ && _); [|done]. by intros [= <-].
Qed.

Lemma omap_nil_iff {A B} (f : A → option B) (l : list A) :
  omap f l = [] ↔ ∀ x, x ∈ l → f x = None.
Proof.
  induction l as [|x l IH]; simpl.
  - split; [by intros _ ? []%elem_of_nil|done].
  - destruct (f x) eqn:E; simpl.
    + split; [done|]. intros H. specialize (H x (list_elem_of_here _ _)). congruence.
    + rewrite IH. split.
      * intros H y [->|Hy]%elem_of_cons; [done|by apply H].
      * intros H y Hy. apply H. by apply list_elem_of_further.
Qed.

Lemma missing_issue_fields entity (fields : list (string * Model.FieldDef)) :
  issue_field <$> omap (Model.missing_issue entity) fields
  = fst <$> filter (λ e, Model._isOptional (snd e) = false
                         ∧ nullish (prop entity (fst e)) = true) fields.
Proof.
  induction fields as [|e rest IH]; [done|].
  change (omap (Model.missing_issue entity) (e :: rest))
    with (match Model.missing_issue entity e with
          | Some y => y :: omap (Model.missing_issue entity) rest
          | None => omap (Model.missing_issue entity) rest
          end).
  rewrite filter_cons.
  destruct (Model.missing_issue entity e) as [issue|] eqn:E.
  - destruct (decide (Model._isOptional (snd e) = false
                      ∧ nullish (prop entity (fst e)) = true)) as [Hp|Hp].
    + rewrite !fmap_cons, IH. f_equal. by apply missing_issue_field in E as [-> _].
    + assert (Model.missing_issue entity e = None); [|congruence].
      apply missing_issue_None. intros Ho.
      destruct (nullish (prop entity (fst e))); [by destruct Hp|done].
  - rewrite decide_False; [exact IH|]. intros [Ho Hn].
    rewrite (proj1 (missing_issue_None entity e) E Ho) in Hn. done.
Qed.

Lemma parseCell_required (v : value) (f : Model.FieldDef) :
  Model._isOptional f = false → required_default f = true →
  nullish (Model.parseCell v f) = false.
Proof.
  unfold required_default, Model.parseCell, strict_eq. intros -> Hd. simpl in Hd.
  apply negb_true_iff, bool_decide_eq_false in Hd.
  destruct (_ && _) eqn:E.
  - apply andb_true_iff in E as [_ Hu]. apply negb_true_iff, bool_decide_eq_false in Hu.
    by destruct (Model._defaultValue f).
  - destruct (Model._type f); repeat case_match; done.
Qed.





(** ** Spreadsheet ids *)

Lemma take_id_app (id tail : string) :
  id_chars id = true → ends_id tail = true → take_id (id +:+ tail) = id.
Proof.
  intros Hid Htail. induction id as [|c id IH]; simpl in *.
  - destruct tail as [|c tail]; [done|]. simpl in *.
    apply negb_true_iff in Htail. by rewrite Htail.
  - apply andb_true_iff in Hid as [Hc Hid]. rewrite Hc. by rewrite IH.
Qed.

Lemma id_chars_no_slash (s : string) : id_chars s = true → includes_slash s = false.
Proof.
  induction s as [|c s IH]; simpl; [done|].
  intros [Hc Hs]%andb_true_iff. rewrite (IH Hs), orb_false_r.
  apply bool_decide_eq_false. intros ->. done.
Qed.

Lemma no_slash_no_match (s : string) : includes_slash s = false → match_id s = None.
Proof.
  induction s as [|c s IH]; [done|]. simpl includes_slash.
  intros [Hc Hs]%orb_false_iff. apply bool_decide_eq_false in Hc.
  cbn [match_id]. rewrite (IH Hs).
  destruct c as [[] [] [] [] [] [] [] []]; try done.
Qed.

Lemma take_id_chars (s : string) : id_chars (take_id s) = true.
Proof.
  induction s as [|c s IH]; simpl; [done|].
  destruct (is_id_char c) eqn:E; [|done]. simpl. by rewrite E.
Qed.

Lemma match_id_Some (s id : string) :
  match_id s = Some id → id ≠ EmptyString ∧ id_chars id = true ∧ includes_slash s = true.
Proof.
  induction s as [|c s IH]; [done|]. cbn [match_id includes_slash].
  assert (Hrec : match_id s = Some id →
            id ≠ EmptyString ∧ id_chars id = true
            ∧ bool_decide (c = "/"%char) || includes_slash s = true).
  { intros H. destruct (IH H) as (? & ? & ->). by rewrite orb_true_r. }
  destruct c as [[] [] [] [] [] [] [] []]; try exact Hrec.
  destruct s as [|c1 s]; [exact Hrec|].
  destruct c1 as [[] [] [] [] [] [] [] []]; try exact Hrec.
  destruct s as [|c2 s]; [exact Hrec|].
  destruct c2 as [[] [] [] [] [] [] [] []]; try exact Hrec.
  destruct (take_id s) as [|c3 t] eqn:Et; [exact Hrec|].
  intros [= <-]. split; [done|]. split; [|done]. rewrite <- Et. apply take_id_chars.
Qed.

(** X22.  [extractSpreadsheetId] gives the id back from the address of a
    spreadsheet: for an id made of letters, digits, [-] and [_], and
    whatever follows it after a character that is none of these, the id
    is extracted from [https://docs.google.com/spreadsheets/d/<id>...]. *)
Theorem extractSpreadsheetId_of_url (id tail : string) :
  id ≠ EmptyString →
  id_chars id = true →
  ends_id tail = true →
  extractSpreadsheetId ("https://docs.google.com/spreadsheets/d/" +:+ id +:+ tail) = Some id.
Proof.
  intros Hne Hid Htail. unfold extractSpreadsheetId.
  assert (Hmatch : match_id ("https://docs.google.com/spreadsheets/d/" +:+ id +:+ tail)
                   = Some id).
  { repeat match goal with
           | |- context [String ?c ?s +:+ ?t] =>
               change (String c s +:+ t) with (String c (s +:+ t))
           end.
    change (EmptyString +:+ (id +:+ tail)) with (id +:+ tail).
    cbn [match_id]. rewrite (take_id_app id tail Hid Htail). by destruct id. }
  by rewrite Hmatch.
Qed.

Lemma extractSpreadsheetId_of_url_witness :
  extractSpreadsheetId
    "https://docs.google.com/spreadsheets/d/1aB-c_9/edit#gid=0" = Some "1aB-c_9".
Proof.
  apply (extractSpreadsheetId_of_url "1aB-c_9" "/edit#gid=0"); [done|reflexivity..].
Defined.

(** X23.  What [extractSpreadsheetId] answers: a string without [/] is
    taken as a bare id and returned as it is, the empty string included;
    from a string with a [/] the answer is either nothing or an id that
    is not empty and made of letters, digits, [-] and [_] alone.  An
    extracted id is extracted from itself. *)
Theorem extractSpreadsheetId_answers (s : string) :
  (includes_slash s = false → extractSpreadsheetId s = Some s)
  ∧ (∀ id, includes_slash s = true → extractSpreadsheetId s = Some id →
           id ≠ EmptyString ∧ id_chars id = true)
  ∧ (∀ id, extractSpreadsheetId s = Some id → extractSpreadsheetId id = Some id).
Proof.
  assert (Hbare : ∀ t, includes_slash t = false → extractSpreadsheetId t = Some t).
  { intros t Ht. unfold extractSpreadsheetId. by rewrite no_slash_no_match, Ht. }
  assert (Hurl : ∀ id, includes_slash s = true → extractSpreadsheetId s = Some id →
                       id ≠ EmptyString ∧ id_chars id = true).
  { intros id Hs. unfold extractSpreadsheetId.
    destruct (match_id s) as [id'|] eqn:E.
    - intros [= <-]. apply match_id_Some in E as (? & ? & _). done.
    - by rewrite Hs. }
  split; [apply Hbare|]. split; [exact Hurl|].
  intros id Hid. destruct (includes_slash s) eqn:Hs.
  - destruct (Hurl id eq_refl Hid) as [_ Hchars].
    apply Hbare. by apply id_chars_no_slash.
  - rewrite (Hbare s Hs) in Hid. injection Hid as <-. by apply Hbare.
Qed.

Lemma extractSpreadsheetId_answers_witness :
  extractSpreadsheetId EmptyString = Some EmptyString
  ∧ extractSpreadsheetId "abc123" = Some "abc123"
  ∧ extractSpreadsheetId "https://example.org/d/" = None
  ∧ extractSpreadsheetId "x/d/one/d/two" = Some "one".
Proof.
  destruct (extractSpreadsheetId_answers EmptyString) as [Hbare _].
  destruct (extractSpreadsheetId_answers "abc123") as [Hbare' _].
  split; [by apply Hbare|]. split; [by apply Hbare'|]. split; reflexivity.
Defined.

(** ** Rows that are short or long *)

Lemma parseCell_empty (f : Model.FieldDef) (v : value) :
  v = VUndefined ∨ v = VNull ∨ v = VStr EmptyString →
  Model.parseCell v f = Model.parseCell VUndefined f.
Proof.
  intros [->|[->| ->]]; [done|..]; unfold Model.parseCell, strict_eq; simpl;
    destruct (Model._type f); done.
Qed.

Lemma parse_cells_agree entries (r r' : row) (acc : obj) :
  (∀ j name f, entries !! j = Some (name, f) →
     Model.parseCell (default VUndefined (r' !! j)) f
     = Model.parseCell (default VUndefined (r !! j)) f) →
  Model.parse_cells entries 0 r' acc = Model.parse_cells entries 0 r acc.
Proof. intros H. apply parse_cells_ext. intros j name f Hj. simpl. by apply (H j name f). Qed.



(** ** Records that do not pass the validation *)

(** X25.  On a client that can write, [create] validates the record
    after the defaults are applied and before any call: when the record
    with its defaults does not pass the validation of the schema,
    [create] rejects with what the validation throws and the
    spreadsheet, trace included, is as it was. *)
Theorem create_rejects_invalid_record (config : ClientConfig) (schema : SheetSchema)
    (record : obj) (options : option WriteOptions) (check : obj → option thrown)
    (err : thrown) (w : Spreadsheet) :
  Repository.isReadOnly config = false →
  validate schema = Some check →
  check (Repository.applyDefaults schema record) = Some err →
  Repository.create config schema record options w = (Rejected err, w).
Proof.
  intros Hw Hcheck Herr.
  unfold Repository.create, Repository.assertWritable, Repository.withWriteLock.
  rewrite Hw. rewrite (andThen_resolved _ _ w tt w) by done.
  apply andThen_rejected. unfold Repository.run_validate. by rewrite Hcheck, Herr.
Qed.

(** A user without email is rejected for the email alone: [active] has a
    default. *)
Lemma create_rejects_invalid_record_witness :
  ∃ err,
    Repository.create blog Users {[ "id" := VStr "u9" ]} None (blank blog_tabs)
    = (Rejected err, blank blog_tabs)
    ∧ issue_field <$> error_issues err = ["email"].
Proof.
  eexists. split.
  - eapply (create_rejects_invalid_record blog Users {[ "id" := VStr "u9" ]} None
              (Model.model_validate users_fields)).
    + reflexivity.
    + reflexivity.
    + vm_compute. reflexivity.
  - vm_compute. reflexivity.
Defined.

(** ** Updating and finding *)

Lemma find_insert_first {A} (f : A → bool) (l : list A) (i : nat) (x y : A) :
  l !! i = Some x →
  (∀ j z, (j < i)%nat → l !! j = Some z → f z = false) →
  find f (<[i := y]> l)
  = if f y then Some y else find f (drop (S i) l).
Proof.
  revert i. induction l as [|z l IH]; intros i Hi Hbefore; [done|].
  destruct i as [|i]; simpl in *.
  - by rewrite drop_0.
  - rewrite (Hbefore 0%nat z) by (done || lia).
    apply IH; [done|]. intros j z' Hj Hz'. apply (Hbefore (S j) z'); [lia|done].
Qed.

Lemma find_skip_first {A} (f : A → bool) (l : list A) (i : nat) (x : A) :
  l !! i = Some x →
  (∀ j z, (j < i)%nat → l !! j = Some z → f z = false) →
  find f l = if f x then Some x else find f (drop (S i) l).
Proof.
  intros Hi Hbefore. rewrite <- (list_insert_id l i x Hi) at 1.
  by apply (find_insert_first f l i x x).
Qed.

Lemma find_insert_other {A} (f : A → bool) (l : list A) (i : nat) (x y : A) :
  l !! i = Some x → f x = false → f y = false →
  find f (<[i := y]> l) = find f l.
Proof.
  revert i. induction l as [|z l IH]; intros i Hi Hx Hy; [done|].
  destruct i as [|i]; simpl in *.
  - injection Hi as ->. by rewrite Hx, Hy.
  - destruct (f z); [done|]. by apply IH.
Qed.

(** X26.  On a client that can write, with the standard ranges, over a
    table whose records parse back from their rows: when [update] finds
    the record, the merged record passes the validation of the schema,
    violates no relation (or the check is skipped), keeps the primary
    key and parses back from its row, then the records of the table are
    the ones it had with the merged record in the place of the prior
    one; [findById] with the id finds the merged record, and with any
    other id it finds what it found before. *)
Theorem update_then_findById (config : ClientConfig) (schema : SheetSchema) (pk : string)
    (id : value) (changes : obj) (options : option WriteOptions) (w : Spreadsheet)
    (index : nat) (prior : obj) :
  Repository.isReadOnly config = false →
  truthy (primaryKey schema) = Some pk →
  standard_ranges schema →
  findIndex (λ r, strict_eq (prop r pk) id) (table_records schema w) = Some index →
  table_records schema w !! index = Some prior →
  (∀ check, validate schema = Some check → check (changes ∪ prior) = None) →
  (skips_fk options = false →
   fk_first_violation (schemas config) (tabs w) (Some (dom changes)) (changes ∪ prior) schema
   = None) →
  prop (changes ∪ prior) pk = id →
  Forall (parses_back schema) (table_records schema w) →
  parses_back schema (changes ∪ prior) →
  ∃ w',
    Repository.update config schema id changes options w = (Resolved (changes ∪ prior), w')
    ∧ table_records schema w' = <[index := changes ∪ prior]> (table_records schema w)
    ∧ fst (Repository.findById config schema id w') = Resolved (Some (changes ∪ prior))
    ∧ (∀ id', id' ≠ id →
              fst (Repository.findById config schema id' w')
              = fst (Repository.findById config schema id' w)).
Proof.
  intros Hw Hpk Hstd Hidx Hprior Hval Hfk Hkey Hback Hmerged.
  set (merged := changes ∪ prior) in *.
  set (records := table_records schema w) in *.
  set (written := <[index := merged]> records).
  set (w1 := record_event (Net (GetValues (readRange schema) UNFORMATTED_VALUE)) w).
  assert (Hstep : ∃ w2,
            (if skips_fk options then resolve tt
             else validateForeignKeys merged schema (schemas config)
                    (Repository.ctx config) (Some (dom changes))) w1 = (Resolved tt, w2)
            ∧ tabs w2 = tabs w).
  { destruct (skips_fk options) eqn:Hs; [by exists w1|].
    destruct (validateForeignKeys_spec merged schema (schemas config)
                (Repository.ctx config) (Some (dom changes)) w1) as (reads & E & _).
    change (tabs w1) with (tabs w) in E. rewrite (Hfk eq_refl) in E.
    eexists. split; [exact E|done]. }
  destruct Hstep as (w2 & Hstep & Htabs2).
  assert (Hne : header_row schema :: (toRow schema <$> written) ≠ []) by done.
  assert (Heval : ∃ w',
            Repository.update config schema id changes options w = (Resolved merged, w')
            ∧ tabs w' = alter_rows (sheetName schema)
                          (λ _, header_row schema :: (toRow schema <$> written)) (tabs w)).
  { eexists. split.
    - unfold Repository.update, Repository.assertWritable, Repository.withWriteLock.
      rewrite Hw. rewrite (andThen_resolved _ _ w tt w) by done.
      rewrite (andThen_resolved _ _ w records w1) by done.
      rewrite Hpk. fold records. rewrite Hidx, Hprior. simpl default. fold merged.
      rewrite (andThen_resolved _ _ w1 tt w1) by (by apply run_validate_accepts).
      rewrite (andThen_resolved _ _ _ _ _ Hstep).
      unfold andThen, Transport.clearRange, updateSheet, resolve. simpl. reflexivity.
    - simpl. rewrite Htabs2. by apply delete_tabs. }
  destruct Heval as (w' & Hupdate & Htabs).
  assert (Hwritten : Forall (parses_back schema) written).
  { unfold written. apply Forall_insert; done. }
  assert (Hrecords : table_records schema w' = written).
  { unfold table_records. eapply (records_after_rewrite schema _ w); try done.
    intros Hnone. exfalso.
    assert (records = []) as Hnil by (by apply table_records_missing).
    by rewrite Hnil in Hprior. }
  destruct (findIndex_Some _ _ _ Hidx) as (x & Hx & Hfx & Hbefore).
  assert (x = prior) as -> by congruence.
  exists w'. split; [done|]. split; [done|]. split.
  - rewrite (findById_eval _ _ pk) by done. simpl. rewrite Hrecords. f_equal.
    unfold written. rewrite (find_insert_first _ records index prior merged Hprior Hbefore).
    unfold strict_eq. by rewrite bool_decide_eq_true_2.
  - intros id' Hid'. rewrite !(findById_eval _ _ pk) by done. simpl. rewrite Hrecords.
    f_equal. fold records. unfold written.
    apply (find_insert_other _ records index prior merged Hprior);
      unfold strict_eq; apply bool_decide_eq_false.
    + unfold strict_eq in Hfx. apply bool_decide_eq_true in Hfx. congruence.
    + congruence.
Qed.

Lemma update_then_findById_witness :
  ∃ w',
    Repository.update shop Orders (VStr "o1") {[ "customer" := VStr "Zed" ]} None
      (blank shop_tabs) = (Resolved (order "o1" "Zed"), w')
    ∧ table_records Orders w' = [order "o1" "Zed"; order "o2" "Bob"]
    ∧ fst (Repository.findById shop Orders (VStr "o1") w') = Resolved (Some (order "o1" "Zed"))
    ∧ fst (Repository.findById shop Orders (VStr "o2") w') = Resolved (Some (order "o2" "Bob")).
Proof.
  destruct (update_then_findById shop Orders "id" (VStr "o1") {[ "customer" := VStr "Zed" ]}
              None (blank shop_tabs) 0%nat (order "o1" "Alice"))
    as (w' & Hupdate & Hrecords & Hfound & Hothers).
  - reflexivity.
  - reflexivity.
  - repeat split; reflexivity.
  - vm_compute. reflexivity.
  - vm_compute. reflexivity.
  - intros check [= <-]. vm_compute. reflexivity.
  - intros _. reflexivity.
  - vm_compute. reflexivity.
  - exact shop_orders_parse_back.
  - intros j. vm_compute. reflexivity.
  - exists w'. split; [|split; [|split]].
    + rewrite Hupdate. vm_compute. reflexivity.
    + rewrite Hrecords, shop_orders_records. vm_compute. reflexivity.
    + rewrite Hfound. vm_compute. reflexivity.
    + rewrite (Hothers (VStr "o2")) by discriminate. reflexivity.
Defined.

(** ** Requests and their failures *)

Lemma digit_of_pretty_N_char (d : N) :
  (d < 10)%N → digit_of (pretty_N_char d) = Some (Z.of_N d).
Proof.
  intros Hd.
  assert (d = 0 ∨ d = 1 ∨ d = 2 ∨ d = 3 ∨ d = 4 ∨ d = 5 ∨ d = 6 ∨ d = 7
          ∨ d = 8 ∨ d = 9)%N as Hcases by lia.
  repeat (destruct Hcases as [->|Hcases]; [reflexivity|]).
  subst d. reflexivity.
Qed.

Lemma leading_digits_pretty_N_go (x : N) :
  (0 < x)%N → ∀ acc : option Z, ∃ (m : Z) (k : nat),
    m = default 0 acc * 10 ^ Z.of_nat k + Z.of_N x ∧
    ∀ s, leading_digits acc (pretty_N_go x s) = leading_digits (Some m) s.
Proof.
  induction (N.lt_wf_0 x) as [x _ IH]. intros Hx acc.
  assert (Hmod : (x `mod` 10 < 10)%N) by (apply N.mod_lt; lia).
  assert (Hdiv : Z.of_N x = 10 * Z.of_N (x `div` 10) + Z.of_N (x `mod` 10)).
  { rewrite (N.div_mod x 10) at 1 by lia. lia. }
  destruct (decide (x `div` 10 = 0)%N) as [H0|H0].
  - exists (10 * default 0 acc + Z.of_N (x `mod` 10)), 1%nat. split.
    + rewrite Hdiv, H0. change (10 ^ Z.of_nat 1) with 10. lia.
    + intros s. rewrite pretty_N_go_step by done. rewrite H0, pretty_N_go_0.
      cbn [leading_digits]. rewrite digit_of_pretty_N_char by done. reflexivity.
  - destruct (IH (x `div` 10)%N) with (acc := acc) as (m & k & -> & Hread).
    { apply N.div_lt; lia. }
    { lia. }
    exists (10 * (default 0 acc * 10 ^ Z.of_nat k + Z.of_N (x `div` 10))
            + Z.of_N (x `mod` 10)), (S k). split.
    + rewrite Nat2Z.inj_succ, Z.pow_succ_r by lia. lia.
    + intros s. rewrite pretty_N_go_step by done. rewrite Hread.
      cbn [leading_digits]. rewrite digit_of_pretty_N_char by done. reflexivity.
Qed.

Lemma pretty_N_go_head (x : N) :
  (0 < x)%N → ∀ s, ∃ d s', (d < 10)%N ∧ pretty_N_go x s = String (pretty_N_char d) s'.
Proof.
  induction (N.lt_wf_0 x) as [x _ IH]. intros Hx s.
  rewrite pretty_N_go_step by done.
  destruct (decide (x `div` 10 = 0)%N) as [H0|H0].
  - rewrite H0, pretty_N_go_0. eexists _, _. split; [|reflexivity].
    apply N.mod_lt; lia.
  - apply IH; [apply N.div_lt; lia | by apply N.neq_0_lt_0].
Qed.

Lemma parseInt10_digit_head (d : N) (s : string) :
  (d < 10)%N →
  parseInt10 (String (pretty_N_char d) s)
  = leading_digits None (String (pretty_N_char d) s).
Proof.
  intros Hd.
  assert (d = 0 ∨ d = 1 ∨ d = 2 ∨ d = 3 ∨ d = 4 ∨ d = 5 ∨ d = 6 ∨ d = 7
          ∨ d = 8 ∨ d = 9)%N as Hcases by lia.
  repeat (destruct Hcases as [->|Hcases]; [reflexivity|]).
  subst d. reflexivity.
Qed.

Lemma leading_digits_pretty_pos (p : positive) :
  leading_digits None (pretty_N_go (N.pos p) "") = Some (Z.pos p).
Proof.
  destruct (leading_digits_pretty_N_go (N.pos p)) with (acc := @None Z)
    as (m & k & -> & Hread); [lia|].
  rewrite Hread. reflexivity.
Qed.

Lemma parseInt10_pretty (z : Z) : parseInt10 (pretty z) = Some z.
Proof.
  destruct z as [|p|p].
  - reflexivity.
  - change (pretty (Z.pos p)) with (pretty_N_go (N.pos p) "").
    destruct (pretty_N_go_head (N.pos p)) with (s := "") as (d & s' & Hd & Heq);
      [lia|].
    rewrite Heq, parseInt10_digit_head by done. rewrite <- Heq.
    apply leading_digits_pretty_pos.
  - change (pretty (Z.neg p)) with (String "-" (pretty_N_go (N.pos p) "")).
    unfold parseInt10. cbn [trim_start].
    change (is_space "-") with false. cbv iota.
    rewrite leading_digits_pretty_pos. reflexivity.
Qed.

Lemma answer_inr (res res' : Http.Response) :
  Http.answer res = inr res' → res' = res ∧ Http.ok res = true.
Proof.
  unfold Http.answer. destruct (Http.ok res); [by intros [= <-]|].
  unfold Http.wrapHttpError. by repeat case_bool_decide.
Qed.

Lemma answer_inl (res : Http.Response) (failure : Http.Failure) :
  Http.answer res = inl failure →
  Http.ok res = false ∧
  ∃ message,
    failure = Http.HttpFailure (kind_of_status (Http.status res)) message
                (if bool_decide (Http.status res = 429)
                 then Http.parseRetryAfterMs res else None) res.
Proof.
  unfold Http.answer, Http.wrapHttpError, kind_of_status.
  destruct (Http.ok res); [done|].
  repeat case_bool_decide; try lia; intros [= <-]; (split; [done|]);
    eexists; reflexivity.
Qed.



